(** * s3transfer.utils: the sliding-window semaphore, the chunk reader and
      the deferred file, embedded in Rocq.

    Part I follows [s3transfer/utils.py], one module per unit:

    - [Py]                     a small state-and-exception monad in which the
                               method bodies are written statement by statement;
    - [Callbacks]              [invoke_progress_callbacks];
    - [FileObj]                the binary file object the readers sit on;
    - [DeferredOpenFile]       the class of the same name;
    - [ReadFileChunk]          the class of the same name;
    - [SlidingWindowSemaphore] the class of the same name;
    - [Progress]               what a callback has been told in all;
    - [StreamReaderProgress]   the class of the same name;
    - [Subscribers]            [get_callbacks];
    - [RangeParameter]         [calculate_range_parameter];
    - [OSUtils]                the class of the same name, on a file
                               system of files by name;
    - [UploadCallbacks]        [enable_upload_callbacks] and
                               [disable_upload_callbacks];
    - [DeferredAnswers]        the answers of a [DeferredOpenFile] and of
                               the file it stands for.

    Each module first gives the code, then what one call does in closed
    form, then the words the properties are stated in (call sequences,
    reachable states, invariants) and the fixtures of the unit tests.

    Part II proves the properties, one module per class:
    [DeferredOpenFileProofs], [ReadFileChunkProofs] and
    [SlidingWindowSemaphoreProofs], then [SlidingWindowSemaphoreMore],
    [ProgressProofs], [ReadFileChunkMore], [UploadCallbacksProofs],
    [StreamReaderProgressProofs], [SubscribersProofs],
    [RangeParameterProofs], [OSUtilsProofs] and [DeferredOpenFileMore].

    Python integers are unbounded, so they are [Z]; dictionaries are stdpp
    [gmap]s; lists are lists; byte strings are [list byte]. *)

From Stdlib Require Import ZArith Lia Strings.Byte.
From stdpp Require Import gmap strings pretty list fin_maps sorting.

Open Scope Z_scope.

(** ** The execution monad

    A method body runs on the object's attributes and either returns a
    value, raises an exception, or (for a blocking call on a condition
    variable) waits.  A Python exception does not roll back the
    assignments made before it: the state at the point of the [raise] is
    part of the result. *)
Module Py.

(** The exceptions the modelled code raises.  [ValueError] carries which of
    the two messages of [SlidingWindowSemaphore.release] it was built with;
    [OSError] carries its [errno]. *)
Inductive message :=
| unknown_tag                (* "Attempted to release unknown tag: %s" *)
| unknown_sequence_number.   (* "Attempted to release unknown sequence number %s for tag: %s" *)

Inductive errno :=
| EINVAL    (* seek to a negative offset *)
| ENOENT.   (* open of a file that does not exist *)

Inductive exception :=
| NoResourcesAvailable
| ValueError (m : message)
| KeyError
| AttributeError             (* a method call on [None] *)
| OSError (e : errno).

Inductive outcome (A : Type) : Type :=
| Returns (a : A)
| Raises (e : exception)
| Waits.
Arguments Returns {A} a.
Arguments Raises {A} e.
Arguments Waits {A}.

Definition M (St A : Type) : Type := St -> outcome A * St.

Definition ret {St A} (a : A) : M St A :=
  fun s => (Returns a, s).

Definition bind {St A B} (m : M St A) (k : A -> M St B) : M St B :=
  fun s =>
    match m s with
    | (Returns a, s') => k a s'
    | (Raises e, s') => (Raises e, s')
    | (Waits, s') => (Waits, s')
    end.

Definition raise {St A} (e : exception) : M St A :=
  fun s => (Raises e, s).

Definition wait {St A} : M St A :=
  fun s => (Waits, s).

Definition gets {St A} (f : St -> A) : M St A :=
  fun s => (Returns (f s), s).

Definition modify {St} (f : St -> St) : M St unit :=
  fun s => (Returns tt, f s).

Definition pass {St} : M St unit := ret tt.

(** Running a computation of a component on the component of a larger
    state (a method call on an attribute that holds an object). *)
Definition zoom {Outer Inner A} (get : Outer -> Inner)
    (set : Inner -> Outer -> Outer) (m : M Inner A) : M Outer A :=
  fun o => let '(r, i) := m (get o) in (r, set i o).

End Py.

Import Py.

Declare Scope py_scope.
Delimit Scope py_scope with py.
Notation "x <- c1 ;; c2" := (bind c1 (fun x => c2))
  (at level 100, c1 at next level, right associativity) : py_scope.
Notation "c1 ;; c2" := (bind c1 (fun _ => c2))
  (at level 100, right associativity) : py_scope.
Open Scope py_scope.

(** * Part I: the program and the vocabulary of its properties *)

(** ** [invoke_progress_callbacks]

    A progress callback is an opaque callable of the caller; what the
    code does with it is call it.  A call [callback(bytes_transferred=n)]
    is recorded as [Called callback n], and a function that calls
    callbacks yields the calls it makes, in order. *)
Module Callbacks.
Section Callbacks.
Context {callback : Type}.

Record invocation := Called { callee : callback; bytes_transferred : Z }.

(** [for callback in callbacks: callback(bytes_transferred=...)] *)
Fixpoint for_each (callbacks : list callback) (bytes : Z)
  : list invocation :=
  match callbacks with
  | [] => []
  | callback :: rest => Called callback bytes :: for_each rest bytes
  end.

(** [invoke_progress_callbacks(callbacks, bytes_transferred)]; the test
    [if bytes_transferred:] on an integer is [bytes_transferred != 0]. *)
Definition invoke_progress_callbacks (callbacks : list callback)
    (bytes : Z) : list invocation :=
  if bytes =? 0 then [] else for_each callbacks bytes.

End Callbacks.
Arguments invocation callback : clear implicits.
End Callbacks.

(** ** The file object

    What [open(filename, 'rb')] returns, while it is open: the bytes of
    the file and the position of the stream.  [close] is not modelled:
    the properties below are about objects in use. *)
Module FileObj.

Record file := mk_file { content : list byte; position : Z }.

(** The files [open] can find, by name. *)
Definition filesystem : Type := string -> option (list byte).

(** [open(filename, 'rb')] *)
Definition open (fs : filesystem) (filename : string) : outcome file :=
  match fs filename with
  | Some bytes => Returns {| content := bytes; position := 0 |}
  | None => Raises (OSError ENOENT)
  end.

(** [os.fstat(f.fileno()).st_size] *)
Definition st_size (f : file) : Z := Z.of_nat (length (content f)).

(** [f.tell()] *)
Definition tell : M file Z := gets position.

(** [f.seek(offset)]: a negative offset is refused; an offset past the
    end is accepted.  What [seek] returns (the new offset, on Python 3)
    is used by no caller in [utils.py] and is left out here.  The
    offsets meant are those of a 64-bit file system: outside them the
    real [seek] raises. *)
Definition seek (offset : Z) : M file unit :=
  if offset <? 0 then raise (OSError EINVAL)
  else modify (fun f => {| content := content f; position := offset |}).

(** [f.read(size)]: with [None] or a negative [size] everything up to the
    end of the file, otherwise at most [size] bytes; the position moves
    by what was read.  A [size] below [-1] is read as [-1], which is
    what the [file] of Python 2 does; the buffered reader of Python 3
    refuses it with a [ValueError]. *)
Definition bytes_at (size : option Z) (f : file) : list byte :=
  let rest := drop (Z.to_nat (position f)) (content f) in
  match size with
  | None => rest
  | Some n => if n <? 0 then rest else take (Z.to_nat n) rest
  end.

Definition read (size : option Z) : M file (list byte) :=
  f <- gets id ;;
  let data := bytes_at size f in
  modify (fun f => {| content := content f;
                      position := position f + Z.of_nat (length data) |}) ;;
  ret data.

End FileObj.

(** ** [class DeferredOpenFile] *)
Module DeferredOpenFile.
Import FileObj.

(** The attributes, and [open_called_count]: how many times [OPEN_METHOD]
    was called for this object (what the counting open method of the unit
    tests observes). *)
Record deferred := mk_deferred {
  _filename : string;
  _fileobj : option file;
  _start_byte : Z;
  open_called_count : nat
}.

(** [DeferredOpenFile(filename, start_byte=0)] *)
Definition __init__ (filename : string) (start_byte : Z) : deferred :=
  {| _filename := filename; _fileobj := None;
     _start_byte := start_byte; open_called_count := 0 |}.

Definition set_fileobj (o : option file) (d : deferred) : deferred :=
  {| _filename := _filename d; _fileobj := o;
     _start_byte := _start_byte d;
     open_called_count := open_called_count d |}.

(** A method call [self._fileobj.m(...)]. *)
Definition on_fileobj {A} (m : M file A) : M deferred A :=
  fun d =>
    match _fileobj d with
    | Some f => let '(r, f') := m f in (r, set_fileobj (Some f') d)
    | None => (Raises AttributeError, d)
    end.

Section Methods.
Variable fs : filesystem.

(** [self.OPEN_METHOD(self._filename, 'rb')] *)
Definition OPEN_METHOD (filename : string) : M deferred file :=
  modify (fun d => {| _filename := _filename d; _fileobj := _fileobj d;
                      _start_byte := _start_byte d;
                      open_called_count := S (open_called_count d) |}) ;;
  match FileObj.open fs filename with
  | Returns f => ret f
  | Raises e => raise e
  | Waits => wait
  end.

Definition _open_if_needed : M deferred unit :=
  o <- gets _fileobj ;;
  match o with
  | None =>
      filename <- gets _filename ;;
      f <- OPEN_METHOD filename ;;
      modify (set_fileobj (Some f)) ;;
      start_byte <- gets _start_byte ;;
      on_fileobj (FileObj.seek start_byte)
  | Some _ => pass
  end.

(** [read(self, amount=None)] *)
Definition read (amount : option Z) : M deferred (list byte) :=
  _open_if_needed ;;
  on_fileobj (FileObj.read amount).

(** [seek(self, where)] *)
Definition seek (where_ : Z) : M deferred unit :=
  _open_if_needed ;;
  on_fileobj (FileObj.seek where_).

(** [tell(self)] *)
Definition tell : M deferred Z :=
  o <- gets _fileobj ;;
  match o with
  | None => start_byte <- gets _start_byte ;; ret start_byte
  | Some _ => on_fileobj FileObj.tell
  end.

(** [__enter__(self)]; the object it returns is [self], the state. *)
Definition __enter__ : M deferred unit := _open_if_needed.

(** The calls a user makes, and a sequence of them; a call that raises
    leaves the object as it is at the [raise], and the next call goes on
    from there. *)
Inductive call :=
| Read (amount : option Z)
| Seek (where_ : Z)
| Tell
| Enter.

Definition perform (c : call) (d : deferred) : deferred :=
  match c with
  | Read amount => (read amount d).2
  | Seek where_ => (seek where_ d).2
  | Tell => (tell d).2
  | Enter => (__enter__ d).2
  end.

Definition run (cs : list call) (d : deferred) : deferred :=
  foldl (fun d c => perform c d) d cs.

(** A call that does not seek below [start_byte]. *)
Definition forward (start_byte : Z) (c : call) : Prop :=
  match c with
  | Seek where_ => start_byte <= where_
  | _ => True
  end.

(** The object once [_open_if_needed] has opened [source]: the file is put
    at [start_byte] (a negative [start_byte] is refused by the file, which
    then stays at 0). *)
Definition opened (source : list byte) (d : deferred) : deferred :=
  {| _filename := _filename d;
     _fileobj := Some {| content := source;
                         position := if _start_byte d <? 0 then 0
                                     else _start_byte d |};
     _start_byte := _start_byte d;
     open_called_count := S (open_called_count d) |}.

(** When the handle is present it is at [start_byte] or beyond. *)
Definition at_or_beyond_start (d : deferred) : Prop :=
  ∀ f, _fileobj d = Some f → _start_byte d <= position f ∧ 0 <= position f.

End Methods.

(** The file of the unit tests. *)
Definition my_contents : filesystem :=
  fun name =>
    if String.eqb name "foo"
    then Some (String.list_byte_of_string "my contents") else None.

End DeferredOpenFile.

(** ** [class ReadFileChunk] *)
Module ReadFileChunk.
Import FileObj Callbacks.

Section Chunk.
Context {callback : Type}.

(** The attributes, and [invoked]: every call made to a progress callback
    so far, oldest first.  [_fileobj] is a binary file, as
    [from_filename] opens it.  [_callbacks] is a list: [__init__]
    replaces [None] by [[]], so the test [self._callbacks is not None] of
    [read] and [seek] always passes. *)
Record chunk := mk_chunk {
  _fileobj : file;
  _start_byte : Z;
  _size : Z;
  _amount_read : Z;
  _callbacks : list callback;
  _callbacks_enabled : bool;
  invoked : list (invocation callback)
}.

Definition set_fileobj (f : file) (c : chunk) : chunk :=
  {| _fileobj := f; _start_byte := _start_byte c; _size := _size c;
     _amount_read := _amount_read c; _callbacks := _callbacks c;
     _callbacks_enabled := _callbacks_enabled c; invoked := invoked c |}.

Definition set_amount_read (n : Z) (c : chunk) : chunk :=
  {| _fileobj := _fileobj c; _start_byte := _start_byte c; _size := _size c;
     _amount_read := n; _callbacks := _callbacks c;
     _callbacks_enabled := _callbacks_enabled c; invoked := invoked c |}.

Definition set_callbacks_enabled (b : bool) (c : chunk) : chunk :=
  {| _fileobj := _fileobj c; _start_byte := _start_byte c; _size := _size c;
     _amount_read := _amount_read c; _callbacks := _callbacks c;
     _callbacks_enabled := b; invoked := invoked c |}.

(** Making the calls [calls], after those made before. *)
Definition call_all (calls : list (invocation callback)) (c : chunk)
  : chunk :=
  {| _fileobj := _fileobj c; _start_byte := _start_byte c; _size := _size c;
     _amount_read := _amount_read c; _callbacks := _callbacks c;
     _callbacks_enabled := _callbacks_enabled c;
     invoked := invoked c ++ calls |}.

(** A method call [self._fileobj.m(...)]. *)
Definition on_fileobj {A} (m : M file A) : M chunk A :=
  zoom _fileobj set_fileobj m.

Definition _calculate_file_size (fileobj : file)
    (requested_size start_byte actual_file_size : Z) : Z :=
  let max_chunk_size := actual_file_size - start_byte in
  Z.min max_chunk_size requested_size.

(** [ReadFileChunk(fileobj, chunk_size, full_file_size, callbacks=None,
    enable_callbacks=True)] *)
Definition __init__ (fileobj : file) (chunk_size full_file_size : Z)
    (callbacks : option (list callback)) (enable_callbacks : bool)
  : chunk :=
  let start_byte := position fileobj in        (* self._fileobj.tell() *)
  {| _fileobj := fileobj;
     _start_byte := start_byte;
     _size := _calculate_file_size fileobj chunk_size start_byte
                full_file_size;
     _amount_read := 0;
     _callbacks := default [] callbacks;
     _callbacks_enabled := enable_callbacks;
     invoked := [] |}.

(** [ReadFileChunk.from_filename(filename, start_byte, chunk_size,
    callbacks=None, enable_callbacks=True)] *)
Definition from_filename (fs : filesystem) (filename : string)
    (start_byte chunk_size : Z) (callbacks : option (list callback))
    (enable_callbacks : bool) : outcome chunk :=
  match FileObj.open fs filename with
  | Returns f =>
      match FileObj.seek start_byte f with
      | (Returns _, f') =>
          let file_size := st_size f' in
          Returns (__init__ f' chunk_size file_size callbacks
                     enable_callbacks)
      | (Raises e, _) => Raises e
      | (Waits, _) => Waits
      end
  | Raises e => Raises e
  | Waits => Waits
  end.

Definition len (data : list byte) : Z := Z.of_nat (length data).

(** [read(self, amount=None)] *)
Definition read (amount : option Z) : M chunk (list byte) :=
  size <- gets _size ;;
  amount_read <- gets _amount_read ;;
  let amount_to_read :=
    match amount with
    | None => size - amount_read
    | Some amount => Z.min (size - amount_read) amount
    end in
  data <- on_fileobj (FileObj.read (Some amount_to_read)) ;;
  amount_read <- gets _amount_read ;;
  modify (set_amount_read (amount_read + len data)) ;;
  enabled <- gets _callbacks_enabled ;;
  (if enabled then
     callbacks <- gets _callbacks ;;
     modify (call_all (invoke_progress_callbacks callbacks (len data)))
   else pass) ;;
  ret data.

(** [enable_callback(self)], [disable_callback(self)] *)
Definition enable_callback : M chunk unit :=
  modify (set_callbacks_enabled true).

Definition disable_callback : M chunk unit :=
  modify (set_callbacks_enabled false).

(** [seek(self, where)] *)
Definition seek (where_ : Z) : M chunk unit :=
  start_byte <- gets _start_byte ;;
  on_fileobj (FileObj.seek (start_byte + where_)) ;;
  enabled <- gets _callbacks_enabled ;;
  (if enabled then
     callbacks <- gets _callbacks ;;
     amount_read <- gets _amount_read ;;
     modify (call_all (invoke_progress_callbacks callbacks
                         (where_ - amount_read)))
   else pass) ;;
  modify (set_amount_read where_).

(** [tell(self)] *)
Definition tell (c : chunk) : Z := _amount_read c.

(** [__len__(self)] *)
Definition __len__ (c : chunk) : Z := _size c.

(** [__iter__(self)]: [iter([])], nothing to yield. *)
Definition __iter__ (c : chunk) : list (list byte) := [].

(** The calls that move the cursor, and a sequence of them; a call that
    raises leaves the object as it is at the [raise]. *)
Inductive call :=
| Read (amount : option Z)
| Seek (where_ : Z).

Definition perform (o : call) (c : chunk) : chunk :=
  match o with
  | Read amount => (read amount c).2
  | Seek where_ => (seek where_ c).2
  end.

Definition run (os : list call) (c : chunk) : chunk :=
  foldl (fun c o => perform o c) c os.

(** A byte count: omitted, or not negative. *)
Definition byte_count (amount : option Z) : Prop :=
  match amount with
  | None => True
  | Some n => 0 <= n
  end.

(** A call that stays inside a window of [size] bytes: a read of a byte
    count, or a seek to an offset of the window. *)
Definition in_window (size : Z) (o : call) : Prop :=
  match o with
  | Read amount => byte_count amount
  | Seek where_ => 0 <= where_ <= size
  end.

(** The bytes of the source from absolute offset [from], at most [n] of
    them. *)
Definition slice (source : list byte) (from n : Z) : list byte :=
  take (Z.to_nat n) (drop (Z.to_nat from) source).

(** *** What one call does, in closed form *)

Definition amount_to_read (amount : option Z) (c : chunk) : Z :=
  match amount with
  | None => _size c - _amount_read c
  | Some amount => Z.min (_size c - _amount_read c) amount
  end.

Definition data_read (amount : option Z) (c : chunk) : list byte :=
  bytes_at (Some (amount_to_read amount c)) (_fileobj c).

Definition after_read (amount : option Z) (c : chunk) : chunk :=
  let data := data_read amount c in
  {| _fileobj := {| content := content (_fileobj c);
                    position := position (_fileobj c) + len data |};
     _start_byte := _start_byte c;
     _size := _size c;
     _amount_read := _amount_read c + len data;
     _callbacks := _callbacks c;
     _callbacks_enabled := _callbacks_enabled c;
     invoked :=
       invoked c ++
       (if _callbacks_enabled c
        then invoke_progress_callbacks (_callbacks c) (len data)
        else []) |}.

Definition after_seek (where_ : Z) (c : chunk) : chunk :=
  {| _fileobj := {| content := content (_fileobj c);
                    position := _start_byte c + where_ |};
     _start_byte := _start_byte c;
     _size := _size c;
     _amount_read := where_;
     _callbacks := _callbacks c;
     _callbacks_enabled := _callbacks_enabled c;
     invoked :=
       invoked c ++
       (if _callbacks_enabled c
        then invoke_progress_callbacks (_callbacks c)
               (where_ - _amount_read c)
        else []) |}.

(** A chunk that is a window on [source]: the file holds [source], its
    position is the window start plus the cursor, and the window lies
    inside the source. *)
Record window_ok (source : list byte) (c : chunk) : Prop := {
  wo_content : content (_fileobj c) = source;
  wo_position : position (_fileobj c) = _start_byte c + _amount_read c;
  wo_start : 0 <= _start_byte c;
  wo_cursor : 0 <= _amount_read c <= _size c;
  wo_size : _start_byte c + _size c <= len source
}.

End Chunk.
Arguments chunk callback : clear implicits.

(** The files of the unit tests, and a source of 40 bytes. *)
Definition numbers : list byte :=
  String.list_byte_of_string "onetwothreefourfivesixseveneightnineten".

Definition forty : list byte :=
  String.list_byte_of_string "0123456789012345678901234567890123456789".

Definition files : filesystem :=
  fun name =>
    if String.eqb name "numbers" then Some numbers
    else if String.eqb name "forty" then Some forty
    else if String.eqb name "foo" then Some (String.list_byte_of_string "abc")
    else None.

(** [ReadFileChunk.from_filename(filename, start_byte, chunk_size,
    callbacks=[self.callback])], once it returned. *)
Definition chunk_of (filename : string) (start_byte chunk_size : Z)
  : chunk string :=
  match from_filename files filename start_byte chunk_size
          (Some ["callback"]) true with
  | Returns c => c
  | _ => __init__ {| content := []; position := 0 |} 0 0 None false
  end.

End ReadFileChunk.

(** ** [class SlidingWindowSemaphore] *)
Module SlidingWindowSemaphore.

(** [sort(reverse=True)] on a list of integers: the descending
    rearrangement of the list. *)
Fixpoint insert_desc (x : Z) (l : list Z) : list Z :=
  match l with
  | [] => [x]
  | y :: r => if y <=? x then x :: y :: r else y :: insert_desc x r
  end.

Definition sort_reverse (l : list Z) : list Z := foldr insert_desc [] l.

Section Semaphore.
Context {tag : Type} `{Countable tag}.

(** The attributes set by [__init__]; the lock and the condition carry no
    data and every method body runs with the lock held, so a call is one
    atomic transition of this record. *)
Record sem := mk_sem {
  _count : Z;
  _tag_sequences : gmap tag Z;           (* defaultdict(int) *)
  _lowest_sequence : gmap tag Z;         (* {} *)
  _pending_release : gmap tag (list Z)   (* {} *)
}.

Definition __init__ (count : Z) : sem :=
  {| _count := count; _tag_sequences := ∅;
     _lowest_sequence := ∅; _pending_release := ∅ |}.

Definition current_count (s : sem) : Z := _count s.

(** Attribute and dictionary accesses. *)
Definition set_count (c : Z) : M sem unit :=
  modify (fun s => {| _count := c; _tag_sequences := _tag_sequences s;
                      _lowest_sequence := _lowest_sequence s;
                      _pending_release := _pending_release s |}).

Definition set_tag_sequences (m : gmap tag Z) : M sem unit :=
  modify (fun s => {| _count := _count s; _tag_sequences := m;
                      _lowest_sequence := _lowest_sequence s;
                      _pending_release := _pending_release s |}).

Definition set_lowest_sequence (m : gmap tag Z) : M sem unit :=
  modify (fun s => {| _count := _count s; _tag_sequences := _tag_sequences s;
                      _lowest_sequence := m;
                      _pending_release := _pending_release s |}).

Definition set_pending_release (m : gmap tag (list Z)) : M sem unit :=
  modify (fun s => {| _count := _count s; _tag_sequences := _tag_sequences s;
                      _lowest_sequence := _lowest_sequence s;
                      _pending_release := m |}).

(** [self._count += d] *)
Definition count_iadd (d : Z) : M sem unit :=
  c <- gets _count ;; set_count (c + d).

(** [self._tag_sequences[tag]] on a [defaultdict(int)]: a missing key is
    first inserted with [int() = 0]. *)
Definition tag_sequences_getitem (t : tag) : M sem Z :=
  m <- gets _tag_sequences ;;
  match m !! t with
  | Some n => ret n
  | None => set_tag_sequences (<[t := 0]> m) ;; ret 0
  end.

(** [self._tag_sequences[tag] += d] *)
Definition tag_sequences_iadd (t : tag) (d : Z) : M sem unit :=
  n <- tag_sequences_getitem t ;;
  m <- gets _tag_sequences ;;
  set_tag_sequences (<[t := n + d]> m).

(** [tag in self._tag_sequences]: membership does not insert. *)
Definition tag_sequences_contains (t : tag) : M sem bool :=
  m <- gets _tag_sequences ;;
  ret (bool_decide (is_Some (m !! t))).

(** [self._lowest_sequence[tag]] on a plain dict. *)
Definition lowest_sequence_getitem (t : tag) : M sem Z :=
  m <- gets _lowest_sequence ;;
  match m !! t with
  | Some n => ret n
  | None => raise KeyError
  end.

(** [self._lowest_sequence[tag] = v] *)
Definition lowest_sequence_setitem (t : tag) (v : Z) : M sem unit :=
  m <- gets _lowest_sequence ;;
  set_lowest_sequence (<[t := v]> m).

(** [self._lowest_sequence[tag] += d] *)
Definition lowest_sequence_iadd (t : tag) (d : Z) : M sem unit :=
  n <- lowest_sequence_getitem t ;;
  lowest_sequence_setitem t (n + d).

(** [queued = self._pending_release.get(tag, [])]: when the tag is present
    [queued] is the very list stored in the dictionary, so the later
    [queued.pop()] changes the dictionary's entry; when it is absent
    [queued] is a fresh empty list.  The model reads and writes the entry
    itself. *)
Definition pending_release_get (t : tag) : M sem (list Z) :=
  m <- gets _pending_release ;;
  ret (default [] (m !! t)).

(** [queued.pop()] on the aliased entry (only reached when [queued] is
    non-empty, hence when the entry exists). *)
Definition queued_pop (t : tag) : M sem unit :=
  m <- gets _pending_release ;;
  match m !! t with
  | Some q => set_pending_release (<[t := removelast q]> m)
  | None => pass
  end.

(** [self._pending_release.setdefault(tag, []).append(sequence_number)] *)
Definition pending_release_setdefault_append (t : tag) (n : Z) : M sem unit :=
  m <- gets _pending_release ;;
  set_pending_release (<[t := default [] (m !! t) ++ [n]]> m).

(** [self._pending_release[tag].sort(reverse=True)] *)
Definition pending_release_sort_reverse (t : tag) : M sem unit :=
  m <- gets _pending_release ;;
  match m !! t with
  | Some q => set_pending_release (<[t := sort_reverse q]> m)
  | None => raise KeyError
  end.

(** [acquire(self, tag, blocking=True)] *)
Definition acquire (t : tag) (blocking : bool) : M sem Z :=
  c <- gets _count ;;
  (if c =? 0 then
     if negb blocking then raise NoResourcesAvailable
     else wait                (* while self._count == 0: self._condition.wait() *)
   else pass) ;;
  sequence_number <- tag_sequences_getitem t ;;
  (if sequence_number =? 0 then lowest_sequence_setitem t sequence_number
   else pass) ;;
  tag_sequences_iadd t 1 ;;
  count_iadd (-1) ;;
  ret sequence_number.

(** The [while queued:] loop of [release]; each iteration that does not
    [break] pops one element, so [length queued] iterations are enough
    ([cascade_fuel] and [cascade_shape] in Part II). *)
Fixpoint drain (fuel : nat) (t : tag) : M sem unit :=
  match fuel with
  | O => pass
  | S fuel' =>
      queued <- pending_release_get t ;;
      match last queued with
      | None => pass                            (* queued is empty *)
      | Some m =>
          low <- lowest_sequence_getitem t ;;
          if low =? m then
            queued_pop t ;;
            lowest_sequence_iadd t 1 ;;
            count_iadd 1 ;;
            drain fuel' t
          else pass                             (* break *)
      end
  end.

(** [release(self, tag, sequence_number)] *)
Definition release (t : tag) (sequence_number : Z) : M sem unit :=
  known <- tag_sequences_contains t ;;
  if negb known then raise (ValueError unknown_tag) else
  max_sequence <- tag_sequences_getitem t ;;
  low <- lowest_sequence_getitem t ;;
  if low =? sequence_number then
    lowest_sequence_iadd t 1 ;;
    count_iadd 1 ;;
    (* self._condition.notify() *)
    queued <- pending_release_get t ;;
    drain (length queued) t
  else
    low' <- lowest_sequence_getitem t ;;
    if (low' <? sequence_number) && (sequence_number <? max_sequence) then
      pending_release_setdefault_append t sequence_number ;;
      pending_release_sort_reverse t
    else raise (ValueError unknown_sequence_number).

(** *** What one call does, in closed form *)

(** The state after a successful [acquire]. *)
Definition acquired (t : tag) (s : sem) : sem :=
  let k := default 0 (_tag_sequences s !! t) in
  {| _count := _count s + -1;
     _tag_sequences := <[t := k + 1]> (_tag_sequences s);
     _lowest_sequence :=
       if k =? 0 then <[t := k]> (_lowest_sequence s) else _lowest_sequence s;
     _pending_release := _pending_release s |}.

(** The [while] loop on the three values it changes. *)
Fixpoint cascade (fuel : nat) (low cnt : Z) (queued : list Z)
  : Z * Z * list Z :=
  match fuel with
  | O => (low, cnt, queued)
  | S fuel' =>
      match last queued with
      | None => (low, cnt, queued)
      | Some m =>
          if low =? m
          then cascade fuel' (low + 1) (cnt + 1) (removelast queued)
          else (low, cnt, queued)
      end
  end.

Definition with_cascade (t : tag) (s : sem) (r : Z * Z * list Z) : sem :=
  {| _count := r.1.2;
     _tag_sequences := _tag_sequences s;
     _lowest_sequence := <[t := r.1.1]> (_lowest_sequence s);
     _pending_release :=
       match _pending_release s !! t with
       | Some _ => <[t := r.2]> (_pending_release s)
       | None => _pending_release s
       end |}.

(** The state after [release] took its first branch. *)
Definition released_min (t : tag) (low : Z) (s : sem) : sem :=
  let queued := default [] (_pending_release s !! t) in
  with_cascade t s (cascade (length queued) (low + 1) (_count s + 1) queued).

(** The state after [release] took its second branch. *)
Definition released_later (t : tag) (n : Z) (s : sem) : sem :=
  {| _count := _count s;
     _tag_sequences := _tag_sequences s;
     _lowest_sequence := _lowest_sequence s;
     _pending_release :=
       <[t := sort_reverse (default [] (_pending_release s !! t) ++ [n])]>
         (_pending_release s) |}.

End Semaphore.

Arguments sem tag {_ _}.

(** *** States, call sequences and what the properties are stated on *)

(** A pending-release list is kept in the order [sort(reverse=True)] leaves
    it in: descending, so its minimum is its last element. *)
Definition sorted_desc (q : list Z) : Prop :=
  StronglySorted (fun a b => b <= a) q.

(** The minimum of a queue, whatever the order of its elements. *)
Definition queue_min (q : list Z) : option Z :=
  match q with
  | [] => None
  | x :: r => Some (foldr Z.min x r)
  end.

(** Removing one occurrence of an element from a queue. *)
Fixpoint remove_one (m : Z) (q : list Z) : list Z :=
  match q with
  | [] => []
  | x :: r => if x =? m then r else x :: remove_one m r
  end.

(** The cascade as the specification words it, on the queue as a
    priority queue: while the minimum of the queue equals the lowest
    unreleased number, pop it, advance the lowest unreleased number and
    free one more unit. *)
Fixpoint spec_cascade (fuel : nat) (low cnt : Z) (q : list Z)
  : Z * Z * list Z :=
  match fuel with
  | O => (low, cnt, q)
  | S fuel' =>
      match queue_min q with
      | None => (low, cnt, q)
      | Some m =>
          if m =? low
          then spec_cascade fuel' (low + 1) (cnt + 1) (remove_one m q)
          else (low, cnt, q)
      end
  end.

Section SemaphoreStates.
Context {tag : Type} `{Countable tag}.
Implicit Types (s : sem tag) (t : tag) (n low cnt : Z) (q : list Z).

(** The three per-tag quantities, read through the dictionaries ([0] and
    [[]] for a tag that was never seen). *)
Definition next_of s t : Z := default 0 (_tag_sequences s !! t).
Definition lowest_of s t : Z := default 0 (_lowest_sequence s !! t).
Definition pending_of s t : list Z := default [] (_pending_release s !! t).

(** The sum over all tags of [next - lowest]. *)
Definition windows s : gmap tag Z :=
  map_zip_with (fun nxt low => nxt - low)
    (_tag_sequences s) (_lowest_sequence s).

Definition sum_values (m : gmap tag Z) : Z :=
  map_fold (fun _ v acc => v + acc) 0 m.

Definition outstanding s : Z := sum_values (windows s).

(** A call of one of the two methods, and what it answered. *)
Inductive call :=
| Acquire (t : tag) (blocking : bool)
| Release (t : tag) (sequence_number : Z).

Inductive answer :=
| Acquire_answer (o : outcome Z)
| Release_answer (o : outcome unit).

Definition perform (c : call) s : answer * sem tag :=
  match c with
  | Acquire t blocking =>
      let '(o, s') := acquire t blocking s in (Acquire_answer o, s')
  | Release t n =>
      let '(o, s') := release t n s in (Release_answer o, s')
  end.

(** Running a sequence of calls: every call with its answer, in order, and
    the final state. *)
Fixpoint run (cs : list call) s : list (call * answer) * sem tag :=
  match cs with
  | [] => ([], s)
  | c :: cs' =>
      let '(a, s1) := perform c s in
      let '(log, s2) := run cs' s1 in
      ((c, a) :: log, s2)
  end.

(** The states a semaphore created with [count] can be in. *)
Inductive reachable (count : Z) : sem tag -> Prop :=
| reachable_init : reachable count (__init__ count)
| reachable_call c s :
    reachable count s -> reachable count (perform c s).2.

(** The sequence numbers [acquire(t)] returned along a log. *)
Fixpoint returned_for t (log : list (call * answer)) : list Z :=
  match log with
  | [] => []
  | (Acquire t' _, Acquire_answer (Returns k)) :: log' =>
      if decide (t' = t) then k :: returned_for t log'
      else returned_for t log'
  | _ :: log' => returned_for t log'
  end.

(** What holds of every reachable state: a tag has a lowest sequence
    number exactly when it has a next one, a stored next number is
    positive (the [0] a [defaultdict] inserts is incremented in the same
    call), and every pending list is in descending order. *)
Record gate_ok s : Prop := {
  ok_dom : ∀ t, is_Some (_tag_sequences s !! t)
                ↔ is_Some (_lowest_sequence s !! t);
  ok_issued : ∀ t k, _tag_sequences s !! t = Some k → 0 < k;
  ok_sorted : ∀ t q, _pending_release s !! t = Some q → sorted_desc q
}.

(** A client that pairs every acquired sequence number with exactly one
    release: it holds the tickets [(tag, number)] it acquired and has not
    released yet, and only ever releases a ticket it holds. *)
Definition client_step (c : call) (σ : sem tag * gset (tag * Z))
  : option (sem tag * gset (tag * Z)) :=
  match c with
  | Acquire t blocking =>
      match acquire t blocking σ.1 with
      | (Returns k, s') => Some (s', {[ (t, k) ]} ∪ σ.2)
      | (_, s') => Some (s', σ.2)
      end
  | Release t n =>
      if decide ((t, n) ∈ σ.2)
      then Some ((release t n σ.1).2, σ.2 ∖ {[ (t, n) ]})
      else None
  end.

Fixpoint play (cs : list call) (σ : sem tag * gset (tag * Z))
  : option (sem tag * gset (tag * Z)) :=
  match cs with
  | [] => Some σ
  | c :: cs' =>
      match client_step c σ with
      | Some σ' => play cs' σ'
      | None => None
      end
  end.

(** What holds of the states of such a client. *)
Record paired s (held : gset (tag * Z)) : Prop := {
  paired_bounds : ∀ t, 0 <= lowest_of s t <= next_of s t;
  paired_sorted : ∀ t, StronglySorted (fun a b => b < a) (pending_of s t);
  paired_pending : ∀ t p, p ∈ pending_of s t →
                          lowest_of s t < p < next_of s t;
  paired_held : ∀ t n, (t, n) ∈ held ↔
                       lowest_of s t <= n < next_of s t ∧ n ∉ pending_of s t
}.

End SemaphoreStates.

(** [sem = SlidingWindowSemaphore(3)] after three [sem.acquire('a',
    blocking=False)]. *)
Definition three_acquired : sem string :=
  (run [Acquire "a" false; Acquire "a" false; Acquire "a" false]
     (__init__ 3)).2.

(** ... and then [sem.release('a', 1)] and [sem.release('a', 2)]. *)
Definition two_pending : sem string :=
  (run [Release "a" 1; Release "a" 2] three_acquired).2.

End SlidingWindowSemaphore.

(** ** Progress totals

    What a progress callback has been told in all: the sum of the
    [bytes_transferred] of the calls made to it (what
    [RecordingSubscriber.calculate_bytes_seen] of the tests adds up), and
    how many times a callback stands in a list of callbacks. *)
Module Progress.
Import Callbacks.
Section Progress.
Context {callback : Type} `{EqDecision callback}.

Definition reported (cb : callback) (calls : list (invocation callback))
  : Z :=
  foldr (fun i total =>
           if decide (callee i = cb) then bytes_transferred i + total
           else total) 0 calls.

Definition occurrences (cb : callback) (callbacks : list callback) : Z :=
  Z.of_nat (length (filter (fun x => x = cb) callbacks)).

End Progress.
End Progress.

(** ** [class StreamReaderProgress]

    The wrapped stream is a binary stream with [read]; the method hands
    its arguments on to it, and is called as [read()] or
    [read(amount)]. *)
Module StreamReaderProgress.
Import FileObj Callbacks.

Section Reader.
Context {callback : Type}.

(** The attributes, and [invoked]: every call made to a progress callback
    so far, oldest first. *)
Record reader := mk_reader {
  _stream : file;
  _callbacks : list callback;
  invoked : list (invocation callback)
}.

(** [StreamReaderProgress(stream, callbacks=None)] *)
Definition __init__ (stream : file) (callbacks : option (list callback))
  : reader :=
  {| _stream := stream; _callbacks := default [] callbacks; invoked := [] |}.

Definition set_stream (f : file) (r : reader) : reader :=
  {| _stream := f; _callbacks := _callbacks r; invoked := invoked r |}.

Definition call_all (calls : list (invocation callback)) (r : reader)
  : reader :=
  {| _stream := _stream r; _callbacks := _callbacks r;
     invoked := invoked r ++ calls |}.

Definition len (value : list byte) : Z := Z.of_nat (length value).

(** [read] of the wrapper, with the arguments of the call. *)
Definition read (amount : option Z) : M reader (list byte) :=
  value <- zoom _stream set_stream (FileObj.read amount) ;;
  callbacks <- gets _callbacks ;;
  modify (call_all (invoke_progress_callbacks callbacks (len value))) ;;
  ret value.

(** Reads one after the other: what each of them answers, and the reader
    after the last. *)
Fixpoint read_each (amounts : list (option Z)) (r : reader)
  : list (outcome (list byte)) * reader :=
  match amounts with
  | [] => ([], r)
  | amount :: rest =>
      let '(answer, r') := read amount r in
      let '(answers, r'') := read_each rest r' in
      (answer :: answers, r'')
  end.

(** The same reads on the stream itself. *)
Fixpoint read_each_stream (amounts : list (option Z)) (f : file)
  : list (outcome (list byte)) * file :=
  match amounts with
  | [] => ([], f)
  | amount :: rest =>
      let '(answer, f') := FileObj.read amount f in
      let '(answers, f'') := read_each_stream rest f' in
      (answer :: answers, f'')
  end.

End Reader.
Arguments reader callback : clear implicits.

(** The stream of the unit tests. *)
Definition foobarbaz : file :=
  {| content := String.list_byte_of_string "foobarbaz"; position := 0 |}.

End StreamReaderProgress.

(** ** [get_callbacks]

    A subscriber is an object of the caller; the code looks up one
    attribute of it by name.  [transfer_future.meta.call_args.subscribers]
    is [subscribers transfer_future], and
    [functools.partial(method, future=transfer_future)] is
    [Partial method transfer_future]. *)
Module Subscribers.
Section Subscribers.
Context {method future : Type}.

(** [getattr(subscriber, name)], [None] when [hasattr] is false. *)
Definition subscriber : Type := string -> option method.

Variable subscribers : future -> list subscriber.

Record partial := Partial { func : method; future_kw : future }.

Definition get_callbacks (transfer_future : future)
    (callback_type : string) : list partial :=
  foldl (fun callbacks (subscriber : subscriber) =>
           let callback_name := "on_" +:+ callback_type in
           match subscriber callback_name with
           | Some method => callbacks ++ [Partial method transfer_future]
           | None => callbacks
           end)
        [] (subscribers transfer_future).

End Subscribers.
Arguments partial method future : clear implicits.

(** [RecordingSubscriber] of the tests: it has [on_queued], [on_progress]
    and [on_done]; a method is named by the subscriber it is bound to
    and its name. *)
Definition RecordingSubscriber (name : string)
  : subscriber (method := string * string) :=
  fun attribute =>
    if bool_decide (attribute ∈ ["on_queued"; "on_progress"; "on_done"])
    then Some (name, attribute) else None.

End Subscribers.

(** ** [calculate_range_parameter]

    [str] of an integer and [%s] with an integer give its decimal
    digits, with a minus sign when it is negative. *)
Module RangeParameter.

Definition str (n : Z) : string := pretty n.

Definition calculate_range_parameter (part_size part_index num_parts : Z)
    (total_size : option Z) : string :=
  let start_range := part_index * part_size in
  let end_range :=
    if part_index =? num_parts - 1 then
      match total_size with
      | Some total_size => str (total_size - 1)
      | None => EmptyString
      end
    else str (start_range + part_size - 1) in
  "bytes=" +:+ str start_range +:+ "-" +:+ end_range.

End RangeParameter.

(** ** [class OSUtils]

    The file system is the state: the files by name.  [os.remove] and
    [os.path.getsize] of a file that is not there raise [OSError]; on
    this file system that is the one way in which they fail. *)
Module OSUtils.
Import FileObj.

Definition os_remove (filename : string) : M filesystem unit :=
  fun fs =>
    match fs filename with
    | Some _ =>
        (Returns tt,
         fun name => if String.eqb name filename then None else fs name)
    | None => (Raises (OSError ENOENT), fs)
    end.

Definition os_path_getsize (filename : string) : M filesystem Z :=
  fun fs =>
    match fs filename with
    | Some bytes => (Returns (Z.of_nat (length bytes)), fs)
    | None => (Raises (OSError ENOENT), fs)
    end.

(** [try: body except OSError: handler] *)
Definition try_except_OSError {St A} (body handler : M St A) : M St A :=
  fun s =>
    match body s with
    | (Raises (OSError _), s') => handler s'
    | answer => answer
    end.

(** [get_file_size(self, filename)] *)
Definition get_file_size (filename : string) : M filesystem Z :=
  os_path_getsize filename.

(** [remove_file(self, filename)] *)
Definition remove_file (filename : string) : M filesystem unit :=
  try_except_OSError (os_remove filename) pass.

Section Readers.
Context {callback : Type}.

(** [open_file_chunk_reader(self, filename, start_byte, size, callbacks)] *)
Definition open_file_chunk_reader (fs : filesystem) (filename : string)
    (start_byte size : Z) (callbacks : option (list callback))
  : outcome (ReadFileChunk.chunk callback) :=
  ReadFileChunk.from_filename fs filename start_byte size callbacks false.

(** [open_file_chunk_reader_from_fileobj(self, fileobj, chunk_size,
    full_file_size, callbacks)] *)
Definition open_file_chunk_reader_from_fileobj (fileobj : file)
    (chunk_size full_file_size : Z) (callbacks : option (list callback))
  : ReadFileChunk.chunk callback :=
  ReadFileChunk.__init__ fileobj chunk_size full_file_size callbacks false.

End Readers.
End OSUtils.

(** ** [disable_upload_callbacks], [enable_upload_callbacks]

    The body of a request is a [ReadFileChunk], the one class here with
    [enable_callback] and [disable_callback], or plain bytes, which have
    neither. *)
Module UploadCallbacks.
Import FileObj Callbacks ReadFileChunk.

Section Requests.
Context {callback : Type}.

Inductive request_body :=
| Chunk (c : chunk callback)
| Bytes (data : list byte).

Record request := mk_request { body : request_body }.

(** [hasattr(request.body, 'disable_callback')] and
    [hasattr(request.body, 'enable_callback')] *)
Definition hasattr_callback_switch (b : request_body) : bool :=
  match b with
  | Chunk _ => true
  | Bytes _ => false
  end.

(** A method call [request.body.m()] on a body that has the method. *)
Definition on_body (m : M (chunk callback) unit) : M request unit :=
  fun r =>
    match body r with
    | Chunk c => let '(answer, c') := m c in (answer, {| body := Chunk c' |})
    | Bytes _ => (Raises AttributeError, r)
    end.

Definition disable_upload_callbacks (operation_name : string)
  : M request unit :=
  b <- gets body ;;
  if bool_decide (operation_name ∈ ["PutObject"; "UploadPart"])
     && hasattr_callback_switch b
  then on_body disable_callback
  else pass.

Definition enable_upload_callbacks (operation_name : string)
  : M request unit :=
  b <- gets body ;;
  if bool_decide (operation_name ∈ ["PutObject"; "UploadPart"])
     && hasattr_callback_switch b
  then on_body enable_callback
  else pass.

(** What happens to a request while it is sent: the two handlers are
    called with the name of the operation, and the body is read and
    rewound. *)
Inductive event :=
| Enable (operation_name : string)
| Disable (operation_name : string)
| Body (o : call).

Definition handle (e : event) (r : request) : request :=
  match e with
  | Enable operation_name => (enable_upload_callbacks operation_name r).2
  | Disable operation_name => (disable_upload_callbacks operation_name r).2
  | Body o =>
      match body r with
      | Chunk c => {| body := Chunk (perform o c) |}
      | Bytes _ => r
      end
  end.

Definition send (es : list event) (r : request) : request :=
  foldl (fun r e => handle e r) r es.

(** The calls on the body among the events, in order. *)
Definition body_calls (es : list event) : list call :=
  omap (fun e => match e with Body o => Some o | _ => None end) es.

(** Two chunks that are the same stream: the same file at the same
    position, the same window and cursor and the same callbacks; the
    switch of the callbacks and the calls made so far may differ. *)
Definition same_stream (c1 c2 : chunk callback) : Prop :=
  _fileobj c1 = _fileobj c2
  ∧ _start_byte c1 = _start_byte c2
  ∧ _size c1 = _size c2
  ∧ _amount_read c1 = _amount_read c2
  ∧ _callbacks c1 = _callbacks c2.

(** An event that switches the callbacks of a chunk on. *)
Definition switches_on (e : event) : bool :=
  match e with
  | Enable operation_name =>
      bool_decide (operation_name ∈ ["PutObject"; "UploadPart"])
  | _ => false
  end.

End Requests.
Arguments request_body callback : clear implicits.
Arguments request callback : clear implicits.
End UploadCallbacks.

(** ** [DeferredOpenFile] against a file opened at once

    What each call answers, on the deferred file and on the file object
    it stands for.  [read] answers bytes, [tell] an offset and
    [__enter__] the object it was called on.  [seek] of the file answers
    the offset the file is then at; [seek] of the deferred file calls it
    and has no [return], so it answers [None]. *)
Module DeferredAnswers.
Import FileObj DeferredOpenFile.

Inductive value :=
| Data (data : list byte)
| Offset (n : Z)
| Itself
| Nothing.

Section Answers.
Variable fs : filesystem.

Definition answer (c : call) : M deferred value :=
  match c with
  | Read amount => data <- read fs amount ;; ret (Data data)
  | Seek where_ => seek fs where_ ;; ret Nothing
  | Tell => n <- tell ;; ret (Offset n)
  | Enter => __enter__ fs ;; ret Itself
  end.

Fixpoint transcript (cs : list call) (d : deferred)
  : list (outcome value) :=
  match cs with
  | [] => []
  | c :: rest =>
      let '(answer, d') := answer c d in answer :: transcript rest d'
  end.

End Answers.

(** The same calls on an open file. *)
Definition answer_file (c : call) : M file value :=
  match c with
  | Read amount => data <- FileObj.read amount ;; ret (Data data)
  | Seek where_ => FileObj.seek where_ ;; n <- FileObj.tell ;; ret (Offset n)
  | Tell => n <- FileObj.tell ;; ret (Offset n)
  | Enter => ret Itself
  end.

Fixpoint transcript_file (cs : list call) (f : file)
  : list (outcome value) :=
  match cs with
  | [] => []
  | c :: rest =>
      let '(answer, f') := answer_file c f in
      answer :: transcript_file rest f'
  end.

(** What the deferred file hands on of an answer of its file: all of
    it, but for the offset a [seek] returns, which [seek] of the
    deferred file drops. *)
Definition handed_on (c : call) (answer : outcome value) : outcome value :=
  match c, answer with
  | Seek _, Returns _ => Returns Nothing
  | _, _ => answer
  end.

(** A call that opens the file when it is not open. *)
Definition opens (c : call) : bool :=
  match c with
  | Tell => false
  | _ => true
  end.

(** The handle and the counter of a deferred file on the file
    [source]: no handle and no call of [OPEN_METHOD], or a handle on
    [source] and one call. *)
Definition opened_once (source : list byte) (d : deferred) : Prop :=
  match _fileobj d with
  | None => open_called_count d = 0%nat
  | Some f => open_called_count d = 1%nat ∧ content f = source
  end.

(** The deferred file [d] stands for the open file [f]: its handle is
    [f], or it has no handle yet and [f] is its file as [open] and
    [seek(start_byte)] give it. *)
Definition stands_for (fs : filesystem) (d : deferred) (f : file) : Prop :=
  match _fileobj d with
  | Some f' => f' = f
  | None => 0 <= _start_byte d
            ∧ fs (_filename d) = Some (content f)
            ∧ position f = _start_byte d
  end.

End DeferredAnswers.

(** * Part II: the properties *)

(** ** [DeferredOpenFile] *)
Module DeferredOpenFileProofs.
Import FileObj DeferredOpenFile.

Section Methods.
Variable fs : filesystem.

Lemma deferred_eta (d : deferred) :
  {| _filename := _filename d; _fileobj := _fileobj d;
     _start_byte := _start_byte d;
     open_called_count := open_called_count d |} = d.
Proof. by destruct d. Qed.

Lemma open_if_needed_eq (d : deferred) :
  _open_if_needed fs d =
    match _fileobj d with
    | Some _ => (Returns tt, d)
    | None =>
        match fs (_filename d) with
        | None =>
            (Raises (OSError ENOENT),
             {| _filename := _filename d; _fileobj := None;
                _start_byte := _start_byte d;
                open_called_count := S (open_called_count d) |})
        | Some source =>
            (if _start_byte d <? 0 then Raises (OSError EINVAL)
             else Returns tt, opened source d)
        end
    end.
Proof.
  destruct d as [name [f|] st n]; [done|].
  unfold _open_if_needed, OPEN_METHOD, FileObj.open, opened, on_fileobj,
    FileObj.seek.
  cbv beta iota zeta delta
    [bind ret raise gets modify pass _fileobj _filename _start_byte
     open_called_count set_fileobj].
  destruct (fs name) as [source|]; cbv beta iota zeta; [|done].
  cbv beta iota zeta delta
    [bind ret raise gets modify pass _fileobj _filename _start_byte
     open_called_count set_fileobj].
  by destruct (st <? 0).
Qed.

Lemma on_fileobj_present {A} (m : M file A) (d : deferred) f :
  _fileobj d = Some f →
  on_fileobj m d = ((m f).1, set_fileobj (Some (m f).2) d).
Proof. intros Hf. unfold on_fileobj. rewrite Hf. by destruct (m f). Qed.

Lemma start_byte_perform c d : _start_byte (perform fs c d) = _start_byte d.
Proof.
  assert (∀ {A} (m : M file A) d', _start_byte (on_fileobj m d').2
                                   = _start_byte d') as Hon.
  { intros A m d'. unfold on_fileobj.
    destruct (_fileobj d'); [|done]. by destruct (m f). }
  assert (_start_byte (_open_if_needed fs d).2 = _start_byte d) as Hopen.
  { rewrite open_if_needed_eq. destruct (_fileobj d); [done|].
    by destruct (fs (_filename d)). }
  destruct c as [amount|where_| |]; simpl.
  - unfold read, bind. destruct (_open_if_needed fs d) as [[[]|e|] d1];
      simpl in *; [|done..]. by rewrite Hon.
  - unfold seek, bind. destruct (_open_if_needed fs d) as [[[]|e|] d1];
      simpl in *; [|done..]. by rewrite Hon.
  - unfold tell, bind, gets. destruct (_fileobj d) eqn:Hf; [|done].
    by rewrite Hon.
  - done.
Qed.

Lemma start_byte_run cs : ∀ d, _start_byte (run fs cs d) = _start_byte d.
Proof.
  induction cs as [|c cs IH]; intros d; [done|].
  simpl. fold (run fs cs (perform fs c d)). by rewrite IH, start_byte_perform.
Qed.

Lemma at_or_beyond_opened source d :
  at_or_beyond_start (opened source d).
Proof.
  intros f [= <-]. simpl. destruct (_start_byte d <? 0) eqn:Hneg.
  - apply Z.ltb_lt in Hneg. lia.
  - apply Z.ltb_ge in Hneg. lia.
Qed.

Lemma at_or_beyond_open_if_needed d :
  at_or_beyond_start d → at_or_beyond_start (_open_if_needed fs d).2.
Proof.
  intros Hd. rewrite open_if_needed_eq.
  destruct (_fileobj d) as [f|] eqn:Hf; [done|].
  destruct (fs (_filename d)) as [source|]; simpl.
  - apply at_or_beyond_opened.
  - by intros f.
Qed.

Lemma at_or_beyond_read amount d :
  at_or_beyond_start d →
  at_or_beyond_start (on_fileobj (FileObj.read amount) d).2.
Proof.
  intros Hd. destruct (_fileobj d) as [f|] eqn:Hf.
  - rewrite (on_fileobj_present _ _ _ Hf). intros f' [= <-].
    destruct (Hd _ Hf). simpl in *. lia.
  - unfold on_fileobj. by rewrite Hf.
Qed.

Lemma at_or_beyond_seek where_ d :
  _start_byte d <= where_ →
  at_or_beyond_start d →
  at_or_beyond_start (on_fileobj (FileObj.seek where_) d).2.
Proof.
  intros Hw Hd. destruct (_fileobj d) as [f|] eqn:Hf.
  - rewrite (on_fileobj_present _ _ _ Hf). intros f' [= <-].
    destruct (Hd _ Hf). unfold FileObj.seek.
    destruct (where_ <? 0) eqn:Hneg; simpl in *; [lia|].
    apply Z.ltb_ge in Hneg. lia.
  - unfold on_fileobj. by rewrite Hf.
Qed.

Lemma at_or_beyond_perform c d :
  forward (_start_byte d) c →
  at_or_beyond_start d → at_or_beyond_start (perform fs c d).
Proof.
  intros Hc Hd.
  pose proof (at_or_beyond_open_if_needed d Hd) as Hopen.
  assert (_start_byte (_open_if_needed fs d).2 = _start_byte d) as Hst
    by apply (start_byte_perform Enter d).
  destruct c as [amount|where_| |]; simpl in *.
  - unfold read, bind. destruct (_open_if_needed fs d) as [[[]|e|] d1];
      simpl in *; [|done..]. by apply at_or_beyond_read.
  - unfold seek, bind. destruct (_open_if_needed fs d) as [[[]|e|] d1];
      simpl in *; [|done..]. apply at_or_beyond_seek; [lia|done].
  - unfold tell, bind, gets. destruct (_fileobj d) as [f|] eqn:Hf; [|done].
    rewrite (on_fileobj_present _ _ _ Hf). simpl.
    intros f' [= <-]. by apply Hd.
  - done.
Qed.

Lemma at_or_beyond_run cs : ∀ d,
  Forall (forward (_start_byte d)) cs →
  at_or_beyond_start d → at_or_beyond_start (run fs cs d).
Proof.
  induction cs as [|c cs IH]; intros d Hcs Hd; [done|].
  apply Forall_cons in Hcs as [Hc Hcs].
  simpl. fold (run fs cs (perform fs c d)). apply IH.
  - by rewrite start_byte_perform.
  - by apply at_or_beyond_perform.
Qed.

(** C8, as the code has it: after any sequence of calls on a deferred
    file created with [start_byte], while the handle is absent [tell]
    returns [start_byte] and changes nothing (no [OPEN_METHOD] call, the
    handle still absent); [read], [seek] and [__enter__] on an absent
    handle of a file that exists first open it and put it at
    [start_byte]; and, as long as no [seek] went below [start_byte], a
    handle that is present is at [start_byte] or beyond. *)
Theorem deferred_handle_position filename start_byte cs :
  (_fileobj (run fs cs (__init__ filename start_byte)) = None →
     tell (run fs cs (__init__ filename start_byte))
     = (Returns start_byte, run fs cs (__init__ filename start_byte)))
  ∧ (∀ source amount where_,
       _fileobj (run fs cs (__init__ filename start_byte)) = None →
       fs (_filename (run fs cs (__init__ filename start_byte))) = Some source →
       0 <= start_byte →
       ∃ d', _open_if_needed fs (run fs cs (__init__ filename start_byte))
             = (Returns tt, d')
           ∧ _fileobj d' = Some {| content := source;
                                   position := start_byte |}
           ∧ open_called_count d'
             = S (open_called_count (run fs cs (__init__ filename start_byte)))
           ∧ read fs amount (run fs cs (__init__ filename start_byte))
             = on_fileobj (FileObj.read amount) d'
           ∧ seek fs where_ (run fs cs (__init__ filename start_byte))
             = on_fileobj (FileObj.seek where_) d'
           ∧ __enter__ fs (run fs cs (__init__ filename start_byte))
             = (Returns tt, d'))
  ∧ (Forall (forward start_byte) cs →
     ∀ f, _fileobj (run fs cs (__init__ filename start_byte)) = Some f →
          start_byte <= position f).
Proof.
  set (d := run fs cs (__init__ filename start_byte)).
  assert (_start_byte d = start_byte) as Hst
    by (unfold d; by rewrite start_byte_run).
  split_and!.
  - intros Habs. unfold tell, bind, gets, ret. rewrite Habs, Hst.
    done.
  - intros source amount where_ Habs Hfs Hnn.
    assert (_open_if_needed fs d = (Returns tt, opened source d)) as Hopen.
    { rewrite open_if_needed_eq, Habs, Hfs, Hst.
      assert ((start_byte <? 0) = false) as -> by (apply Z.ltb_ge; lia).
      done. }
    exists (opened source d). split_and!.
    + done.
    + unfold opened; simpl. rewrite Hst.
      assert ((start_byte <? 0) = false) as -> by (apply Z.ltb_ge; lia).
      done.
    + done.
    + unfold read, bind. by rewrite Hopen.
    + unfold seek, bind. by rewrite Hopen.
    + done.
  - intros Hcs f Hf.
    assert (at_or_beyond_start d) as Hd.
    { apply at_or_beyond_run; [done|]. by intros f'. }
    rewrite <- Hst. by apply Hd.
Qed.

End Methods.

(** *** The unit tests and the claims on a concrete file *)

(** [test_tell] *)
Example test_tell :
  open_called_count (tell (__init__ "foo" 0)).2 = 0%nat
  ∧ (tell (seek my_contents 2 (__init__ "foo" 0)).2).1 = Returns 2
  ∧ open_called_count (seek my_contents 2 (__init__ "foo" 0)).2 = 1%nat.
Proof. by vm_compute. Qed.

(** C8 fails on the code: [seek] passes its offset to the file as it is,
    so on a file created with start byte 5 a [seek(2)] opens the file,
    puts it at 5 and then at 2, which is before the start byte. *)
Lemma seek_before_start_byte :
  ∃ d' f, seek my_contents 2 (__init__ "foo" 5) = (Returns tt, d')
          ∧ _fileobj d' = Some f
          ∧ position f = 2
          ∧ position f < _start_byte d'.
Proof.
  eexists _, _. split_and!; [by vm_compute|done|done|done].
Qed.

Lemma deferred_handle_position_witness :
  tell (__init__ "foo" 5) = (Returns 5, __init__ "foo" 5)
  ∧ ∀ f, _fileobj (run my_contents [Read (Some 2); Seek 7; Tell]
                     (__init__ "foo" 5)) = Some f →
         5 <= position f.
Proof.
  split.
  - apply (proj1 (deferred_handle_position my_contents "foo" 5 [])).
    done.
  - apply (proj2 (proj2 (deferred_handle_position my_contents "foo" 5
                           [Read (Some 2); Seek 7; Tell]))).
    repeat constructor. simpl. lia.
Defined.

End DeferredOpenFileProofs.

(** ** [ReadFileChunk] and [invoke_progress_callbacks] *)
Module ReadFileChunkProofs.
Import FileObj Callbacks ReadFileChunk.

Section ChunkCalls.
Context {callback : Type}.
Implicit Types (c : chunk callback) (amount : option Z) (f : file).
Implicit Types (source data : list byte).

Lemma for_each_map (callbacks : list callback) bytes :
  for_each callbacks bytes = map (fun cb => Called cb bytes) callbacks.
Proof. induction callbacks as [|cb r IH]; simpl; [done|]. by rewrite IH. Qed.

Lemma length_bytes_at n f :
  0 <= n → len (bytes_at (Some n) f) <= n.
Proof.
  intros Hn. unfold bytes_at, len.
  assert ((n <? 0) = false) as -> by (apply Z.ltb_ge; lia).
  rewrite length_take. lia.
Qed.

Lemma read_eq amount c :
  read amount c = (Returns (data_read amount c), after_read amount c).
Proof.
  destruct c as [f st sz ar cbs en inv].
  unfold read, after_read, data_read, amount_to_read, on_fileobj.
  cbv beta iota zeta delta
    [bind ret gets modify pass zoom FileObj.read id set_fileobj
     set_amount_read call_all _fileobj _start_byte _size _amount_read
     _callbacks _callbacks_enabled invoked].
  destruct en; [done|]. by rewrite app_nil_r.
Qed.

Lemma seek_eq where_ c :
  seek where_ c =
    if _start_byte c + where_ <? 0 then (Raises (OSError EINVAL), c)
    else (Returns tt, after_seek where_ c).
Proof.
  destruct c as [[src pos] st sz ar cbs en inv].
  unfold seek, after_seek, on_fileobj, FileObj.seek.
  cbv beta iota zeta delta
    [bind ret gets modify pass zoom raise set_fileobj
     set_amount_read call_all _fileobj _start_byte _size _amount_read
     _callbacks _callbacks_enabled invoked content position].
  destruct (st + where_ <? 0); cbv beta iota zeta; [done|].
  destruct en; [done|]. by rewrite app_nil_r.
Qed.

Lemma perform_read amount c : perform (Read amount) c = after_read amount c.
Proof. unfold perform. by rewrite read_eq. Qed.

Lemma perform_seek where_ c :
  0 <= _start_byte c + where_ →
  perform (Seek where_) c = after_seek where_ c.
Proof.
  intros Hst. unfold perform. rewrite seek_eq.
  assert ((_start_byte c + where_ <? 0) = false) as ->
    by (apply Z.ltb_ge; lia).
  done.
Qed.

Lemma invoked_after_read amount c n :
  _callbacks_enabled c = true → len (data_read amount c) = n → n ≠ 0 →
  invoked (after_read amount c) =
    invoked c ++ map (fun cb => Called cb n) (_callbacks c).
Proof.
  intros Hen Hn Hnz. unfold after_read; simpl. rewrite Hen, Hn.
  unfold invoke_progress_callbacks.
  assert ((n =? 0) = false) as -> by (by apply Z.eqb_neq).
  by rewrite for_each_map.
Qed.

Lemma invoked_after_seek where_ c d :
  _callbacks_enabled c = true → where_ - _amount_read c = d → d ≠ 0 →
  invoked (after_seek where_ c) =
    invoked c ++ map (fun cb => Called cb d) (_callbacks c).
Proof.
  intros Hen Hd Hnz. unfold after_seek; simpl. rewrite Hen, Hd.
  unfold invoke_progress_callbacks.
  assert ((d =? 0) = false) as -> by (by apply Z.eqb_neq).
  by rewrite for_each_map.
Qed.

Lemma size_perform o c : _size (perform o c) = _size c.
Proof.
  destruct o as [amount|where_]; simpl.
  - by rewrite read_eq.
  - rewrite seek_eq. by destruct (_ <? 0).
Qed.

Lemma size_run os : ∀ c, _size (run os c) = _size c.
Proof.
  induction os as [|o os IH]; intros c; [done|].
  simpl. fold (run os (perform o c)). by rewrite IH, size_perform.
Qed.

Lemma window_start_run os : ∀ c, _start_byte (run os c) = _start_byte c.
Proof.
  induction os as [|o os IH]; intros c; [done|].
  simpl. fold (run os (perform o c)). rewrite IH.
  destruct o as [amount|where_]; simpl; [by rewrite read_eq|].
  rewrite seek_eq. by destruct (_ <? 0).
Qed.

Lemma amount_to_read_nonneg amount c :
  byte_count amount → _amount_read c <= _size c →
  0 <= amount_to_read amount c <= _size c - _amount_read c.
Proof. destruct amount as [n|]; simpl; lia. Qed.

(** The cursor of a chunk stays in the window under calls that stay in
    the window, whatever the file underneath. *)
Lemma cursor_perform o c :
  in_window (_size c) o →
  0 <= _amount_read c <= _size c →
  0 <= _amount_read (perform o c) <= _size c.
Proof.
  intros Ho Hc. destruct o as [amount|where_]; simpl in *.
  - rewrite read_eq. simpl.
    pose proof (amount_to_read_nonneg amount c Ho ltac:(lia)) as Hn.
    pose proof (length_bytes_at _ (_fileobj c) (proj1 Hn)) as Hlen.
    fold (data_read amount c) in Hlen. unfold len in *. lia.
  - rewrite seek_eq. destruct (_ <? 0); simpl; lia.
Qed.

Lemma cursor_run os : ∀ c,
  Forall (in_window (_size c)) os →
  0 <= _amount_read c <= _size c →
  0 <= _amount_read (run os c) <= _size c.
Proof.
  induction os as [|o os IH]; intros c Hos Hc; [done|].
  apply Forall_cons in Hos as [Ho Hos].
  simpl. fold (run os (perform o c)).
  rewrite <- (size_perform o c). apply IH.
  - by rewrite size_perform.
  - rewrite size_perform. by apply cursor_perform.
Qed.

(** A read of a byte count on a window returns the bytes of the source
    under the cursor, as many as asked for or as are left in the
    window. *)
Lemma window_read source amount c :
  window_ok source c → byte_count amount →
  data_read amount c =
    slice source (_start_byte c + _amount_read c) (amount_to_read amount c)
  ∧ len (data_read amount c) = amount_to_read amount c.
Proof.
  intros [Hsrc Hpos Hst Hcur Hsz] Ham.
  pose proof (amount_to_read_nonneg amount c Ham ltac:(lia)) as Hn.
  unfold data_read, bytes_at, slice, len in *.
  assert ((amount_to_read amount c <? 0) = false) as ->
    by (apply Z.ltb_ge; lia).
  rewrite Hsrc, Hpos. split; [done|].
  rewrite length_take, length_drop. lia.
Qed.

Lemma window_ok_perform source o c :
  window_ok source c → in_window (_size c) o →
  window_ok source (perform o c).
Proof.
  intros Hok Ho. destruct o as [amount|where_]; simpl in *.
  - destruct (window_read source amount c Hok Ho) as [_ Hlen].
    pose proof (amount_to_read_nonneg amount c Ho
                  ltac:(destruct Hok; lia)) as Hn.
    destruct Hok as [Hsrc Hpos Hst Hcur Hsz].
    rewrite read_eq. split; simpl; [done|lia|done|lia|done].
  - destruct Hok as [Hsrc Hpos Hst Hcur Hsz]. rewrite seek_eq.
    assert ((_start_byte c + where_ <? 0) = false) as ->
      by (apply Z.ltb_ge; lia).
    split; simpl; [done|done|done|lia|done].
Qed.

Lemma window_ok_run source os : ∀ c,
  window_ok source c → Forall (in_window (_size c)) os →
  window_ok source (run os c).
Proof.
  induction os as [|o os IH]; intros c Hok Hos; [done|].
  apply Forall_cons in Hos as [Ho Hos].
  simpl. fold (run os (perform o c)). apply IH.
  - by apply window_ok_perform.
  - by rewrite size_perform.
Qed.

Lemma window_ok_init f chunk_size
    (callbacks : option (list callback)) enable_callbacks :
  0 <= position f <= st_size f → 0 <= chunk_size →
  window_ok (content f)
    (__init__ f chunk_size (st_size f) callbacks enable_callbacks).
Proof.
  intros Hpos Hsz. unfold __init__, _calculate_file_size, st_size in *.
  split; simpl; unfold len; [done|lia..].
Qed.

End ChunkCalls.

(** *** The properties of the chunk reader *)
Section ChunkProperties.
Context {callback : Type}.
Implicit Types (c : chunk callback) (amount : option Z) (f : file).
Implicit Types (callbacks : list callback).

Lemma from_filename_eq (fs : filesystem) filename source start_byte
    chunk_size (callbacks : option (list callback)) enable_callbacks :
  fs filename = Some source → 0 <= start_byte →
  from_filename fs filename start_byte chunk_size callbacks enable_callbacks
  = Returns (__init__ {| content := source; position := start_byte |}
               chunk_size (len source) callbacks enable_callbacks).
Proof.
  intros Hfs Hst. unfold from_filename, FileObj.open, FileObj.seek.
  rewrite Hfs.
  assert ((start_byte <? 0) = false) as -> by (apply Z.ltb_ge; lia).
  done.
Qed.

Lemma read_exhausted amount c :
  byte_count amount → _amount_read c = _size c →
  read amount c = (Returns [], c).
Proof.
  intros Ham Hex. rewrite read_eq.
  pose proof (amount_to_read_nonneg amount c Ham ltac:(lia)) as Hn.
  pose proof (length_bytes_at _ (_fileobj c) (proj1 Hn)) as Hlen.
  fold (data_read amount c) in Hlen.
  assert (data_read amount c = []) as Hdata.
  { apply length_zero_iff_nil. unfold len in Hlen. lia. }
  unfold after_read. rewrite Hdata. simpl.
  destruct c as [[src pos] st sz ar cbs en inv]; simpl.
  rewrite !Z.add_0_r. unfold invoke_progress_callbacks. simpl.
  f_equal. f_equal. destruct en; by rewrite app_nil_r.
Qed.

(** C4, as the code has it: the cursor of a chunk whose window is not
    negative stays between [0] and the window size under any sequence of
    reads of a byte count and of seeks to offsets of the window, at every
    point of the sequence; the window size itself never changes. *)
Theorem cursor_stays_in_window f chunk_size full_file_size
    (callbacks : option (list callback)) enable_callbacks os k :
  position f <= full_file_size → 0 <= chunk_size →
  Forall (in_window (Z.min (full_file_size - position f) chunk_size)) os →
  0 <= tell (run (take k os)
               (__init__ f chunk_size full_file_size callbacks
                  enable_callbacks))
    <= Z.min (full_file_size - position f) chunk_size
  ∧ __len__ (run (take k os)
               (__init__ f chunk_size full_file_size callbacks
                  enable_callbacks))
    = Z.min (full_file_size - position f) chunk_size.
Proof.
  intros Hpos Hsz Hos.
  set (c0 := __init__ f chunk_size full_file_size callbacks
               enable_callbacks).
  assert (_size c0 = Z.min (full_file_size - position f) chunk_size)
    as Hsize by done.
  unfold tell, __len__. rewrite size_run, Hsize. split; [|done].
  rewrite <- Hsize. apply cursor_run.
  - rewrite Hsize. by apply Forall_take.
  - rewrite Hsize. simpl. lia.
Qed.

(** C5, as the code has it: with callbacks enabled, a seek that the file
    accepts calls every callback, in order, with [where - cursor] when
    that is not zero and calls none when it is zero, and then the cursor
    is [where]; and on a chunk of requested size at least 2 that starts
    at offset 0 of a source of at least two bytes, reading 2 bytes,
    seeking to 0 and reading 2 bytes calls the callback with 2, -2 and
    2. *)
Theorem seek_reports_signed_delta :
  (∀ c where_,
     _callbacks_enabled c = true → 0 <= _start_byte c + where_ →
     ∃ c', seek where_ c = (Returns tt, c')
           ∧ tell c' = where_
           ∧ position (_fileobj c') = _start_byte c + where_
           ∧ invoked c' =
               invoked c ++
               (if decide (where_ = tell c) then []
                else map (fun cb => Called cb (where_ - tell c))
                       (_callbacks c)))
  ∧ (∀ f chunk_size (cb : callback),
       position f = 0 → 2 <= st_size f → 2 <= chunk_size →
       invoked (run [Read (Some 2); Seek 0; Read (Some 2)]
                  (__init__ f chunk_size (st_size f) (Some [cb]) true))
       = [Called cb 2; Called cb (-2); Called cb 2]).
Proof.
  split.
  - intros c where_ Hen Hst. exists (after_seek where_ c).
    rewrite seek_eq.
    assert ((_start_byte c + where_ <? 0) = false) as ->
      by (apply Z.ltb_ge; lia).
    split_and!; [done..|].
    unfold after_seek, tell; simpl. rewrite Hen. f_equal.
    unfold invoke_progress_callbacks.
    destruct (decide (where_ = _amount_read c)) as [->|Hne].
    + by rewrite Z.sub_diag.
    + assert ((where_ - _amount_read c =? 0) = false) as ->
        by (apply Z.eqb_neq; lia).
      apply for_each_map.
  - intros f chunk_size cb Hpos Hlen Hsz.
    set (c0 := __init__ f chunk_size (st_size f) (Some [cb]) true).
    assert (window_ok (content f) c0) as Hok0
      by (apply window_ok_init; lia).
    assert (2 <= _size c0) as Hsize
      by (simpl; unfold _calculate_file_size; lia).
    destruct (window_read _ (Some 2) c0 Hok0 ltac:(simpl; lia))
      as [_ Hlen1].
    assert (len (data_read (Some 2) c0) = 2) as Hd1.
    { rewrite Hlen1. simpl. unfold _calculate_file_size. lia. }
    set (c1 := after_read (Some 2) c0).
    assert (window_ok (content f) c1) as Hok1.
    { subst c1. rewrite <- perform_read.
      apply window_ok_perform; [done|simpl; lia]. }
    set (c2 := after_seek 0 c1).
    assert (window_ok (content f) c2) as Hok2.
    { subst c2. rewrite <- perform_seek by (simpl; lia).
      apply window_ok_perform; [done|].
      change (0 <= 0 <= _size c0). lia. }
    destruct (window_read _ (Some 2) c2 Hok2 ltac:(simpl; lia))
      as [_ Hlen3].
    assert (len (data_read (Some 2) c2) = 2) as Hd3.
    { rewrite Hlen3. simpl. unfold _calculate_file_size. lia. }
    unfold run. cbn [foldl].
    rewrite perform_read. fold c1.
    rewrite perform_seek by (simpl; lia). fold c2.
    rewrite perform_read.
    rewrite (invoked_after_read _ c2 2) by done.
    unfold c2. rewrite (invoked_after_seek 0 c1 (-2));
      [|done| |done].
    2:{ change (_amount_read c1) with (0 + len (data_read (Some 2) c0)).
        by rewrite Hd1. }
    unfold c1. rewrite (invoked_after_read _ c0 2) by done.
    done.
Qed.

(** The window of a chunk, for amounts that are byte counts.  A chunk
    built on a file at position [S] with requested size [R] and total
    size [T] has window size [min(R, T - S)], and [__len__]
    returns it, at any time; when the file is inside its source ([T] its
    true size, [0 <= S <= T]) and [R] is not negative, then after any
    sequence of calls that stay in the window a read of a byte count
    returns exactly the bytes of the source under the cursor, all that
    are left in the window when the amount is omitted and
    [min(amount, left)] of them otherwise, and moves the cursor by that
    many; and once the cursor is at the end of the window such a read
    returns the empty byte string and changes nothing, so that every
    later read of a byte count does the same. *)
Theorem chunk_window :
  (∀ f chunk_size full_file_size (callbacks : option (list callback))
     enable_callbacks os,
     __len__ (run os (__init__ f chunk_size full_file_size callbacks
                        enable_callbacks))
     = Z.min chunk_size (full_file_size - position f))
  ∧ (∀ f chunk_size (callbacks : option (list callback)) enable_callbacks
       os amount,
       0 <= position f <= st_size f → 0 <= chunk_size →
       Forall (in_window (Z.min chunk_size (st_size f - position f))) os →
       byte_count amount →
       ∃ c data c',
         c = run os (__init__ f chunk_size (st_size f) callbacks
                       enable_callbacks)
         ∧ read amount c = (Returns data, c')
         ∧ len data = match amount with
                      | None => __len__ c - tell c
                      | Some n => Z.min n (__len__ c - tell c)
                      end
         ∧ data = slice (content f) (position f + tell c) (len data)
         ∧ tell c' = tell c + len data
         ∧ (tell c = __len__ c → data = [] ∧ c' = c)).
Proof.
  split.
  { intros f chunk_size full_file_size callbacks enable_callbacks os.
    unfold __len__. rewrite size_run. simpl.
    unfold _calculate_file_size. lia. }
  intros f chunk_size callbacks enable_callbacks os amount
    Hpos Hsz Hos Ham.
  set (c0 := __init__ f chunk_size (st_size f) callbacks enable_callbacks).
  assert (_size c0 = Z.min chunk_size (st_size f - position f)) as Hsize
    by (simpl; unfold _calculate_file_size; lia).
  assert (window_ok (content f) (run os c0)) as Hok.
  { apply window_ok_run; [by apply window_ok_init|by rewrite Hsize]. }
  set (c := run os c0) in *.
  assert (_start_byte c = position f) as Hst
    by (subst c; by rewrite window_start_run).
  destruct (window_read _ amount c Hok Ham) as [Hdata Hlen].
  exists c, (data_read amount c), (after_read amount c).
  unfold __len__, tell. split_and!.
  - done.
  - apply read_eq.
  - rewrite Hlen. destruct amount as [n|]; simpl; lia.
  - by rewrite Hlen, <- Hst.
  - done.
  - intros Hex.
    pose proof (read_exhausted amount c Ham Hex) as Hread.
    rewrite read_eq in Hread. by injection Hread as -> ->.
Qed.

(** C9: [invoke_progress_callbacks] calls every callback, in order, with
    the delta when the delta is not zero, negative or not, and calls
    none when it is zero (so for a non-empty list it calls every
    callback with the delta exactly when the delta is not zero); hence a
    read that returns no byte makes no call, and a read that returns
    [n > 0] bytes with callbacks enabled calls every callback with
    [n]. *)
Theorem callbacks_fire_unless_zero callbacks (bytes : Z) c amount :
  (bytes ≠ 0 →
     invoke_progress_callbacks callbacks bytes
     = map (fun cb => Called cb bytes) callbacks)
  ∧ invoke_progress_callbacks callbacks 0 = []
  ∧ (callbacks ≠ [] →
       (invoke_progress_callbacks callbacks bytes
        = map (fun cb => Called cb bytes) callbacks ↔ bytes ≠ 0))
  ∧ ∃ data c',
      read amount c = (Returns data, c')
      ∧ (len data = 0 → invoked c' = invoked c)
      ∧ (_callbacks_enabled c = true → 0 < len data →
           invoked c' =
             invoked c ++ map (fun cb => Called cb (len data))
                            (_callbacks c))
      ∧ (_callbacks_enabled c = false → invoked c' = invoked c).
Proof.
  assert (∀ b, b ≠ 0 →
            invoke_progress_callbacks callbacks b
            = map (fun cb => Called cb b) callbacks) as Hnz.
  { intros b Hb. unfold invoke_progress_callbacks.
    assert ((b =? 0) = false) as -> by (by apply Z.eqb_neq).
    apply for_each_map. }
  split_and!.
  - apply Hnz.
  - done.
  - intros Hne. split; [|apply Hnz].
    intros Heq ->. unfold invoke_progress_callbacks in Heq. simpl in Heq.
    destruct callbacks; [done|discriminate].
  - exists (data_read amount c), (after_read amount c).
    split; [apply read_eq|]. unfold after_read; simpl. split_and!.
    + intros ->. unfold invoke_progress_callbacks. simpl.
      destruct (_callbacks_enabled c); by rewrite app_nil_r.
    + intros -> Hpos. f_equal. unfold invoke_progress_callbacks.
      assert ((len (data_read amount c) =? 0) = false) as ->
        by (apply Z.eqb_neq; lia).
      apply for_each_map.
    + intros ->. by rewrite app_nil_r.
Qed.

End ChunkProperties.

(** *** The unit tests and the claims on concrete chunks *)

(** [test_read_past_end_of_file] *)
Example test_read_past_end_of_file :
  let c := chunk_of "numbers" 36 100000 in
  (read None c).1 = Returns (String.list_byte_of_string "ten")
  ∧ (read None (read None c).2).1 = Returns []
  ∧ __len__ c = 3.
Proof. by vm_compute. Qed.

(** [test_callback_will_also_be_triggered_by_seek] *)
Example test_callback_will_also_be_triggered_by_seek :
  invoked (run [Read (Some 2); Seek 0; Read (Some 2); Seek 1; Read (Some 2)]
             (chunk_of "foo" 0 3))
  = [Called "callback" 2; Called "callback" (-2); Called "callback" 2;
     Called "callback" (-1); Called "callback" 2].
Proof. by vm_compute. Qed.

(** C4 fails on the code: [seek] stores the offset it is given, so a
    seek to offset 5 of a window of 3 bytes leaves the cursor at 5. *)
Lemma seek_past_window_leaves_cursor_outside :
  __len__ (chunk_of "numbers" 0 3) = 3
  ∧ (seek 5 (chunk_of "numbers" 0 3)).1 = Returns tt
  ∧ tell (seek 5 (chunk_of "numbers" 0 3)).2 = 5
  ∧ ¬ (0 <= tell (seek 5 (chunk_of "numbers" 0 3)).2
         <= __len__ (seek 5 (chunk_of "numbers" 0 3)).2).
Proof.
  assert (seek 5 (chunk_of "numbers" 0 3)
          = (Returns tt, after_seek 5 (chunk_of "numbers" 0 3))) as ->
    by (by rewrite seek_eq).
  cbn [fst snd].
  assert (__len__ (after_seek 5 (chunk_of "numbers" 0 3)) = 3) as ->
    by (by vm_compute).
  assert (tell (after_seek 5 (chunk_of "numbers" 0 3)) = 5) as ->
    by (by vm_compute).
  split_and!; [by vm_compute|done|done|lia].
Qed.

Lemma cursor_stays_in_window_witness :
  0 <= tell (run (take 2 [Read (Some 2); Seek 3; Read None; Seek 1])
               (__init__ {| content := numbers; position := 11 |} 4 39
                  (Some ["callback"]) true)) <= 4
  ∧ __len__ (run (take 2 [Read (Some 2); Seek 3; Read None; Seek 1])
               (__init__ {| content := numbers; position := 11 |} 4 39
                  (Some ["callback"]) true)) = 4.
Proof.
  apply (cursor_stays_in_window {| content := numbers; position := 11 |}
           4 39 (Some ["callback"]) true
           [Read (Some 2); Seek 3; Read None; Seek 1] 2).
  - simpl. lia.
  - lia.
  - repeat constructor; simpl; lia.
Defined.

(** C5 fails on the code: a seek to the offset the cursor is at has
    delta zero, and [invoke_progress_callbacks] calls nobody then. *)
Lemma seek_to_cursor_calls_nobody :
  _callbacks_enabled (chunk_of "foo" 0 3) = true
  ∧ _callbacks (chunk_of "foo" 0 3) = ["callback"]
  ∧ (seek 0 (chunk_of "foo" 0 3)).1 = Returns tt
  ∧ invoked (seek 0 (chunk_of "foo" 0 3)).2 = []
  ∧ invoked (seek 0 (chunk_of "foo" 0 3)).2
    ≠ invoked (chunk_of "foo" 0 3)
      ++ map (fun cb => Called cb (0 - tell (chunk_of "foo" 0 3)))
           (_callbacks (chunk_of "foo" 0 3)).
Proof.
  assert (seek 0 (chunk_of "foo" 0 3)
          = (Returns tt, after_seek 0 (chunk_of "foo" 0 3))) as ->
    by (by rewrite seek_eq).
  split_and!; [done..|]. by vm_compute.
Qed.

Lemma seek_reports_signed_delta_witness :
  ∃ c', seek 0 (read (Some 2) (chunk_of "foo" 0 3)).2 = (Returns tt, c')
        ∧ tell c' = 0
        ∧ invoked c' = [Called "callback" 2; Called "callback" (-2)].
Proof.
  destruct (proj1 (seek_reports_signed_delta (callback := string))
              (read (Some 2) (chunk_of "foo" 0 3)).2 0)
    as (c' & Hseek & Htell & _ & Hinv).
  - by vm_compute.
  - by vm_compute.
  - exists c'. split_and!; [done..|]. rewrite Hinv. by vm_compute.
Defined.

Lemma chunk_window_witness :
  __len__ (chunk_of "forty" 36 100000) = 4
  ∧ ∃ data c',
      read None (chunk_of "forty" 36 100000) = (Returns data, c')
      ∧ data = String.list_byte_of_string "6789"
      ∧ (read None c').1 = Returns [].
Proof.
  destruct (chunk_window (callback := string)) as [Hsize Hread].
  split.
  - pose proof (Hsize {| content := forty; position := 36 |} 100000
                  (st_size {| content := forty; position := 36 |})
                  (Some ["callback"]) true []) as Hlen.
    change (__len__ (chunk_of "forty" 36 100000)
            = Z.min 100000 (Z.of_nat (length forty) - 36)) in Hlen.
    rewrite Hlen. by vm_compute.
  - destruct (Hread {| content := forty; position := 36 |} 100000
                (Some ["callback"]) true [] None)
      as (c & data & c' & -> & Hrd & Hlen & Hdata & Htell & _).
    + by vm_compute.
    + lia.
    + constructor.
    + done.
    + exists data, c'.
      change (run [] ?c) with c in *.
      change (__init__ {| content := forty; position := 36 |} 100000
                (st_size {| content := forty; position := 36 |})
                (Some ["callback"]) true)
        with (chunk_of "forty" 36 100000) in *.
      split_and!; [done| |].
      * rewrite Hdata, Hlen. by vm_compute.
      * assert (c' = after_read None (chunk_of "forty" 36 100000)) as ->.
        { rewrite read_eq in Hrd. by injection Hrd. }
        by vm_compute.
Defined.

(** C6 fails on the code for a negative amount.  [read] takes the
    minimum of what is left in the window and the amount and hands it
    to the file, so [read(-1)] asks the file for [-1] bytes, which is
    all of them: on a window of 3 bytes of a file of 39 it returns the
    39 bytes and leaves the cursor at 39; and once the window is
    exhausted by [read()], [read(-1)] returns the 36 bytes behind the
    window, not the empty byte string.  The docstring of the class has
    a read past the end of the chunk behave as at the end of the
    file. *)
Lemma read_minus_one_reads_past_the_window :
  __len__ (chunk_of "numbers" 0 3) = 3
  ∧ (read (Some (-1)) (chunk_of "numbers" 0 3)).1 = Returns numbers
  ∧ len numbers = 39
  ∧ tell (read (Some (-1)) (chunk_of "numbers" 0 3)).2 = 39
  ∧ (read None (chunk_of "numbers" 0 3)).1
    = Returns (String.list_byte_of_string "one")
  ∧ tell (read None (chunk_of "numbers" 0 3)).2
    = __len__ (read None (chunk_of "numbers" 0 3)).2
  ∧ (read (Some (-1)) (read None (chunk_of "numbers" 0 3)).2).1
    = Returns (String.list_byte_of_string
                 "twothreefourfivesixseveneightnineten")
  ∧ (read (Some (-1)) (read None (chunk_of "numbers" 0 3)).2).1
    ≠ Returns [].
Proof.
  assert (read (Some (-1)) (chunk_of "numbers" 0 3)
          = (Returns (data_read (Some (-1)) (chunk_of "numbers" 0 3)),
             after_read (Some (-1)) (chunk_of "numbers" 0 3))) as ->
    by apply read_eq.
  assert (read None (chunk_of "numbers" 0 3)
          = (Returns (data_read None (chunk_of "numbers" 0 3)),
             after_read None (chunk_of "numbers" 0 3))) as ->
    by apply read_eq.
  cbn [fst snd]. rewrite read_eq. cbn [fst snd].
  split_and!; [by vm_compute..|].
  assert (data_read (Some (-1)) (after_read None (chunk_of "numbers" 0 3))
          = String.list_byte_of_string
              "twothreefourfivesixseveneightnineten") as ->
    by (by vm_compute).
  discriminate.
Qed.

Lemma callbacks_fire_unless_zero_witness :
  invoke_progress_callbacks ["first"; "second"] (-2)
  = [Called "first" (-2); Called "second" (-2)]
  ∧ invoke_progress_callbacks ["first"; "second"] 0 = [].
Proof.
  destruct (callbacks_fire_unless_zero ["first"; "second"] (-2)
              (chunk_of "foo" 0 3) None) as (Hnz & Hz & _).
  split; [by apply Hnz|exact Hz].
Defined.

End ReadFileChunkProofs.

(** ** [SlidingWindowSemaphore] *)
Module SlidingWindowSemaphoreProofs.
Import SlidingWindowSemaphore.

Ltac py_run :=
  cbv beta iota zeta delta
    [bind ret raise wait gets modify pass zoom negb
     set_count set_tag_sequences set_lowest_sequence set_pending_release
     count_iadd tag_sequences_getitem tag_sequences_iadd
     tag_sequences_contains lowest_sequence_getitem lowest_sequence_setitem
     lowest_sequence_iadd pending_release_get queued_pop
     pending_release_setdefault_append pending_release_sort_reverse
     _count _tag_sequences _lowest_sequence _pending_release].

Ltac py_hyps :=
  repeat match goal with
         | H : ?m !! ?t = _ |- context [?m !! ?t] => rewrite H
         end.

Ltac py := repeat (progress (py_run; py_hyps)).

Section SemaphoreCalls.
Context {tag : Type} `{Countable tag}.
Implicit Types (s : sem tag) (t : tag) (n low cnt : Z) (q : list Z).

Lemma sem_eta s :
  {| _count := _count s; _tag_sequences := _tag_sequences s;
     _lowest_sequence := _lowest_sequence s;
     _pending_release := _pending_release s |} = s.
Proof. by destruct s. Qed.

Lemma acquire_eq t (blocking : bool) s :
  acquire t blocking s =
    if _count s =? 0
    then (if blocking then Waits else Raises NoResourcesAvailable, s)
    else (Returns (default 0 (_tag_sequences s !! t)), acquired t s).
Proof.
  destruct s as [c nx lo pe]. unfold acquire, acquired. py_run.
  destruct (c =? 0); [by destruct blocking|].
  destruct (nx !! t) as [k|] eqn:Hk; py_run.
  - destruct (k =? 0) eqn:Hz; py_run; rewrite ?Hk; py_run; simpl;
      by rewrite ?Hz.
  - change (0 =? 0) with true. py_run.
    rewrite !lookup_insert_eq. py_run. simpl. by rewrite insert_insert_eq.
Qed.

Lemma cascade_nil fuel low cnt : cascade fuel low cnt [] = (low, cnt, []).
Proof. by destruct fuel. Qed.

Lemma cascade_snoc fuel low cnt q m :
  cascade (S fuel) low cnt (q ++ [m]) =
    if low =? m then cascade fuel (low + 1) (cnt + 1) q
    else (low, cnt, q ++ [m]).
Proof. simpl. by rewrite last_snoc, removelast_last. Qed.

(** [length queued] iterations are enough: more fuel changes nothing. *)
Lemma cascade_fuel q : ∀ fuel low cnt,
  (length q ≤ fuel)%nat →
  cascade fuel low cnt q = cascade (length q) low cnt q.
Proof.
  induction q as [|m q IH] using rev_ind; intros fuel low cnt Hf.
  - by rewrite !cascade_nil.
  - rewrite length_app in *. simpl in *.
    destruct fuel as [|fuel]; [lia|].
    replace (length q + 1)%nat with (S (length q)) by lia.
    rewrite !cascade_snoc. destruct (low =? m); [|done].
    apply IH. lia.
Qed.

Lemma drain_eq fuel : ∀ t s low,
  _lowest_sequence s !! t = Some low →
  drain fuel t s =
    (Returns tt,
     with_cascade t s
       (cascade fuel low (_count s) (default [] (_pending_release s !! t)))).
Proof.
  induction fuel as [|fuel IH]; intros t s low Hlow.
  - destruct s as [c nx lo pe]; simpl in *. unfold with_cascade; py_run.
    rewrite (insert_id lo t low Hlow).
    destruct (pe !! t) eqn:Hq; simpl; [by rewrite (insert_id pe t _ Hq)|done].
  - destruct s as [c nx lo pe]; simpl in Hlow.
    cbn [drain]. py_run. cbn [cascade].
    destruct (last (default [] (pe !! t))) as [m|] eqn:Hlast.
    2:{ unfold with_cascade; py_run.
        rewrite (insert_id lo t low Hlow).
        destruct (pe !! t) eqn:Hq; simpl; [by rewrite (insert_id pe t _ Hq)|done]. }
    rewrite Hlow. py_run.
    destruct (low =? m) eqn:Hm.
    2:{ unfold with_cascade; py_run.
        rewrite (insert_id lo t low Hlow).
        destruct (pe !! t) eqn:Hq; simpl; [by rewrite (insert_id pe t _ Hq)|done]. }
    destruct (pe !! t) as [q|] eqn:Hq; [|done]. simpl in Hlast.
    py_run. rewrite Hlow. py_run.
    erewrite IH; [|simpl; apply lookup_insert_eq].
    unfold with_cascade; py_run. rewrite !lookup_insert_eq. simpl.
    by rewrite Hq, !insert_insert_eq.
Qed.

Lemma release_eq t n s :
  release t n s =
    match _tag_sequences s !! t with
    | None => (Raises (ValueError unknown_tag), s)
    | Some max_sequence =>
        match _lowest_sequence s !! t with
        | None => (Raises KeyError, s)
        | Some low =>
            if low =? n then (Returns tt, released_min t low s)
            else if (low <? n) && (n <? max_sequence)
                 then (Returns tt, released_later t n s)
                 else (Raises (ValueError unknown_sequence_number), s)
        end
    end.
Proof.
  destruct s as [c nx lo pe]. unfold release. py.
  destruct (nx !! t) as [mx|] eqn:Hmx.
  2:{ rewrite bool_decide_eq_false_2; [done|]. by intros [? ?]. }
  rewrite bool_decide_eq_true_2 by eauto. py.
  destruct (lo !! t) as [low|] eqn:Hlow; py; [|done].
  destruct (low =? n) eqn:Hn; py.
  - erewrite drain_eq; [|simpl; apply lookup_insert_eq].
    unfold released_min, with_cascade; py.
    by rewrite insert_insert_eq.
  - destruct ((low <? n) && (n <? mx)); [|done].
    py. rewrite lookup_insert_eq. py.
    unfold released_later; py. by rewrite insert_insert_eq.
Qed.

End SemaphoreCalls.

(** *** Lists: the descending sort and the minimum *)
Section Queues.
Implicit Types (q l : list Z) (m x : Z).

Lemma insert_desc_perm x l : insert_desc x l ≡ₚ x :: l.
Proof.
  induction l as [|y r IH]; simpl; [done|].
  destruct (y <=? x); [done|]. by rewrite IH, Permutation_swap.
Qed.

Lemma sort_reverse_perm l : sort_reverse l ≡ₚ l.
Proof.
  induction l as [|x r IH]; simpl; [done|].
  by rewrite insert_desc_perm, IH.
Qed.

Lemma elem_of_sort_reverse x l : x ∈ sort_reverse l ↔ x ∈ l.
Proof. by rewrite sort_reverse_perm. Qed.

Lemma insert_desc_sorted x l :
  sorted_desc l → sorted_desc (insert_desc x l).
Proof.
  unfold sorted_desc. induction 1 as [|y r Hr IH Hy]; simpl.
  - repeat constructor.
  - destruct (y <=? x) eqn:Hyx.
    + apply Z.leb_le in Hyx. constructor; [by constructor|].
      constructor; [done|]. eapply Forall_impl; [exact Hy|].
      simpl; intros; lia.
    + apply Z.leb_gt in Hyx. constructor; [done|].
      rewrite insert_desc_perm. constructor; [lia|done].
Qed.

Lemma sort_reverse_sorted l : sorted_desc (sort_reverse l).
Proof.
  induction l as [|x r IH]; simpl; [constructor|].
  by apply insert_desc_sorted.
Qed.

Lemma insert_desc_strict x l :
  StronglySorted (fun a b => b < a) l → x ∉ l →
  StronglySorted (fun a b => b < a) (insert_desc x l).
Proof.
  induction 1 as [|y r Hr IH Hy]; simpl; intros Hx.
  - repeat constructor.
  - apply not_elem_of_cons in Hx as [Hxy Hxr].
    destruct (y <=? x) eqn:Hyx.
    + apply Z.leb_le in Hyx. constructor; [by constructor|].
      constructor; [lia|]. eapply Forall_impl; [exact Hy|].
      simpl; intros; lia.
    + apply Z.leb_gt in Hyx. constructor; [by apply IH|].
      rewrite insert_desc_perm. constructor; [lia|done].
Qed.

Lemma sort_reverse_strict l :
  NoDup l → StronglySorted (fun a b => b < a) (sort_reverse l).
Proof.
  induction 1 as [|x r Hx Hr IH]; simpl; [constructor|].
  apply insert_desc_strict; [done|]. by rewrite elem_of_sort_reverse.
Qed.

Lemma strict_sorted_NoDup l :
  StronglySorted (fun a b => b < a) l → NoDup l.
Proof.
  induction 1 as [|y r Hr IH Hy]; constructor; [|done].
  intros Hin. rewrite Forall_forall in Hy. specialize (Hy _ Hin). lia.
Qed.

Lemma strict_sorted_desc l :
  StronglySorted (fun a b => b < a) l → sorted_desc l.
Proof.
  induction 1 as [|y r Hr IH Hy]; constructor; [done|].
  eapply Forall_impl; [exact Hy|]. simpl; intros; lia.
Qed.

Lemma queue_min_lower q m :
  queue_min q = Some m → m ∈ q ∧ ∀ y, y ∈ q → m <= y.
Proof.
  destruct q as [|x r]; simpl; [done|]. intros [= <-].
  induction r as [|z r IH]; simpl.
  - split; [by left|]. intros y ->%list_elem_of_singleton. lia.
  - destruct IH as [Hin Hle]. split.
    + destruct (Z.min_spec z (foldr Z.min x r)) as [[_ ->]|[_ ->]].
      * right; left.
      * apply elem_of_cons in Hin as [->|Hin]; [left|right; right]; done.
    + intros y Hy.
      assert (y = z ∨ y ∈ x :: r) as [->|Hy'].
      { apply elem_of_cons in Hy as [->|Hy]; [right; left|].
        apply elem_of_cons in Hy as [->|Hy]; [by left|right; by right]. }
      * lia.
      * specialize (Hle _ Hy'). lia.
Qed.

Lemma queue_min_sorted q m :
  sorted_desc (q ++ [m]) → queue_min (q ++ [m]) = Some m.
Proof.
  intros Hs.
  destruct (queue_min (q ++ [m])) as [m'|] eqn:Hmin.
  2:{ by destruct q. }
  apply queue_min_lower in Hmin as [Hin Hle]. f_equal.
  assert (m' <= m) by (apply Hle, elem_of_app; right; by left).
  apply elem_of_app in Hin as [Hin| ->%list_elem_of_singleton]; [|done].
  pose proof (StronglySorted_app_1_elem_of _ _ _ _ _ Hs Hin
                ltac:(by left)) as Hge.
  simpl in Hge. lia.
Qed.

Lemma all_equal_snoc q m : Forall (eq m) q → q ++ [m] = m :: q.
Proof. induction 1 as [|x r <- _ IH]; simpl; [done|]. by rewrite IH. Qed.

Lemma remove_one_sorted q m :
  sorted_desc (q ++ [m]) → remove_one m (q ++ [m]) = q.
Proof.
  induction q as [|x q IH]; simpl; intros Hs.
  - by rewrite Z.eqb_refl.
  - apply StronglySorted_inv in Hs as [Hs Hx].
    destruct (x =? m) eqn:Hxm.
    + apply Z.eqb_eq in Hxm as ->. apply all_equal_snoc.
      apply Forall_forall. intros y Hy.
      pose proof (StronglySorted_app_1_elem_of _ _ _ _ _ Hs Hy
                    ltac:(by left)) as Hge.
      rewrite Forall_forall in Hx.
      specialize (Hx y ltac:(apply elem_of_app; by left)).
      simpl in *. lia.
    + f_equal. by apply IH.
Qed.

(** On a list in descending order the loop of [release], which looks at
    [queued[-1]], is the cascade on the minimum of the queue. *)
Lemma cascade_spec_cascade fuel : ∀ low cnt q,
  sorted_desc q → cascade fuel low cnt q = spec_cascade fuel low cnt q.
Proof.
  induction fuel as [|fuel IH]; intros low cnt q Hs; [done|].
  destruct q as [|m q _] using rev_ind; [done|].
  rewrite cascade_snoc. simpl.
  rewrite (queue_min_sorted _ _ Hs), (remove_one_sorted _ _ Hs).
  rewrite (Z.eqb_sym m low). destruct (low =? m); [|done].
  apply IH. by apply StronglySorted_app_1_l in Hs.
Qed.

(** The shape of what the loop does: it pops the [k] consecutive numbers
    [low, low + 1, ...] off the end of the list and stops in front of a
    number that is not the next one. *)
Lemma cascade_shape q : ∀ low cnt,
  ∃ k : nat,
    cascade (length q) low cnt q =
      (low + Z.of_nat k, cnt + Z.of_nat k,
       (cascade (length q) low cnt q).2)
    ∧ q = (cascade (length q) low cnt q).2
          ++ reverse (seqZ low (Z.of_nat k))
    ∧ last (cascade (length q) low cnt q).2 ≠ Some (low + Z.of_nat k).
Proof.
  induction q as [|m q IH] using rev_ind; intros low cnt.
  - exists 0%nat. simpl. rewrite !Z.add_0_r. done.
  - rewrite length_app. simpl.
    replace (length q + 1)%nat with (S (length q)) by lia.
    rewrite cascade_snoc. destruct (low =? m) eqn:Hm.
    + apply Z.eqb_eq in Hm as <-.
      destruct (IH (low + 1) (cnt + 1)) as (k & Heq & Hq & Hlast).
      exists (S k). rewrite Heq at 1. simpl fst; simpl snd.
      split_and!.
      * replace (low + Z.of_nat (S k)) with (low + 1 + Z.of_nat k) by lia.
        replace (cnt + Z.of_nat (S k)) with (cnt + 1 + Z.of_nat k) by lia.
        done.
      * rewrite (seqZ_cons low) by lia. rewrite reverse_cons, app_assoc.
        replace (Z.succ low) with (low + 1) by lia.
        replace (Z.pred (Z.of_nat (S k))) with (Z.of_nat k) by lia.
        by rewrite <- Hq.
      * replace (low + Z.of_nat (S k)) with (low + 1 + Z.of_nat k) by lia.
        done.
    + apply Z.eqb_neq in Hm. exists 0%nat. simpl. rewrite !Z.add_0_r.
      split_and!; [done|by rewrite app_nil_r|].
      rewrite last_snoc. congruence.
Qed.

End Queues.

(** *** The per-tag quantities after each kind of step *)
Section SemaphoreViews.
Context {tag : Type} `{Countable tag}.
Implicit Types (s : sem tag) (t : tag) (n low cnt : Z) (q : list Z).

Lemma next_of_acquired t t' s :
  next_of (acquired t s) t' =
    if decide (t = t') then next_of s t + 1 else next_of s t'.
Proof.
  unfold next_of, acquired; simpl. rewrite lookup_insert.
  by destruct (decide (t = t')).
Qed.

Lemma lowest_of_acquired t t' s :
  0 <= lowest_of s t <= next_of s t →
  lowest_of (acquired t s) t' = lowest_of s t'.
Proof.
  unfold lowest_of, next_of, acquired; simpl. intros Hb.
  destruct (default 0 (_tag_sequences s !! t) =? 0) eqn:Hz; [|done].
  apply Z.eqb_eq in Hz. rewrite lookup_insert.
  destruct (decide (t = t')) as [<-|]; simpl; lia.
Qed.

Lemma pending_of_acquired t t' s :
  pending_of (acquired t s) t' = pending_of s t'.
Proof. done. Qed.

Lemma next_of_released_later t n t' s :
  next_of (released_later t n s) t' = next_of s t'.
Proof. done. Qed.

Lemma lowest_of_released_later t n t' s :
  lowest_of (released_later t n s) t' = lowest_of s t'.
Proof. done. Qed.

Lemma pending_of_released_later t n t' s :
  pending_of (released_later t n s) t' =
    if decide (t = t') then sort_reverse (pending_of s t ++ [n])
    else pending_of s t'.
Proof.
  unfold pending_of, released_later; simpl. rewrite lookup_insert.
  by destruct (decide (t = t')).
Qed.

Lemma next_of_released_min t low t' s :
  next_of (released_min t low s) t' = next_of s t'.
Proof. done. Qed.

Lemma lowest_of_released_min t low t' s :
  lowest_of (released_min t low s) t' =
    if decide (t = t')
    then (cascade (length (pending_of s t)) (low + 1) (_count s + 1)
            (pending_of s t)).1.1
    else lowest_of s t'.
Proof.
  unfold lowest_of, released_min, with_cascade, pending_of; simpl.
  rewrite lookup_insert. by destruct (decide (t = t')).
Qed.

Lemma pending_of_released_min t low t' s :
  pending_of (released_min t low s) t' =
    if decide (t = t')
    then (cascade (length (pending_of s t)) (low + 1) (_count s + 1)
            (pending_of s t)).2
    else pending_of s t'.
Proof.
  unfold released_min, with_cascade, pending_of; simpl.
  destruct (_pending_release s !! t) as [q|] eqn:Hq; simpl.
  - rewrite lookup_insert. by destruct (decide (t = t')).
  - destruct (decide (t = t')) as [<-|]; [by rewrite Hq|done].
Qed.

Lemma count_released_min t low s :
  _count (released_min t low s) =
    (cascade (length (pending_of s t)) (low + 1) (_count s + 1)
       (pending_of s t)).1.2.
Proof. done. Qed.

(** *** [gate_ok] is kept by every step *)

Lemma gate_ok_init count : gate_ok (__init__ (tag := tag) count).
Proof.
  split; simpl.
  - intros t. rewrite !lookup_empty. done.
  - intros t k. by rewrite lookup_empty.
  - intros t q. by rewrite lookup_empty.
Qed.

Lemma gate_ok_acquired t s : gate_ok s → gate_ok (acquired t s).
Proof.
  intros [Hdom Hpos Hsort]. split; simpl; [| |done].
  - intros t'. destruct (decide (t = t')) as [<-|Hne].
    + rewrite lookup_insert_eq.
      destruct (_tag_sequences s !! t) as [k|] eqn:Hk; simpl.
      * destruct (k =? 0); [rewrite lookup_insert_eq; by split; eauto|].
        rewrite <- Hdom, Hk. by split; eauto.
      * rewrite lookup_insert_eq. by split; eauto.
    + rewrite lookup_insert_ne by done.
      destruct (_ =? 0); [rewrite lookup_insert_ne by done|]; apply Hdom.
  - intros t' k. rewrite lookup_insert.
    destruct (decide (t = t')) as [<-|Hne]; [|apply Hpos].
    intros [= <-]. destruct (_tag_sequences s !! t) as [k|] eqn:Hk; simpl.
    + specialize (Hpos _ _ Hk). lia.
    + lia.
Qed.

Lemma gate_ok_released_later t n s :
  gate_ok s → gate_ok (released_later t n s).
Proof.
  intros [Hdom Hpos Hsort]. split; simpl; [done|done|].
  intros t' q. rewrite lookup_insert.
  destruct (decide (t = t')) as [<-|Hne]; [|apply Hsort].
  intros [= <-]. apply sort_reverse_sorted.
Qed.

Lemma gate_ok_released_min t low s :
  _lowest_sequence s !! t = Some low →
  gate_ok s → gate_ok (released_min t low s).
Proof.
  intros Hlow [Hdom Hpos Hsort]. split; simpl; [|done|].
  - intros t'. rewrite lookup_insert.
    destruct (decide (t = t')) as [<-|Hne]; [|apply Hdom].
    rewrite Hdom, Hlow. by split; eauto.
  - intros t' q'.
    destruct (_pending_release s !! t) as [q|] eqn:Hq; simpl; [|apply Hsort].
    rewrite lookup_insert.
    destruct (decide (t = t')) as [<-|Hne]; [|apply Hsort].
    intros [= <-].
    destruct (cascade_shape q (low + 1) (_count s + 1)) as (k & _ & Hpre & _).
    specialize (Hsort _ _ Hq). unfold sorted_desc in *.
    rewrite Hpre in Hsort. by apply StronglySorted_app_1_l in Hsort.
Qed.

Lemma gate_ok_perform c s : gate_ok s → gate_ok (perform c s).2.
Proof.
  intros Hok. destruct c as [t blocking|t n]; simpl.
  - rewrite acquire_eq. destruct (_count s =? 0); simpl; [done|].
    by apply gate_ok_acquired.
  - rewrite release_eq.
    destruct (_tag_sequences s !! t) as [mx|]; simpl; [|done].
    destruct (_lowest_sequence s !! t) as [low|] eqn:Hlow; simpl; [|done].
    destruct (low =? n); simpl; [by apply gate_ok_released_min|].
    destruct ((low <? n) && (n <? mx)); simpl; [|done].
    by apply gate_ok_released_later.
Qed.

Lemma reachable_gate_ok count s : reachable count s → gate_ok s.
Proof.
  induction 1 as [|c s _ IH]; [apply gate_ok_init|by apply gate_ok_perform].
Qed.

(** In a reachable state [release] never hits a missing key. *)
Lemma release_no_KeyError count t n s :
  reachable count s → (release t n s).1 ≠ Raises KeyError.
Proof.
  intros [Hdom _ _]%reachable_gate_ok. rewrite release_eq.
  destruct (_tag_sequences s !! t) as [mx|] eqn:Hmx; simpl; [|done].
  destruct (proj1 (Hdom t) ltac:(eauto)) as [low ->].
  destruct (low =? n); [done|]. by destruct ((low <? n) && (n <? mx)).
Qed.

End SemaphoreViews.

(** *** The sum over all tags *)
Section SemaphoreSum.
Context {tag : Type} `{Countable tag}.
Implicit Types (s : sem tag) (t : tag) (n low cnt : Z) (q : list Z).
Implicit Types (m : gmap tag Z).

Lemma sum_values_empty : sum_values (∅ : gmap tag Z) = 0.
Proof. apply map_fold_empty. Qed.

Lemma sum_values_insert_fresh m t v :
  m !! t = None → sum_values (<[t := v]> m) = v + sum_values m.
Proof.
  intros Hm. unfold sum_values.
  rewrite map_fold_insert_L; [done| |done]. intros; lia.
Qed.

Lemma sum_values_insert m t v :
  sum_values (<[t := v]> m) = v - default 0 (m !! t) + sum_values m.
Proof.
  destruct (m !! t) as [old|] eqn:Hm; simpl.
  - rewrite <- (insert_delete_eq m t v).
    rewrite sum_values_insert_fresh by apply lookup_delete_eq.
    rewrite <- (insert_delete_id m t old Hm) at 2.
    rewrite sum_values_insert_fresh by apply lookup_delete_eq. lia.
  - rewrite sum_values_insert_fresh by done. lia.
Qed.

Lemma sum_values_zero m :
  (∀ t v, m !! t = Some v → v = 0) → sum_values m = 0.
Proof.
  induction m as [|t v m Hm IH] using map_ind; intros Hz.
  - apply sum_values_empty.
  - rewrite sum_values_insert_fresh by done.
    rewrite (Hz t v) by apply lookup_insert_eq.
    rewrite IH; [done|]. intros t' v' Hv'. apply (Hz t').
    rewrite lookup_insert_ne; [done|]. congruence.
Qed.

Lemma windows_lookup s t :
  windows s !! t =
    match _tag_sequences s !! t, _lowest_sequence s !! t with
    | Some nxt, Some low => Some (nxt - low)
    | _, _ => None
    end.
Proof.
  unfold windows. rewrite map_lookup_zip_with.
  destruct (_tag_sequences s !! t); simpl; [|done].
  by destruct (_lowest_sequence s !! t).
Qed.

(** Under [gate_ok] the map [windows] has an entry for every tag, so
    [outstanding] is the sum over all tags. *)
Lemma windows_all_tags s t :
  gate_ok s →
  is_Some (_tag_sequences s !! t) →
  windows s !! t = Some (next_of s t - lowest_of s t).
Proof.
  intros [Hdom _ _] Hnx. destruct (proj1 (Hdom t) Hnx) as [low Hlow].
  destruct Hnx as [nxt Hnxt].
  rewrite windows_lookup. unfold next_of, lowest_of.
  by rewrite Hnxt, Hlow.
Qed.

Lemma outstanding_init count : outstanding (__init__ (tag := tag) count) = 0.
Proof.
  unfold outstanding, windows, __init__; simpl.
  apply sum_values_zero. intros t v.
  rewrite map_lookup_zip_with, lookup_empty. done.
Qed.

Lemma outstanding_acquired t s :
  gate_ok s → outstanding (acquired t s) = outstanding s + 1.
Proof.
  intros [Hdom Hpos Hsort]. unfold outstanding.
  assert (windows (acquired t s) =
          <[t := default 0 (windows s !! t) + 1]> (windows s)) as ->.
  { unfold windows at 1, acquired; simpl. rewrite windows_lookup.
    destruct (_tag_sequences s !! t) as [k|] eqn:Hk; simpl.
    - destruct (proj1 (Hdom t) ltac:(eauto)) as [low Hlow]. rewrite Hlow.
      pose proof (Hpos _ _ Hk). destruct (k =? 0) eqn:Hz; [lia|].
      simpl. rewrite <- (insert_id (_lowest_sequence s) t low Hlow) at 1.
      rewrite <- map_insert_zip_with. f_equal. lia.
    - rewrite <- map_insert_zip_with. done. }
  rewrite sum_values_insert. lia.
Qed.

Lemma outstanding_released_later t n s :
  outstanding (released_later t n s) = outstanding s.
Proof. done. Qed.

Lemma outstanding_released_min t low mx s :
  _tag_sequences s !! t = Some mx →
  _lowest_sequence s !! t = Some low →
  outstanding (released_min t low s) =
    outstanding s - (lowest_of (released_min t low s) t - low).
Proof.
  intros Hmx Hlow. unfold outstanding.
  rewrite lowest_of_released_min, decide_True by done.
  set (low' := (cascade _ _ _ _).1.1).
  assert (windows (released_min t low s) = <[t := mx - low']> (windows s))
    as ->.
  { unfold windows at 1, released_min, with_cascade; simpl.
    rewrite <- (insert_id (_tag_sequences s) t mx Hmx) at 1.
    by rewrite <- map_insert_zip_with. }
  rewrite sum_values_insert, windows_lookup, Hmx, Hlow. simpl. lia.
Qed.

(** The loop frees exactly as many units as it advances the lowest
    sequence number by. *)
Lemma cascade_balance q low cnt :
  (cascade (length q) low cnt q).1.2 - cnt =
  (cascade (length q) low cnt q).1.1 - low.
Proof.
  destruct (cascade_shape q low cnt) as (k & -> & _). simpl. lia.
Qed.

Lemma outstanding_perform c s :
  gate_ok s →
  outstanding (perform c s).2 + _count (perform c s).2 =
  outstanding s + _count s.
Proof.
  intros Hok. destruct c as [t blocking|t n]; simpl.
  - rewrite acquire_eq. destruct (_count s =? 0); simpl; [done|].
    rewrite outstanding_acquired by done. lia.
  - rewrite release_eq.
    destruct (_tag_sequences s !! t) as [mx|] eqn:Hmx; simpl; [|done].
    destruct (_lowest_sequence s !! t) as [low|] eqn:Hlow; simpl; [|done].
    destruct (low =? n); simpl.
    + rewrite (outstanding_released_min _ _ _ _ Hmx Hlow).
      rewrite lowest_of_released_min, decide_True by done.
      fold (pending_of s t).
      pose proof (cascade_balance (pending_of s t) (low + 1) (_count s + 1)).
      lia.
    + by destruct ((low <? n) && (n <? mx)).
Qed.

Lemma reachable_outstanding count s :
  reachable count s → outstanding s = count - _count s.
Proof.
  induction 1 as [|c s Hs IH].
  - rewrite outstanding_init. simpl. lia.
  - pose proof (outstanding_perform c s (reachable_gate_ok _ _ Hs)). lia.
Qed.

End SemaphoreSum.

(** *** The paired client *)
Section SemaphoreClient.
Context {tag : Type} `{Countable tag}.
Implicit Types (s : sem tag) (t : tag) (n low cnt : Z) (q : list Z).
Implicit Types (held : gset (tag * Z)).

Lemma strict_sorted_last q p :
  StronglySorted (fun a b => b < a) q → p ∈ q →
  ∃ m, last q = Some m ∧ m <= p.
Proof.
  destruct q as [|m q _] using rev_ind; [by intros _ ?%elem_of_nil|].
  intros Hs Hp. exists m. rewrite last_snoc. split; [done|].
  apply elem_of_app in Hp as [Hp| ->%list_elem_of_singleton]; [|lia].
  pose proof (StronglySorted_app_1_elem_of _ _ _ _ _ Hs Hp
                ltac:(by left)) as Hlt.
  simpl in Hlt. lia.
Qed.

Lemma paired_init count : paired (__init__ (tag := tag) count) ∅.
Proof.
  split; unfold lowest_of, next_of, pending_of; simpl; intros t.
  - rewrite !lookup_empty. simpl. lia.
  - rewrite lookup_empty. constructor.
  - rewrite lookup_empty. by intros p ?%elem_of_nil.
  - intros n. rewrite !lookup_empty. simpl. split; [set_solver|lia].
Qed.

Lemma paired_acquired t s held :
  paired s held →
  paired (acquired t s) ({[ (t, next_of s t) ]} ∪ held).
Proof.
  intros [Hb Hs Hp Hh].
  assert (∀ t', lowest_of (acquired t s) t' = lowest_of s t') as Hlow
    by (intros; by apply lowest_of_acquired).
  split; intros t'; rewrite ?Hlow, ?next_of_acquired, ?pending_of_acquired.
  - specialize (Hb t'). destruct (decide (t = t')) as [<-|]; lia.
  - apply Hs.
  - intros p Hin. specialize (Hp _ _ Hin).
    destruct (decide (t = t')) as [<-|]; lia.
  - intros n. rewrite elem_of_union, elem_of_singleton, Hh.
    destruct (decide (t = t')) as [<-|Hne].
    + split.
      * intros [[= ->]|[? ?]]; [|split; [lia|done]].
        specialize (Hb t). split; [lia|]. intros Hin.
        specialize (Hp _ _ Hin). lia.
      * intros [? Hnot]. destruct (decide (n = next_of s t)) as [->|];
          [by left|right]. split; [lia|done].
    + split; [intros [[= ? ?]|?]; [done|done]|by right].
Qed.

Lemma paired_released_later t n s held :
  paired s held → (t, n) ∈ held → lowest_of s t ≠ n →
  paired (released_later t n s) (held ∖ {[ (t, n) ]}).
Proof.
  intros [Hb Hs Hp Hh] Hin Hne.
  pose proof (proj1 (Hh t n) Hin) as [Hrange Hfresh].
  split; intros t';
    rewrite ?lowest_of_released_later, ?next_of_released_later,
            ?pending_of_released_later.
  - apply Hb.
  - destruct (decide (t = t')) as [<-|]; [|apply Hs].
    apply sort_reverse_strict, NoDup_app. split_and!.
    + apply strict_sorted_NoDup, Hs.
    + intros x Hx ->%list_elem_of_singleton. done.
    + apply NoDup_singleton.
  - intros p. destruct (decide (t = t')) as [<-|]; [|apply Hp].
    rewrite elem_of_sort_reverse, elem_of_app, list_elem_of_singleton.
    intros [Hq| ->]; [by apply Hp|lia].
  - intros m. rewrite elem_of_difference, elem_of_singleton, Hh.
    destruct (decide (t = t')) as [<-|Hne'].
    + rewrite elem_of_sort_reverse, elem_of_app, list_elem_of_singleton.
      split.
      * intros [[? ?] Hneq]. split; [done|]. intros [?| ->]; [done|].
        by apply Hneq.
      * intros [? Hnot]. split; [split; [done|tauto]|].
        intros [= ->]. tauto.
    + split; [tauto|]. intros [? ?]. split; [done|]. by intros [= ? ?].
Qed.

Lemma paired_released_min t low s held :
  paired s held → (t, low) ∈ held → lowest_of s t = low →
  paired (released_min t low s) (held ∖ {[ (t, low) ]}).
Proof.
  intros [Hb Hs Hp Hh] Hin Hlow.
  pose proof (proj1 (Hh t low) Hin) as [Hrange Hfresh].
  destruct (cascade_shape (pending_of s t) (low + 1) (_count s + 1))
    as (k & Hres & Hpre & Hstop).
  set (q' := (cascade (length (pending_of s t)) (low + 1) (_count s + 1)
                (pending_of s t)).2) in *.
  assert (∀ p, p ∈ q' → p ∈ pending_of s t) as Hsub.
  { intros p Hq'. rewrite Hpre. apply elem_of_app. by left. }
  assert (StronglySorted (fun a b => b < a) q') as Hs'.
  { specialize (Hs t). rewrite Hpre in Hs.
    by apply StronglySorted_app_1_l in Hs. }
  assert (low + 1 + Z.of_nat k <= next_of s t) as Hle.
  { destruct k as [|k]; [lia|].
    assert (low + Z.of_nat (S k) ∈ pending_of s t) as Hlast.
    { rewrite Hpre. apply elem_of_app; right.
      rewrite elem_of_reverse, elem_of_seqZ. lia. }
    specialize (Hp _ _ Hlast). lia. }
  assert (∀ p, p ∈ q' → low + 1 + Z.of_nat k < p) as Hgt.
  { intros p Hq'.
    assert (low + 1 + Z.of_nat k <= p) as Hge.
    { destruct k as [|k].
      - specialize (Hp _ _ (Hsub _ Hq')). lia.
      - specialize (Hs t). rewrite Hpre in Hs.
        pose proof (StronglySorted_app_1_elem_of _ _ _
                      p (low + Z.of_nat (S k)) Hs Hq') as Hlt.
        simpl in Hlt. rewrite elem_of_reverse, elem_of_seqZ in Hlt.
        specialize (Hlt ltac:(lia)). lia. }
    destruct (strict_sorted_last _ _ Hs' Hq') as (m & Hm & Hmp).
    assert (m ∈ q') as Hmq by (by apply last_Some_elem_of).
    destruct (decide (p = low + 1 + Z.of_nat k)) as [->|]; [|lia].
    exfalso. apply Hstop. rewrite Hm. f_equal.
    assert (low + 1 + Z.of_nat k <= m); [|lia].
    destruct k as [|k].
    - specialize (Hp _ _ (Hsub _ Hmq)). lia.
    - specialize (Hs t). rewrite Hpre in Hs.
      pose proof (StronglySorted_app_1_elem_of _ _ _
                    m (low + Z.of_nat (S k)) Hs Hmq) as Hlt.
      simpl in Hlt. rewrite elem_of_reverse, elem_of_seqZ in Hlt.
      specialize (Hlt ltac:(lia)). lia. }
  split; intros t';
    rewrite ?next_of_released_min, ?lowest_of_released_min,
            ?pending_of_released_min.
  - destruct (decide (t = t')) as [<-|]; [|apply Hb].
    rewrite Hres. simpl. specialize (Hb t). lia.
  - destruct (decide (t = t')) as [<-|]; [done|apply Hs].
  - intros p. destruct (decide (t = t')) as [<-|]; [|apply Hp].
    fold q'. rewrite Hres. simpl. intros Hq'.
    specialize (Hgt _ Hq'). specialize (Hp _ _ (Hsub _ Hq')). lia.
  - intros m. rewrite elem_of_difference, elem_of_singleton, Hh.
    destruct (decide (t = t')) as [<-|Hne'].
    + fold q'. rewrite Hres. simpl. split.
      * intros [[? Hnot] Hneq]. assert (m ≠ low) by congruence.
        split; [|by intros ?%Hsub]. split; [|lia].
        destruct (decide (low + 1 + Z.of_nat k <= m)); [done|].
        exfalso. apply Hnot. rewrite Hpre. apply elem_of_app; right.
        rewrite elem_of_reverse, elem_of_seqZ. lia.
      * intros [? Hnot]. split; [|intros [= ->]; lia].
        split; [lia|]. rewrite Hpre, elem_of_app. intros [?|Hseq]; [done|].
        rewrite elem_of_reverse, elem_of_seqZ in Hseq. lia.
    + split; [tauto|]. intros [? ?]. split; [done|]. by intros [= ? ?].
Qed.

(** A ticket that is held can be released: the call returns. *)
Lemma held_release_returns t n s held :
  gate_ok s → paired s held → (t, n) ∈ held →
  release t n s =
    (Returns tt,
     if decide (lowest_of s t = n) then released_min t n s
     else released_later t n s).
Proof.
  intros [Hdom Hpos Hsort] [Hb Hs Hp Hh] Hin.
  pose proof (proj1 (Hh t n) Hin) as [Hrange Hfresh].
  specialize (Hb t). rewrite release_eq.
  unfold lowest_of, next_of in *.
  destruct (_tag_sequences s !! t) as [mx|] eqn:Hmx; simpl in *; [|lia].
  destruct (proj1 (Hdom t) ltac:(eauto)) as [low Hlow].
  rewrite Hlow in *. simpl in *.
  destruct (decide (low = n)) as [->|Hne].
  - by rewrite Z.eqb_refl.
  - rewrite (proj2 (Z.eqb_neq low n) Hne).
    assert ((low <? n) = true) as -> by (apply Z.ltb_lt; lia).
    assert ((n <? mx) = true) as -> by (apply Z.ltb_lt; lia). done.
Qed.

Lemma client_step_ok c s held s' held' :
  gate_ok s → paired s held →
  client_step c (s, held) = Some (s', held') →
  s' = (perform c s).2 ∧ gate_ok s' ∧ paired s' held'.
Proof.
  intros Hok Hpa. destruct c as [t blocking|t n]; simpl.
  - pose proof (gate_ok_perform (Acquire t blocking) s Hok) as Hok'.
    simpl in Hok'. rewrite acquire_eq in *.
    destruct (_count s =? 0); simpl in *.
    + destruct blocking; intros [= <- <-]; done.
    + intros [= <- <-]. split_and!; [done|done|].
      by apply paired_acquired.
  - destruct (decide ((t, n) ∈ held)) as [Hin|]; [|done].
    intros [= <- <-].
    pose proof (gate_ok_perform (Release t n) s Hok) as Hok'.
    simpl in Hok'. destruct (release t n s) as [o s1] eqn:Hrel.
    simpl in *. split_and!; [done|done|].
    rewrite (held_release_returns _ _ _ _ Hok Hpa Hin) in Hrel.
    injection Hrel as _ <-.
    destruct (decide (lowest_of s t = n)) as [Heq|Hne].
    + by apply paired_released_min.
    + by apply paired_released_later.
Qed.

Lemma play_ok count cs : ∀ s held s' held',
  reachable count s → paired s held →
  play cs (s, held) = Some (s', held') →
  reachable count s' ∧ paired s' held'.
Proof.
  induction cs as [|c cs IH]; simpl; intros s held s' held' Hre Hpa.
  - by intros [= <- <-].
  - destruct (client_step c (s, held)) as [[s1 held1]|] eqn:Hstep; [|done].
    destruct (client_step_ok _ _ _ _ _ (reachable_gate_ok _ _ Hre) Hpa Hstep)
      as (-> & _ & Hpa1).
    apply IH; [by constructor|done].
Qed.

(** When no ticket is held every tag is fully drained. *)
Lemma paired_drained s t : paired s ∅ → lowest_of s t = next_of s t.
Proof.
  intros [Hb Hs Hp Hh]. specialize (Hb t).
  destruct (decide (lowest_of s t = next_of s t)) as [|Hne]; [done|].
  exfalso. apply (not_elem_of_empty (C := gset (tag * Z)) (t, lowest_of s t)).
  apply Hh. split; [lia|]. intros Hin. specialize (Hp _ _ Hin). lia.
Qed.

Lemma drained_outstanding s :
  (∀ t, lowest_of s t = next_of s t) → outstanding s = 0.
Proof.
  intros Hdr. apply sum_values_zero. intros t v. rewrite windows_lookup.
  specialize (Hdr t). unfold lowest_of, next_of in Hdr.
  destruct (_tag_sequences s !! t) as [nxt|]; [|done].
  destruct (_lowest_sequence s !! t) as [low|]; [|done].
  simpl in Hdr. intros [= <-]. lia.
Qed.

End SemaphoreClient.

(** *** The properties of the semaphore *)
Section SemaphoreProperties.
Context {tag : Type} `{Countable tag}.
Implicit Types (s : sem tag) (t : tag) (n low cnt : Z) (q : list Z).
Implicit Types (held : gset (tag * Z)).

Lemma run_cons c cs s :
  run (c :: cs) s =
    ((c, (perform c s).1) :: (run cs (perform c s).2).1,
     (run cs (perform c s).2).2).
Proof.
  simpl. destruct (perform c s) as [a s1]. simpl.
  by destruct (run cs s1).
Qed.

Lemma reachable_run count cs : ∀ s,
  reachable count s → reachable count (run cs s).2.
Proof.
  induction cs as [|c cs IH]; intros s Hs; [done|].
  rewrite run_cons. simpl. apply IH. by constructor.
Qed.

Lemma next_of_release t n s t' :
  next_of (release t n s).2 t' = next_of s t'.
Proof.
  rewrite release_eq.
  destruct (_tag_sequences s !! t) as [mx|]; [|done].
  destruct (_lowest_sequence s !! t) as [low|]; [|done].
  destruct (low =? n); [done|]. by destruct ((low <? n) && (n <? mx)).
Qed.

Lemma returned_for_run cs : ∀ s t,
  next_of s t <= next_of (run cs s).2 t
  ∧ returned_for t (run cs s).1 =
      seqZ (next_of s t) (next_of (run cs s).2 t - next_of s t).
Proof.
  induction cs as [|c cs IH]; intros s t.
  - simpl. rewrite Z.sub_diag. done.
  - rewrite run_cons. cbn [fst snd].
    destruct c as [t' blocking|t' n]; cbn [perform returned_for].
    + rewrite acquire_eq. destruct (_count s =? 0); cbn [fst snd].
      * destruct blocking; apply IH.
      * destruct (IH (acquired t' s) t) as [Hle Heq].
        rewrite next_of_acquired in Hle, Heq.
        destruct (decide (t' = t)) as [->|Hne].
        -- split; [lia|]. rewrite Heq. fold (next_of s t).
           rewrite (seqZ_cons (next_of s t)) by lia.
           do 2 f_equal; lia.
        -- done.
    + destruct (release t' n s) as [o s1] eqn:Hrel. cbn [fst snd].
      replace s1 with (release t' n s).2 by (by rewrite Hrel).
      destruct (IH (release t' n s).2 t) as [Hle Heq].
      rewrite next_of_release in Hle, Heq. done.
Qed.

Lemma queue_min_last q : sorted_desc q → queue_min q = last q.
Proof.
  destruct q as [|m q _] using rev_ind; [done|]. intros Hs.
  by rewrite queue_min_sorted, last_snoc.
Qed.

(** C1 (another part the code does implement): a number that was released
    as the lowest unreleased one is refused when it is released again. *)
Lemma release_twice_in_order_rejected count s t low mx :
  reachable count s →
  _tag_sequences s !! t = Some mx → _lowest_sequence s !! t = Some low →
  release t low s = (Returns tt, released_min t low s)
  ∧ release t low (released_min t low s)
    = (Raises (ValueError unknown_sequence_number), released_min t low s).
Proof.
  intros Hre Hmx Hlow. split.
  - by rewrite release_eq, Hmx, Hlow, Z.eqb_refl.
  - destruct (cascade_shape (pending_of s t) (low + 1) (_count s + 1))
      as (k & Hres & _).
    rewrite release_eq. cbn [released_min with_cascade _tag_sequences
                               _lowest_sequence].
    rewrite Hmx, lookup_insert_eq. fold (pending_of s t). rewrite Hres.
    cbn [fst snd].
    assert ((low + 1 + Z.of_nat k =? low) = false) as ->
      by (apply Z.eqb_neq; lia).
    assert ((low + 1 + Z.of_nat k <? low) = false) as ->
      by (apply Z.ltb_ge; lia).
    done.
Qed.

(** C1 (the part of it the code does implement): a sequence number below
    the lowest unreleased one, or at or above the next one and different
    from the lowest unreleased one, is refused. *)
Lemma release_rejects_outside_window count s t n mx low :
  reachable count s →
  _tag_sequences s !! t = Some mx → _lowest_sequence s !! t = Some low →
  n < low ∨ (mx <= n ∧ n ≠ low) →
  release t n s = (Raises (ValueError unknown_sequence_number), s).
Proof.
  intros _ Hmx Hlow Hout. rewrite release_eq, Hmx, Hlow.
  assert ((low =? n) = false) as -> by (apply Z.eqb_neq; lia).
  assert ((low <? n) && (n <? mx) = false) as ->; [|done].
  apply andb_false_iff. rewrite !Z.ltb_ge. lia.
Qed.

(** C2: in every reachable state, releasing a sequence number strictly
    between the lowest unreleased one and the next one only queues it
    ([current_count] and the lowest number stay as they were and the
    pending list gains the number); releasing the lowest unreleased number
    frees one unit, advances the lowest number by one and then runs the
    cascade on the minimum of the pending queue, to its end. *)
Theorem ordered_release_gating count s t n mx low :
  reachable count s →
  _tag_sequences s !! t = Some mx → _lowest_sequence s !! t = Some low →
  (low < n < mx →
     ∃ s', release t n s = (Returns tt, s')
           ∧ current_count s' = current_count s
           ∧ lowest_of s' t = low
           ∧ pending_of s' t ≡ₚ n :: pending_of s t)
  ∧ (n = low →
     ∃ s', release t n s = (Returns tt, s')
           ∧ (lowest_of s' t, current_count s', pending_of s' t) =
               spec_cascade (length (pending_of s t))
                 (low + 1) (current_count s + 1) (pending_of s t)
           ∧ queue_min (pending_of s' t) ≠ Some (lowest_of s' t)).
Proof.
  intros Hre Hmx Hlow.
  pose proof (reachable_gate_ok _ _ Hre) as [Hdom Hpos Hsort].
  assert (sorted_desc (pending_of s t)) as Hq.
  { unfold pending_of. destruct (_pending_release s !! t) as [q|] eqn:Hq;
      simpl; [by eapply Hsort|constructor]. }
  split.
  - intros Hn. exists (released_later t n s). split_and!.
    + rewrite release_eq, Hmx, Hlow.
      assert ((low =? n) = false) as -> by (apply Z.eqb_neq; lia).
      assert ((low <? n) = true) as -> by (apply Z.ltb_lt; lia).
      assert ((n <? mx) = true) as -> by (apply Z.ltb_lt; lia). done.
    + done.
    + rewrite lowest_of_released_later. unfold lowest_of. by rewrite Hlow.
    + rewrite pending_of_released_later, decide_True by done.
      rewrite sort_reverse_perm. by rewrite Permutation_app_comm.
  - intros ->. exists (released_min t low s). split_and!.
    + by rewrite release_eq, Hmx, Hlow, Z.eqb_refl.
    + rewrite lowest_of_released_min, pending_of_released_min.
      rewrite !decide_True by done. unfold current_count.
      rewrite count_released_min.
      rewrite <- cascade_spec_cascade by done.
      by destruct (cascade _ _ _ _) as [[? ?] ?].
    + rewrite lowest_of_released_min, pending_of_released_min.
      rewrite !decide_True by done.
      destruct (cascade_shape (pending_of s t) (low + 1) (_count s + 1))
        as (k & Hres & Hpre & Hstop).
      rewrite queue_min_last.
      * rewrite Hres at 2. done.
      * unfold sorted_desc in *. rewrite Hpre in Hq.
        by apply StronglySorted_app_1_l in Hq.
Qed.

(** C3: in every state a semaphore created with [count] can reach, the
    sum over all tags of [next - lowest] ([outstanding], which has a term
    for every tag that was ever acquired) is [count] minus the current
    count, so the current count is [count] again whenever every tag is
    fully drained; and a client that releases exactly the tickets it
    acquired, each once, has every release return, and is back at
    [count], with every tag drained, once it holds no ticket. *)
Theorem conservation count :
  (∀ s, reachable count s →
        outstanding s = count - current_count s
        ∧ ∀ t, is_Some (_tag_sequences s !! t) →
               windows s !! t = Some (next_of s t - lowest_of s t))
  ∧ (∀ s, reachable count s →
          (∀ t, lowest_of s t = next_of s t) → current_count s = count)
  ∧ (∀ cs s held,
        play cs (__init__ count, ∅) = Some (s, held) →
        reachable count s
        ∧ (∀ t n, (t, n) ∈ held → (release t n s).1 = Returns tt)
        ∧ (held = ∅ →
           (∀ t, lowest_of s t = next_of s t) ∧ current_count s = count)).
Proof.
  split_and!.
  - intros s Hre. split; [by apply reachable_outstanding|].
    intros t. apply windows_all_tags. by eapply reachable_gate_ok.
  - intros s Hre Hdr. pose proof (reachable_outstanding _ _ Hre) as Hsum.
    rewrite drained_outstanding in Hsum by done. unfold current_count. lia.
  - intros cs s held Hplay.
    destruct (play_ok count cs _ _ _ _ (reachable_init count)
                (paired_init count) Hplay) as [Hre Hpa].
    split_and!; [done| |].
    + intros t n Hin.
      by rewrite (held_release_returns _ _ _ _
                    (reachable_gate_ok _ _ Hre) Hpa Hin).
    + intros ->.
      assert (∀ t, lowest_of s t = next_of s t) as Hdr
        by (intros; by apply paired_drained).
      split; [done|]. pose proof (reachable_outstanding _ _ Hre) as Hsum.
      rewrite drained_outstanding in Hsum by done. unfold current_count. lia.
Qed.

(** C7: along any sequence of calls on a fresh semaphore, the numbers
    that the successful [acquire(t)] calls return are [0, 1, 2, ...] in
    order, whatever other calls are interleaved; and one successful
    [acquire(t)] returns the tag's next number, adds one to it, takes one
    from the count, leaves the other tags alone and, for a tag never seen
    before, returns [0] and records [0] as its lowest number. *)
Theorem monotonic_sequencing count cs t :
  returned_for t (run cs (__init__ count)).1 =
    seqZ 0 (Z.of_nat (length (returned_for t (run cs (__init__ count)).1)))
  ∧ ∀ s blocking k s',
      acquire t blocking s = (Returns k, s') →
      k = next_of s t
      ∧ next_of s' t = k + 1
      ∧ current_count s' = current_count s - 1
      ∧ (∀ t', t' ≠ t → next_of s' t' = next_of s t')
      ∧ (_tag_sequences s !! t = None →
         k = 0 ∧ _lowest_sequence s' !! t = Some 0).
Proof.
  split.
  - destruct (returned_for_run cs (__init__ count) t) as [Hle Heq].
    assert (next_of (__init__ count) t = 0) as Hz
      by (unfold next_of; simpl; by rewrite lookup_empty).
    rewrite Hz in Hle, Heq. rewrite Heq, length_seqZ. f_equal. lia.
  - intros s blocking k s'. rewrite acquire_eq.
    destruct (_count s =? 0); [by destruct blocking|].
    intros [= <- <-]. split_and!.
    + done.
    + by rewrite next_of_acquired, decide_True.
    + unfold current_count. simpl. lia.
    + intros t' Hne. by rewrite next_of_acquired, decide_False.
    + intros Hnew. unfold acquired. rewrite Hnew. simpl.
      by rewrite lookup_insert_eq.
Qed.

(** C10: in every reachable state a call that raises leaves the four
    attributes as they were: [acquire] raises only
    [NoResourcesAvailable], only when not blocking and the count is zero,
    and it does raise then; [release] raises only one of its two
    [ValueError]s, and it does raise on a tag that was never acquired. *)
Theorem failed_call_keeps_state count s :
  reachable count s →
  (∀ t blocking e s',
      acquire t blocking s = (Raises e, s') →
      s' = s ∧ e = NoResourcesAvailable
      ∧ blocking = false ∧ current_count s = 0)
  ∧ (∀ t, current_count s = 0 →
          acquire t false s = (Raises NoResourcesAvailable, s))
  ∧ (∀ t n e s',
      release t n s = (Raises e, s') →
      s' = s ∧ (e = ValueError unknown_tag
                ∨ e = ValueError unknown_sequence_number))
  ∧ (∀ t n, _tag_sequences s !! t = None →
            release t n s = (Raises (ValueError unknown_tag), s)).
Proof.
  intros Hre. split_and!.
  - intros t blocking e s'. rewrite acquire_eq. unfold current_count.
    destruct (_count s =? 0) eqn:Hc; [|done].
    apply Z.eqb_eq in Hc. destruct blocking; [done|].
    by intros [= <- <-].
  - intros t Hc. unfold current_count in Hc. by rewrite acquire_eq, Hc.
  - intros t n e s' Hrel.
    pose proof (release_no_KeyError count t n s Hre) as Hkey.
    rewrite Hrel in Hkey. simpl in Hkey. rewrite release_eq in Hrel.
    destruct (_tag_sequences s !! t) as [mx|].
    2:{ injection Hrel as <- <-. eauto. }
    destruct (_lowest_sequence s !! t) as [low|].
    2:{ injection Hrel as <- <-. done. }
    destruct (low =? n); [done|].
    destruct ((low <? n) && (n <? mx)); [done|].
    injection Hrel as <- <-. eauto.
  - intros t n Hnew. by rewrite release_eq, Hnew.
Qed.

End SemaphoreProperties.

(** *** The unit tests and the claims on concrete semaphores *)

(** [test_can_acquire_a_range] *)
Example test_can_acquire_a_range :
  let '(log, s) :=
    run [Acquire "a" false; Acquire "a" false; Acquire "a" false;
         Release "a" 0; Release "a" 1; Release "a" 2;
         Acquire "a" false; Acquire "a" false; Acquire "a" false]
      (__init__ 3) in
  returned_for "a" log = [0; 1; 2; 3; 4; 5] ∧ current_count s = 0.
Proof. vm_compute. done. Qed.

(** [test_release_counters_can_increment_counter_repeatedly] *)
Example test_release_counters_can_increment_counter_repeatedly :
  current_count two_pending = 0
  ∧ current_count (release "a" 0 two_pending).2 = 3.
Proof. vm_compute. done. Qed.

(** [test_is_error_to_double_release] *)
Example test_is_error_to_double_release :
  let s := (run [Acquire "a" false; Acquire "a" false;
                 Release "a" 0; Release "a" 1] (__init__ 2)).2 in
  current_count s = 2
  ∧ (release "a" 0 s).1 = Raises (ValueError unknown_sequence_number).
Proof. vm_compute. done. Qed.

(** C1 fails on the code in two ways.  A number that is already queued
    as a pending release is accepted again: the second
    [release('a', 1)] returns, [1] is queued twice, and once [2] and [0]
    are released as well the stale [1] blocks the cascade, so that the
    count ends at 2, not 3.  And on a tag that is fully drained the next
    number, which was never issued, is accepted and takes the count
    above the initial one. *)
Lemma double_release_of_pending_is_accepted :
  (release "a" 1 three_acquired).1 = Returns tt
  ∧ (release "a" 1 (release "a" 1 three_acquired).2).1 = Returns tt
  ∧ pending_of (release "a" 1 (release "a" 1 three_acquired).2).2 "a"
    = [1; 1]
  ∧ current_count
      (run [Release "a" 1; Release "a" 1; Release "a" 2; Release "a" 0]
         three_acquired).2 = 2
  ∧ next_of (run [Acquire "a" false; Release "a" 0] (__init__ 1)).2 "a" = 1
  ∧ (release "a" 1
       (run [Acquire "a" false; Release "a" 0] (__init__ 1)).2).1
    = Returns tt
  ∧ current_count
      (release "a" 1
         (run [Acquire "a" false; Release "a" 0] (__init__ 1)).2).2 = 2.
Proof.
  assert (release "a" 1 three_acquired
          = (Returns tt, released_later "a" 1 three_acquired)) as Hfirst
    by (rewrite release_eq; vm_compute; done).
  rewrite Hfirst. cbn [fst snd].
  assert (release "a" 1 (released_later "a" 1 three_acquired)
          = (Returns tt,
             released_later "a" 1 (released_later "a" 1 three_acquired)))
    as Hsecond by (rewrite release_eq; vm_compute; done).
  rewrite Hsecond. cbn [fst snd].
  split_and!; [done|done|by vm_compute..].
Qed.

Lemma ordered_release_gating_witness :
  ∃ s', release "a" 0 two_pending = (Returns tt, s')
        ∧ (lowest_of s' "a", current_count s', pending_of s' "a")
          = (3, 3, []).
Proof.
  destruct (ordered_release_gating 3 two_pending "a" 0 3 0) as [_ Hmin].
  - apply reachable_run, reachable_run, reachable_init.
  - by vm_compute.
  - by vm_compute.
  - destruct (Hmin eq_refl) as (s' & Hrel & Hcas & _).
    exists s'. split; [done|]. rewrite Hcas. by vm_compute.
Defined.

Lemma conservation_witness :
  ∃ s, play [Acquire "a" false; Acquire "b" false; Acquire "a" false;
             Release "a" 1; Release "b" 0; Release "a" 0]
         (__init__ 3, ∅) = Some (s, ∅)
       ∧ current_count s = 3.
Proof.
  pose proof (conservation (tag := string) 3) as (_ & _ & Hplay).
  assert (play [Acquire "a" false; Acquire "b" false; Acquire "a" false;
                Release "a" 1; Release "b" 0; Release "a" 0]
            (__init__ 3, ∅)
          = Some ((run [Acquire "a" false; Acquire "b" false;
                        Acquire "a" false;
                        Release "a" 1; Release "b" 0; Release "a" 0]
                     (__init__ 3)).2, ∅)) as Hp by (by vm_compute).
  eexists. split; [exact Hp|]. by apply (Hplay _ _ _ Hp).
Defined.

Lemma monotonic_sequencing_witness :
  returned_for "a"
    (run [Acquire "a" false; Acquire "b" false; Release "a" 0;
          Acquire "a" false; Acquire "b" false] (__init__ 4)).1
  = [0; 1].
Proof.
  rewrite (proj1 (monotonic_sequencing 4
                    [Acquire "a" false; Acquire "b" false; Release "a" 0;
                     Acquire "a" false; Acquire "b" false] "a")).
  by vm_compute.
Defined.

Lemma failed_call_keeps_state_witness :
  acquire "a" false three_acquired
  = (Raises NoResourcesAvailable, three_acquired)
  ∧ release "b" 0 three_acquired
    = (Raises (ValueError unknown_tag), three_acquired).
Proof.
  destruct (failed_call_keeps_state 3 three_acquired)
    as (_ & Hacq & _ & Hrel).
  - apply reachable_run, reachable_init.
  - split; [apply Hacq|apply Hrel]; by vm_compute.
Defined.

End SlidingWindowSemaphoreProofs.

(** ** [SlidingWindowSemaphore]: more of what the class keeps *)
Module SlidingWindowSemaphoreMore.
Import SlidingWindowSemaphore SlidingWindowSemaphoreProofs.

Section SemaphoreMore.
Context {tag : Type} `{Countable tag}.
Implicit Types (s : sem tag) (t : tag) (n low cnt : Z) (q : list Z).
Implicit Types (held : gset (tag * Z)) (m : gmap tag Z).

Lemma cascade_count_grows q low cnt :
  cnt <= (cascade (length q) low cnt q).1.2.
Proof. destruct (cascade_shape q low cnt) as (k & -> & _). simpl. lia. Qed.

Lemma count_perform_nonneg c s :
  0 <= _count s → 0 <= _count (perform c s).2.
Proof.
  intros Hc. destruct c as [t blocking|t n]; simpl.
  - rewrite acquire_eq. destruct (_count s =? 0) eqn:Hz; simpl; [done|].
    apply Z.eqb_neq in Hz. lia.
  - rewrite release_eq.
    destruct (_tag_sequences s !! t) as [mx|]; simpl; [|done].
    destruct (_lowest_sequence s !! t) as [low|]; simpl; [|done].
    destruct (low =? n); simpl.
    + fold (pending_of s t).
      pose proof (cascade_count_grows (pending_of s t) (low + 1)
                    (_count s + 1)). lia.
    + by destruct ((low <? n) && (n <? mx)).
Qed.

(** The count of a semaphore created with a count that is not negative
    is never negative, whatever is called on it, in whatever order and
    however often: [acquire] takes a unit only when the count is not
    zero, and [release] only ever adds units. *)
Theorem count_never_negative count s :
  0 <= count → reachable count s → 0 <= current_count s.
Proof.
  intros Hc. induction 1 as [|c s _ IH]; [done|].
  by apply count_perform_nonneg.
Qed.

Lemma sum_values_nonneg m :
  (∀ t v, m !! t = Some v → 0 <= v) → 0 <= sum_values m.
Proof.
  induction m as [|t v m Hm IH] using map_ind; intros Hnn.
  - unfold sum_values. by rewrite map_fold_empty.
  - rewrite sum_values_insert_fresh by done.
    pose proof (Hnn t v (lookup_insert_eq m t v)).
    assert (0 <= sum_values m); [|lia].
    apply IH. intros t' v' Hv'. apply (Hnn t').
    rewrite lookup_insert_ne; [done|]. congruence.
Qed.

Lemma sum_values_lookup_le m t v :
  (∀ t v, m !! t = Some v → 0 <= v) → m !! t = Some v → v <= sum_values m.
Proof.
  intros Hnn Hv. rewrite <- (insert_delete_id m t v Hv).
  rewrite sum_values_insert_fresh by apply lookup_delete_eq.
  assert (0 <= sum_values (delete t m)); [|lia].
  apply sum_values_nonneg. intros t' v'.
  rewrite lookup_delete. destruct (decide (t = t')); [done|]. apply Hnn.
Qed.


(** In the states of a paired client every term of the sum is the width
    of a window, and no width is negative. *)
Lemma paired_windows_nonneg s held :
  paired s held → ∀ t v, windows s !! t = Some v → 0 <= v.
Proof.
  intros [Hb _ _ _] t v. rewrite windows_lookup. specialize (Hb t).
  unfold lowest_of, next_of in Hb.
  destruct (_tag_sequences s !! t) as [nxt|]; [|done].
  destruct (_lowest_sequence s !! t) as [low|]; [|done].
  simpl in Hb. intros [= <-]. lia.
Qed.

Lemma paired_window_le_outstanding s held t :
  gate_ok s → paired s held →
  next_of s t - lowest_of s t <= outstanding s.
Proof.
  intros Hok Hpa.
  pose proof (paired_windows_nonneg s held Hpa) as Hnn.
  destruct (_tag_sequences s !! t) as [nxt|] eqn:Hnxt.
  - apply (sum_values_lookup_le _ t); [done|].
    apply windows_all_tags; [done|by rewrite Hnxt].
  - destruct Hok as [Hdom _ _].
    assert (_lowest_sequence s !! t = None) as Hlow.
    { apply eq_None_not_Some. rewrite <- Hdom, Hnxt. by intros [? ?]. }
    unfold next_of, lowest_of. rewrite Hnxt, Hlow. simpl.
    by apply sum_values_nonneg.
Qed.

(** The sliding window.  For a client that releases only tickets it
    holds, on a semaphore created with [count >= 0]: the count stays
    between [0] and [count]; per tag, the numbers from the lowest
    unreleased one to the next one span at most the units taken; so a
    ticket in flight is never [count] or more ahead of the lowest
    unreleased number of its tag. *)
Theorem window_never_wider_than_count count cs s held :
  0 <= count →
  play cs (__init__ count, ∅) = Some (s, held) →
  0 <= current_count s <= count
  ∧ (∀ t, 0 <= next_of s t - lowest_of s t <= count - current_count s)
  ∧ (∀ t n, (t, n) ∈ held →
            lowest_of s t <= n < lowest_of s t + count).
Proof.
  intros Hc Hplay.
  destruct (play_ok count cs _ _ _ _ (reachable_init count)
              (paired_init count) Hplay) as [Hre Hpa].
  pose proof (reachable_gate_ok _ _ Hre) as Hok.
  pose proof (reachable_outstanding _ _ Hre) as Hsum.
  assert (0 <= current_count s) as Hnn.
  { clear -Hc Hre. induction Hre as [|c s _ IH]; [done|].
    by apply count_perform_nonneg. }
  assert (∀ t, 0 <= next_of s t - lowest_of s t <= count - current_count s)
    as Hwin.
  { intros t. pose proof (paired_window_le_outstanding s held t Hok Hpa).
    pose proof (paired_bounds s held Hpa t). unfold current_count. lia. }
  split_and!.
  - done.
  - assert (0 <= outstanding s)
      by (apply sum_values_nonneg, (paired_windows_nonneg s held Hpa)).
    unfold current_count in *. lia.
  - done.
  - intros t n Hin. destruct (proj1 (paired_held s held Hpa t n) Hin) as [? _].
    specialize (Hwin t). lia.
Qed.

(** The pending lists of such a client: the numbers of a list are
    distinct, lie strictly between the lowest unreleased number and the
    next one, and are not held; so a list is shorter than its window is
    wide, hence shorter than [count], and when no ticket is held every
    list is empty. *)
Theorem pending_list_is_bounded count cs s held t :
  0 <= count →
  play cs (__init__ count, ∅) = Some (s, held) →
  NoDup (pending_of s t)
  ∧ (∀ p, p ∈ pending_of s t →
          lowest_of s t < p < next_of s t ∧ (t, p) ∉ held)
  ∧ Z.of_nat (length (pending_of s t))
    <= Z.max 0 (next_of s t - lowest_of s t - 1)
  ∧ Z.of_nat (length (pending_of s t)) <= count
  ∧ (held = ∅ → pending_of s t = []).
Proof.
  intros Hc Hplay.
  destruct (play_ok count cs _ _ _ _ (reachable_init count)
              (paired_init count) Hplay) as [Hre Hpa].
  pose proof (reachable_gate_ok _ _ Hre) as Hok.
  pose proof (reachable_outstanding _ _ Hre) as Hsum.
  assert (0 <= current_count s) as Hnn.
  { clear -Hc Hre. induction Hre as [|c s _ IH]; [done|].
    by apply count_perform_nonneg. }
  pose proof (paired_window_le_outstanding s held t Hok Hpa) as Hwin.
  destruct Hpa as [Hb Hs Hp Hh].
  assert (NoDup (pending_of s t)) as Hnd by apply strict_sorted_NoDup, Hs.
  assert (Z.of_nat (length (pending_of s t))
          <= Z.max 0 (next_of s t - lowest_of s t - 1)) as Hlen.
  { assert (pending_of s t
            ⊆+ seqZ (lowest_of s t + 1) (next_of s t - lowest_of s t - 1))
      as Hsub.
    { apply NoDup_submseteq; [done|]. intros p Hin.
      specialize (Hp _ _ Hin). apply elem_of_seqZ. lia. }
    apply submseteq_length in Hsub. rewrite length_seqZ in Hsub. lia. }
  split_and!.
  - done.
  - intros p Hin. split; [by apply Hp|].
    intros Hheld. apply Hh in Hheld as [_ Hnot]. done.
  - done.
  - specialize (Hb t). unfold current_count in *. lia.
  - intros ->.
    destruct (pending_of s t) as [|p q] eqn:Hq; [done|]. exfalso.
    assert (lowest_of s t = next_of s t) as Hdr
      by (apply paired_drained; by split).
    rewrite Hdr in Hlen. simpl in Hlen. lia.
Qed.

Lemma paired_lowest_held s held t :
  paired s held → lowest_of s t < next_of s t → (t, lowest_of s t) ∈ held.
Proof.
  intros [Hb Hs Hp Hh] Hlt. apply Hh. split; [lia|].
  intros Hin. specialize (Hp _ _ Hin). lia.
Qed.

Lemma paired_lowest_unique s1 s2 held t :
  paired s1 held → paired s2 held → next_of s1 t = next_of s2 t →
  lowest_of s1 t = lowest_of s2 t.
Proof.
  intros Hp1 Hp2 Hnext.
  pose proof (paired_bounds _ _ Hp1 t). pose proof (paired_bounds _ _ Hp2 t).
  destruct (Z.lt_trichotomy (lowest_of s1 t) (lowest_of s2 t))
    as [Hlt|[Heq|Hgt]]; [|done|].
  - pose proof (paired_lowest_held s1 held t Hp1 ltac:(lia)) as Hin.
    apply (paired_held _ _ Hp2) in Hin. lia.
  - pose proof (paired_lowest_held s2 held t Hp2 ltac:(lia)) as Hin.
    apply (paired_held _ _ Hp1) in Hin. lia.
Qed.

Lemma paired_pending_elem s held t p :
  paired s held →
  p ∈ pending_of s t ↔ lowest_of s t < p < next_of s t ∧ (t, p) ∉ held.
Proof.
  intros [Hb Hs Hp Hh]. split.
  - intros Hin. split; [by apply Hp|]. intros Hheld.
    apply Hh in Hheld as [_ Hnot]. done.
  - intros [Hrange Hnot].
    destruct (decide (p ∈ pending_of s t)) as [|Hout]; [done|].
    exfalso. apply Hnot, Hh. split; [lia|done].
Qed.

Lemma paired_windows_unique s1 s2 held :
  gate_ok s1 → gate_ok s2 → paired s1 held → paired s2 held →
  (∀ t, next_of s1 t = next_of s2 t) → windows s1 = windows s2.
Proof.
  intros Hok1 Hok2 Hp1 Hp2 Hnext. apply map_eq. intros t.
  pose proof (paired_lowest_unique s1 s2 held t Hp1 Hp2 (Hnext t)) as Hlow.
  specialize (Hnext t). rewrite !windows_lookup.
  unfold next_of, lowest_of in *.
  destruct (_tag_sequences s1 !! t) as [k1|] eqn:H1;
    destruct (_tag_sequences s2 !! t) as [k2|] eqn:H2; simpl in *.
  - destruct (proj1 (ok_dom _ Hok1 t) ltac:(by rewrite H1)) as [l1 Hl1].
    destruct (proj1 (ok_dom _ Hok2 t) ltac:(by rewrite H2)) as [l2 Hl2].
    rewrite Hl1, Hl2 in *. simpl in *. by subst.
  - pose proof (ok_issued _ Hok1 _ _ H1). lia.
  - pose proof (ok_issued _ Hok2 _ _ H2). lia.
  - done.
Qed.

(** The order of releases does not matter.  Two runs of a client on
    semaphores created alike, which have acquired as often per tag and
    hold the same tickets, end with the same count, the same lowest
    unreleased number and the same pending list for every tag, whatever
    the order in which either of them released the other tickets. *)
Theorem state_is_determined_by_tickets count cs1 cs2 s1 s2 held :
  play cs1 (__init__ count, ∅) = Some (s1, held) →
  play cs2 (__init__ count, ∅) = Some (s2, held) →
  (∀ t, next_of s1 t = next_of s2 t) →
  current_count s1 = current_count s2
  ∧ ∀ t, lowest_of s1 t = lowest_of s2 t
         ∧ pending_of s1 t = pending_of s2 t.
Proof.
  intros Hplay1 Hplay2 Hnext.
  destruct (play_ok count cs1 _ _ _ _ (reachable_init count)
              (paired_init count) Hplay1) as [Hre1 Hp1].
  destruct (play_ok count cs2 _ _ _ _ (reachable_init count)
              (paired_init count) Hplay2) as [Hre2 Hp2].
  pose proof (reachable_gate_ok _ _ Hre1) as Hok1.
  pose proof (reachable_gate_ok _ _ Hre2) as Hok2.
  split.
  - pose proof (reachable_outstanding _ _ Hre1) as Hsum1.
    pose proof (reachable_outstanding _ _ Hre2) as Hsum2.
    unfold outstanding in *.
    rewrite (paired_windows_unique s1 s2 held) in Hsum1 by done.
    unfold current_count. lia.
  - intros t.
    pose proof (paired_lowest_unique s1 s2 held t Hp1 Hp2 (Hnext t)) as Hlow.
    split; [done|].
    apply (StronglySorted_unique_strong (fun a b => b < a)).
    + intros; lia.
    + apply (paired_sorted _ _ Hp1).
    + apply (paired_sorted _ _ Hp2).
    + apply NoDup_Permutation.
      * apply strict_sorted_NoDup, (paired_sorted _ _ Hp1).
      * apply strict_sorted_NoDup, (paired_sorted _ _ Hp2).
      * intros p. rewrite !(paired_pending_elem _ held) by done.
        by rewrite Hlow, (Hnext t).
Qed.

(** Tags share the count and nothing else: a call for one tag leaves the
    entries of every other tag, in all three dictionaries, as they
    were, in any state and whatever the call answers. *)
Theorem calls_leave_other_tags_alone c s t t' :
  t ≠ t' →
  c = Acquire t true ∨ c = Acquire t false ∨ (∃ n, c = Release t n) →
  _tag_sequences (perform c s).2 !! t' = _tag_sequences s !! t'
  ∧ _lowest_sequence (perform c s).2 !! t' = _lowest_sequence s !! t'
  ∧ _pending_release (perform c s).2 !! t' = _pending_release s !! t'.
Proof.
  intros Hne Hc.
  assert (∀ blocking,
            let s' := (perform (Acquire t blocking) s).2 in
            _tag_sequences s' !! t' = _tag_sequences s !! t'
            ∧ _lowest_sequence s' !! t' = _lowest_sequence s !! t'
            ∧ _pending_release s' !! t' = _pending_release s !! t') as Hacq.
  { intros blocking. simpl. rewrite acquire_eq.
    destruct (_count s =? 0); simpl; [done|].
    rewrite lookup_insert_ne by done.
    destruct (_ =? 0); [by rewrite lookup_insert_ne|done]. }
  destruct Hc as [->|[->|[n ->]]]; [apply Hacq..|].
  simpl. rewrite release_eq.
  destruct (_tag_sequences s !! t) as [mx|]; simpl; [|done].
  destruct (_lowest_sequence s !! t) as [low|]; simpl; [|done].
  destruct (low =? n); simpl.
  - rewrite lookup_insert_ne by done.
    destruct (_pending_release s !! t); [by rewrite lookup_insert_ne|done].
  - destruct ((low <? n) && (n <? mx)); simpl; [|done].
    by rewrite lookup_insert_ne.
Qed.


End SemaphoreMore.

Lemma count_never_negative_witness :
  0 <= current_count three_acquired
  ∧ acquire "b" false three_acquired
    = (Raises NoResourcesAvailable, three_acquired).
Proof.
  split; [|by vm_compute].
  apply (count_never_negative 3); [lia|].
  apply reachable_run, reachable_init.
Defined.

Lemma window_never_wider_than_count_witness :
  ∃ s held,
    play [Acquire "a" false; Acquire "b" false; Acquire "a" false;
          Release "a" 1] (__init__ 4, ∅) = Some (s, held)
    ∧ 0 <= current_count s <= 4
    ∧ (∀ t, 0 <= next_of s t - lowest_of s t <= 4 - current_count s)
    ∧ (∀ t n, (t, n) ∈ held → lowest_of s t <= n < lowest_of s t + 4).
Proof.
  exists (run [Acquire "a" false; Acquire "b" false; Acquire "a" false;
               Release "a" 1] (__init__ 4)).2, {[ ("a", 0); ("b", 0) ]}.
  assert (play [Acquire "a" false; Acquire "b" false; Acquire "a" false;
                Release "a" 1] (__init__ 4, ∅)
          = Some ((run [Acquire "a" false; Acquire "b" false;
                        Acquire "a" false; Release "a" 1]
                     (__init__ 4)).2, {[ ("a", 0); ("b", 0) ]})) as Hp
    by (by vm_compute).
  split; [exact Hp|].
  apply (window_never_wider_than_count 4 _ _ _ ltac:(lia) Hp).
Defined.

Lemma pending_list_is_bounded_witness :
  ∃ s held,
    play [Acquire "a" false; Acquire "a" false; Acquire "a" false;
          Release "a" 2; Release "a" 1] (__init__ 3, ∅) = Some (s, held)
    ∧ pending_of s "a" = [2; 1]
    ∧ Z.of_nat (length (pending_of s "a"))
      <= Z.max 0 (next_of s "a" - lowest_of s "a" - 1).
Proof.
  exists (run [Acquire "a" false; Acquire "a" false; Acquire "a" false;
               Release "a" 2; Release "a" 1] (__init__ 3)).2, {[ ("a", 0) ]}.
  assert (play [Acquire "a" false; Acquire "a" false; Acquire "a" false;
                Release "a" 2; Release "a" 1] (__init__ 3, ∅)
          = Some ((run [Acquire "a" false; Acquire "a" false;
                        Acquire "a" false; Release "a" 2; Release "a" 1]
                     (__init__ 3)).2, {[ ("a", 0) ]})) as Hp
    by (by vm_compute).
  split; [exact Hp|]. split; [by vm_compute|].
  apply (pending_list_is_bounded 3 _ _ _ "a" ltac:(lia) Hp).
Defined.

Lemma state_is_determined_by_tickets_witness :
  ∃ s1 s2,
    play [Acquire "a" false; Acquire "a" false; Acquire "a" false;
          Release "a" 1; Release "a" 0] (__init__ 3, ∅)
    = Some (s1, {[ ("a", 2) ]})
    ∧ play [Acquire "a" false; Acquire "a" false; Acquire "a" false;
            Release "a" 0; Release "a" 1] (__init__ 3, ∅)
      = Some (s2, {[ ("a", 2) ]})
    ∧ _pending_release s1 !! "a" = Some []
    ∧ _pending_release s2 !! "a" = None
    ∧ current_count s1 = current_count s2
    ∧ ∀ t, lowest_of s1 t = lowest_of s2 t
           ∧ pending_of s1 t = pending_of s2 t.
Proof.
  exists (run [Acquire "a" false; Acquire "a" false; Acquire "a" false;
               Release "a" 1; Release "a" 0] (__init__ 3)).2,
         (run [Acquire "a" false; Acquire "a" false; Acquire "a" false;
               Release "a" 0; Release "a" 1] (__init__ 3)).2.
  assert (play [Acquire "a" false; Acquire "a" false; Acquire "a" false;
                Release "a" 1; Release "a" 0] (__init__ 3, ∅)
          = Some ((run [Acquire "a" false; Acquire "a" false;
                        Acquire "a" false; Release "a" 1; Release "a" 0]
                     (__init__ 3)).2, {[ ("a", 2) ]})) as Hp1
    by (by vm_compute).
  assert (play [Acquire "a" false; Acquire "a" false; Acquire "a" false;
                Release "a" 0; Release "a" 1] (__init__ 3, ∅)
          = Some ((run [Acquire "a" false; Acquire "a" false;
                        Acquire "a" false; Release "a" 0; Release "a" 1]
                     (__init__ 3)).2, {[ ("a", 2) ]})) as Hp2
    by (by vm_compute).
  split; [exact Hp1|]. split; [exact Hp2|].
  split; [by vm_compute|]. split; [by vm_compute|].
  apply (state_is_determined_by_tickets 3 _ _ _ _ _ Hp1 Hp2).
  intros t. unfold next_of.
  by replace (_tag_sequences
                (run [Acquire "a" false; Acquire "a" false; Acquire "a" false;
                      Release "a" 1; Release "a" 0] (__init__ 3)).2)
      with (_tag_sequences
              (run [Acquire "a" false; Acquire "a" false; Acquire "a" false;
                    Release "a" 0; Release "a" 1] (__init__ 3)).2)
      by (by vm_compute).
Defined.

Lemma calls_leave_other_tags_alone_witness :
  _tag_sequences (perform (Release "a" 0) two_pending).2 !! "b"
  = _tag_sequences two_pending !! "b"
  ∧ _lowest_sequence (perform (Release "a" 0) two_pending).2 !! "b"
    = _lowest_sequence two_pending !! "b"
  ∧ _pending_release (perform (Release "a" 0) two_pending).2 !! "b"
    = _pending_release two_pending !! "b".
Proof.
  apply (calls_leave_other_tags_alone (Release "a" 0) two_pending "a" "b").
  - done.
  - right; right. by exists 0.
Defined.


End SlidingWindowSemaphoreMore.

(** ** Progress totals *)
Module ProgressProofs.
Import Callbacks Progress.

Section Totals.
Context {callback : Type} `{EqDecision callback}.
Implicit Types (cb : callback) (callbacks : list callback).
Implicit Types (calls : list (invocation callback)).

Lemma reported_app cb calls1 calls2 :
  reported cb (calls1 ++ calls2) = reported cb calls1 + reported cb calls2.
Proof.
  induction calls1 as [|i calls1 IH]; simpl; [done|].
  destruct (decide (callee i = cb)); lia.
Qed.

Lemma reported_for_each cb callbacks bytes :
  reported cb (for_each callbacks bytes) = occurrences cb callbacks * bytes.
Proof.
  unfold occurrences.
  induction callbacks as [|x callbacks IH]; simpl; [done|].
  rewrite filter_cons. destruct (decide (x = cb)); simpl; lia.
Qed.

Lemma reported_invoke cb callbacks bytes :
  reported cb (invoke_progress_callbacks callbacks bytes)
  = occurrences cb callbacks * bytes.
Proof.
  unfold invoke_progress_callbacks.
  destruct (bytes =? 0) eqn:Hz.
  - apply Z.eqb_eq in Hz. subst. simpl. lia.
  - apply reported_for_each.
Qed.

Lemma invoke_positive callbacks bytes :
  0 <= bytes →
  Forall (fun i : invocation callback => 0 < bytes_transferred i)
    (invoke_progress_callbacks callbacks bytes).
Proof.
  intros Hb. unfold invoke_progress_callbacks.
  destruct (bytes =? 0) eqn:Hz; [done|]. apply Z.eqb_neq in Hz.
  induction callbacks as [|x callbacks IH]; simpl; [done|].
  constructor; [simpl; lia|done].
Qed.

End Totals.
End ProgressProofs.

(** ** More of [ReadFileChunk] *)
Module ReadFileChunkMore.
Import FileObj Callbacks ReadFileChunk Progress.
Import ReadFileChunkProofs ProgressProofs.

Section ChunkMore.
Context {callback : Type} `{EqDecision callback}.
Implicit Types (c : chunk callback) (amount : option Z) (f : file).
Implicit Types (cb : callback) (source : list byte).

Lemma switch_perform o c :
  _callbacks_enabled (perform o c) = _callbacks_enabled c
  ∧ _callbacks (perform o c) = _callbacks c.
Proof.
  destruct o as [amount|where_]; simpl.
  - by rewrite read_eq.
  - rewrite seek_eq. by destruct (_ <? 0).
Qed.

Lemma reported_perform cb o c :
  _callbacks_enabled c = true →
  reported cb (invoked (perform o c)) - reported cb (invoked c)
  = occurrences cb (_callbacks c) * (tell (perform o c) - tell c).
Proof.
  intros Hen. unfold tell. destruct o as [amount|where_]; simpl.
  - rewrite read_eq. simpl. rewrite Hen, reported_app, reported_invoke. lia.
  - rewrite seek_eq. destruct (_ <? 0); simpl; [lia|].
    rewrite Hen, reported_app, reported_invoke. lia.
Qed.

(** The progress reports follow the cursor.  While the callbacks of a
    chunk are enabled, whatever is read and wherever the chunk is
    rewound to, with any arguments and whether a call raises or not,
    what each callback has been told in all moves with [tell()]: the
    sum of the amounts reported to it changes by its number of
    occurrences in the list of callbacks times the change of the
    cursor. *)
Theorem progress_reports_follow_the_cursor cb os c :
  _callbacks_enabled c = true →
  reported cb (invoked (run os c)) - reported cb (invoked c)
  = occurrences cb (_callbacks c) * (tell (run os c) - tell c).
Proof.
  revert c. induction os as [|o os IH]; intros c Hen; simpl; [lia|].
  fold (run os (perform o c)).
  destruct (switch_perform o c) as [Hen' Hcbs].
  pose proof (IH (perform o c) ltac:(congruence)) as Hrest.
  pose proof (reported_perform cb o c Hen) as Hstep.
  rewrite Hcbs in Hrest. lia.
Qed.

Lemma slice_app source from n1 n2 :
  0 <= from → 0 <= n1 → 0 <= n2 →
  slice source from n1 ++ slice source (from + n1) n2
  = slice source from (n1 + n2).
Proof.
  intros Hf H1 H2. unfold slice.
  rewrite !Z2Nat.inj_add by lia.
  rewrite <- drop_drop. apply take_take_drop.
Qed.

(** Reads add up.  On a chunk that is a window on its source, a read of
    [a] bytes followed by another read returns, put together, what one
    read of both amounts returns, and leaves the cursor and the file
    where that read leaves them. *)
Theorem reads_concatenate source c a amount :
  window_ok source c → 0 <= a → byte_count amount →
  ∃ data1 c1 data2 c2 data c',
    read (Some a) c = (Returns data1, c1)
    ∧ read amount c1 = (Returns data2, c2)
    ∧ read (match amount with
            | Some b => Some (a + b)
            | None => None
            end) c = (Returns data, c')
    ∧ data1 ++ data2 = data
    ∧ tell c2 = tell c'
    ∧ _fileobj c2 = _fileobj c'.
Proof.
  intros Hok Ha Hb.
  set (both := match amount with Some b => Some (a + b) | None => None end).
  assert (byte_count both) as Hboth
    by (unfold both; destruct amount; simpl in *; [lia|done]).
  pose proof (window_ok_perform source (Read (Some a)) c Hok Ha) as Hok1.
  rewrite perform_read in Hok1.
  destruct (window_read source (Some a) c Hok Ha) as [Hd1 Hl1].
  destruct (window_read source amount _ Hok1 Hb) as [Hd2 Hl2].
  destruct (window_read source both c Hok Hboth) as [Hd Hl].
  pose proof (amount_to_read_nonneg (Some a) c Ha
                (proj2 (wo_cursor _ _ Hok))) as Hn1.
  pose proof (amount_to_read_nonneg amount _ Hb
                (proj2 (wo_cursor _ _ Hok1))) as Hn2.
  assert (amount_to_read (Some a) c
          + amount_to_read amount (after_read (Some a) c)
          = amount_to_read both c) as Hsum.
  { unfold both. destruct amount as [b|]; simpl in *; rewrite ?Hl1; simpl;
      lia. }
  eexists _, _, _, _, _, _. rewrite !read_eq.
  split_and!; [done..| | |].
  - rewrite Hd1, Hd2, Hd. simpl. rewrite Hl1, <- Hsum.
    change (Z.min (_size c - _amount_read c) a)
      with (amount_to_read (Some a) c).
    rewrite Z.add_assoc.
    apply slice_app; [|lia..].
    pose proof (wo_start _ _ Hok). pose proof (wo_cursor _ _ Hok). lia.
  - unfold tell; simpl. rewrite Hl2, Hl. simpl. rewrite Hl1. lia.
  - simpl. f_equal. rewrite Hl2, Hl. simpl. rewrite Hl1. lia.
Qed.

(** What [from_filename] answers.  A file that is not there is an
    [OSError] of [open], whatever [start_byte] is; on a file that is
    there a negative [start_byte] (a 64-bit offset, so that it reaches
    the file) is an [OSError] of [seek]; and a [start_byte] inside the
    file, its end included, gives a chunk on which nothing was read and
    no callback called, of length [min(chunk_size, file size -
    start_byte)], which for a [chunk_size] that is not negative is a
    window on the bytes of the file. *)
Theorem from_filename_outcomes (fs : filesystem) filename start_byte
    chunk_size (callbacks : option (list callback)) enable_callbacks :
  (fs filename = None →
     from_filename fs filename start_byte chunk_size callbacks
       enable_callbacks = Raises (OSError ENOENT))
  ∧ (∀ source, fs filename = Some source → - 2 ^ 63 <= start_byte < 0 →
       from_filename fs filename start_byte chunk_size callbacks
         enable_callbacks = Raises (OSError EINVAL))
  ∧ (∀ source, fs filename = Some source → 0 <= start_byte <= len source →
       ∃ c, from_filename fs filename start_byte chunk_size callbacks
              enable_callbacks = Returns c
            ∧ tell c = 0
            ∧ invoked c = []
            ∧ __len__ c = Z.min chunk_size (len source - start_byte)
            ∧ (0 <= chunk_size → window_ok source c)).
Proof.
  split_and!.
  - intros Hfs. unfold from_filename, FileObj.open. by rewrite Hfs.
  - intros source Hfs [_ Hneg].
    unfold from_filename, FileObj.open, FileObj.seek.
    rewrite Hfs. simpl.
    by assert ((start_byte <? 0) = true) as -> by (apply Z.ltb_lt; lia).
  - intros source Hfs Hst. eexists. split; [apply from_filename_eq; [done|lia]|].
    split; [done|]. split; [done|]. split.
    { unfold __len__, __init__, _calculate_file_size; simpl. lia. }
    intros Hsz.
    apply (window_ok_init {| content := source; position := start_byte |});
      [|done].
    unfold st_size, len in *. simpl. lia.
Qed.

End ChunkMore.

Lemma progress_reports_follow_the_cursor_witness :
  reported "callback"
    (invoked (run [Read (Some 2); Seek 0; Read (Some 2); Seek 1;
                   Read (Some 2)] (chunk_of "foo" 0 3)))
  = 3
  ∧ tell (run [Read (Some 2); Seek 0; Read (Some 2); Seek 1;
               Read (Some 2)] (chunk_of "foo" 0 3)) = 3.
Proof.
  pose proof (progress_reports_follow_the_cursor "callback"
                [Read (Some 2); Seek 0; Read (Some 2); Seek 1;
                 Read (Some 2)] (chunk_of "foo" 0 3) eq_refl) as Hsum.
  assert (tell (run [Read (Some 2); Seek 0; Read (Some 2); Seek 1;
                     Read (Some 2)] (chunk_of "foo" 0 3)) = 3) as Htell
    by (by vm_compute).
  split; [|done]. rewrite Htell in Hsum.
  change (reported "callback" (invoked (chunk_of "foo" 0 3))) with 0 in Hsum.
  change (occurrences "callback" (_callbacks (chunk_of "foo" 0 3))) with 1
    in Hsum.
  change (tell (chunk_of "foo" 0 3)) with 0 in Hsum. lia.
Defined.

Lemma reads_concatenate_witness :
  ∃ data1 c1 data2 c2 data c',
    read (Some 3) (chunk_of "numbers" 3 8) = (Returns data1, c1)
    ∧ read (Some 9) c1 = (Returns data2, c2)
    ∧ read (Some 12) (chunk_of "numbers" 3 8) = (Returns data, c')
    ∧ data1 ++ data2 = data
    ∧ tell c2 = tell c'
    ∧ _fileobj c2 = _fileobj c'.
Proof.
  apply (reads_concatenate numbers (chunk_of "numbers" 3 8) 3 (Some 9)).
  - assert (chunk_of "numbers" 3 8
            = __init__ {| content := numbers; position := 3 |} 8
                (st_size {| content := numbers; position := 3 |})
                (Some ["callback"]) true) as -> by (by vm_compute).
    apply (window_ok_init {| content := numbers; position := 3 |}).
    + by vm_compute.
    + lia.
  - lia.
  - simpl. lia.
Defined.

Lemma from_filename_outcomes_witness :
  from_filename (callback := string) files "no-exist" (-1) 3 None true
  = Raises (OSError ENOENT)
  ∧ from_filename (callback := string) files "numbers" (-1) 3 None true
    = Raises (OSError EINVAL)
  ∧ ∃ c, from_filename files "numbers" 36 100000 (Some ["callback"]) true
         = Returns c
         ∧ tell c = 0
         ∧ __len__ c = 3.
Proof.
  split_and!.
  - by apply (proj1 (from_filename_outcomes files "no-exist" (-1) 3 None
                       true)).
  - apply (proj1 (proj2 (from_filename_outcomes files "numbers" (-1) 3 None
                           true)) numbers); [done|lia].
  - destruct (proj2 (proj2 (from_filename_outcomes files "numbers" 36 100000
                              (Some ["callback"]) true)) numbers)
      as (c & Hc & Htell & _ & Hlen & _); [done|by vm_compute|].
    exists c. split_and!; [done|done|]. rewrite Hlen. by vm_compute.
Defined.

End ReadFileChunkMore.

(** ** The upload handlers and the readers of [OSUtils] *)
Module UploadCallbacksProofs.
Import FileObj Callbacks ReadFileChunk UploadCallbacks OSUtils.
Import ReadFileChunkProofs.

Ltac chunk_fields :=
  cbn [fst snd _fileobj _start_byte _size _amount_read _callbacks
       _callbacks_enabled invoked after_read after_seek].

Section Switch.
Context {callback : Type}.
Implicit Types (c : chunk callback) (r : request callback).
Implicit Types (e : event) (es : list event).

Lemma upload_switch_eq (b : bool) operation_name c :
  ((if b then enable_upload_callbacks operation_name
    else disable_upload_callbacks operation_name)
     {| body := Chunk c |}).2
  = {| body := Chunk
         (if bool_decide (operation_name ∈ ["PutObject"; "UploadPart"])
          then set_callbacks_enabled b c else c) |}.
Proof.
  destruct b;
    unfold enable_upload_callbacks, disable_upload_callbacks, on_body,
      enable_callback, disable_callback, bind, gets, modify, pass, ret;
    simpl; by destruct (bool_decide _).
Qed.

Lemma same_stream_refl c : same_stream c c.
Proof. by repeat split. Qed.

Lemma same_stream_switch b c1 c2 :
  same_stream c1 c2 → same_stream (set_callbacks_enabled b c1) c2.
Proof. intros H. exact H. Qed.

Lemma same_stream_data amount c1 c2 :
  same_stream c1 c2 → data_read amount c1 = data_read amount c2.
Proof.
  intros (Hf & _ & Hsz & Har & _).
  unfold data_read, amount_to_read. by rewrite Hf, Hsz, Har.
Qed.

Lemma same_stream_perform o c1 c2 :
  same_stream c1 c2 → same_stream (perform o c1) (perform o c2).
Proof.
  intros Hs. pose proof Hs as (Hf & Hst & Hsz & Har & Hcb).
  destruct o as [amount|where_]; simpl.
  - rewrite !read_eq. unfold same_stream. chunk_fields.
    rewrite (same_stream_data amount c1 c2 Hs), Hf, Hst, Hsz, Har, Hcb.
    by repeat split.
  - rewrite !seek_eq, Hst. destruct (_ <? 0); [done|].
    unfold same_stream. chunk_fields.
    rewrite Hf, Hst, Hsz, Hcb. by repeat split.
Qed.

Lemma reports_perform o c1 c2 :
  same_stream c1 c2 → _callbacks_enabled c2 = true →
  invoked c1 `sublist_of` invoked c2 →
  invoked (perform o c1) `sublist_of` invoked (perform o c2).
Proof.
  intros Hs Hen Hsub. pose proof Hs as (Hf & Hst & Hsz & Har & Hcb).
  destruct o as [amount|where_]; simpl.
  - rewrite !read_eq. chunk_fields.
    rewrite (same_stream_data amount c1 c2 Hs), Hen, Hcb.
    apply sublist_app; [done|].
    destruct (_callbacks_enabled c1); [done|apply sublist_nil_l].
  - rewrite !seek_eq, Hst. destruct (_ <? 0); [done|]. chunk_fields.
    rewrite Hen, Hcb, Har.
    apply sublist_app; [done|].
    destruct (_callbacks_enabled c1); [done|apply sublist_nil_l].
Qed.

Lemma send_chunk es : ∀ c c',
  same_stream c c' → _callbacks_enabled c' = true →
  invoked c `sublist_of` invoked c' →
  ∃ c1, body (send es {| body := Chunk c |}) = Chunk c1
        ∧ same_stream c1 (run (body_calls es) c')
        ∧ invoked c1 `sublist_of` invoked (run (body_calls es) c').
Proof.
  induction es as [|e es IH]; intros c c' Hs Hen Hsub; simpl.
  - by exists c.
  - fold (send es (handle e {| body := Chunk c |})).
    destruct e as [operation_name|operation_name|o]; simpl.
    + rewrite (upload_switch_eq true). apply IH; [|done|].
      * by destruct (bool_decide _).
      * by destruct (bool_decide _).
    + rewrite (upload_switch_eq false). apply IH; [|done|].
      * by destruct (bool_decide _).
      * by destruct (bool_decide _).
    + fold (run (body_calls es) (perform o c')). apply IH.
      * by apply same_stream_perform.
      * destruct o as [amount|where_]; simpl.
        -- by rewrite read_eq.
        -- rewrite seek_eq. by destruct (_ <? 0).
      * by apply reports_perform.
Qed.

(** The switch of the callbacks never touches the stream.  Whatever
    handlers are called on a request whose body is a chunk, with any
    operation names and between any reads and seeks of the body, the
    body is the same stream as the chunk on which only the reads and
    seeks were made: the same file position, window, cursor and
    callbacks, and the same bytes at every read; and the calls made to
    the callbacks are, in order, among those made when the callbacks
    are enabled all along. *)
Theorem callback_switch_keeps_the_stream es c :
  ∃ c1, body (send es {| body := Chunk c |}) = Chunk c1
        ∧ same_stream c1 (run (body_calls es) c)
        ∧ (∀ amount,
             (read amount c1).1 = (read amount (run (body_calls es) c)).1)
        ∧ invoked c1 `sublist_of`
            invoked (run (body_calls es) (set_callbacks_enabled true c)).
Proof.
  destruct (send_chunk es c (set_callbacks_enabled true c))
    as (c1 & Hbody & Hs & Hsub); [by repeat split|done|done|].
  assert (same_stream (run (body_calls es) (set_callbacks_enabled true c))
            (run (body_calls es) c)) as Hrun.
  { generalize (body_calls es). intros os.
    assert (∀ c2 c3, same_stream c2 c3 →
                     same_stream (run os c2) (run os c3)) as Hall.
    { induction os as [|o os IH]; intros c2 c3 H23; [done|].
      simpl. apply IH. by apply same_stream_perform. }
    apply Hall. by repeat split. }
  assert (same_stream c1 (run (body_calls es) c)) as Hs1.
  { destruct Hs as (? & ? & ? & ? & ?), Hrun as (? & ? & ? & ? & ?).
    repeat split; congruence. }
  exists c1. split_and!; [done|done| |done].
  intros amount. rewrite !read_eq. chunk_fields.
  by rewrite (same_stream_data amount _ _ Hs1).
Qed.

Lemma quiet_perform o c :
  _callbacks_enabled c = false →
  _callbacks_enabled (perform o c) = false
  ∧ invoked (perform o c) = invoked c
  ∧ _callbacks (perform o c) = _callbacks c.
Proof.
  intros Hen. destruct o as [amount|where_]; simpl.
  - rewrite read_eq. simpl. by rewrite Hen, app_nil_r.
  - rewrite seek_eq. destruct (_ <? 0); simpl; [done|].
    by rewrite Hen, app_nil_r.
Qed.

Lemma quiet_send es : ∀ c,
  Forall (fun e => switches_on e = false) es →
  _callbacks_enabled c = false →
  ∃ c1, body (send es {| body := Chunk c |}) = Chunk c1
        ∧ _callbacks_enabled c1 = false
        ∧ invoked c1 = invoked c
        ∧ _callbacks c1 = _callbacks c.
Proof.
  induction es as [|e es IH]; intros c Hes Hen; simpl.
  - by exists c.
  - apply Forall_cons in Hes as [He Hes].
    fold (send es (handle e {| body := Chunk c |})).
    destruct e as [operation_name|operation_name|o]; simpl in *.
    + rewrite (upload_switch_eq true), He. by apply IH.
    + rewrite (upload_switch_eq false).
      destruct (bool_decide _); [|by apply IH].
      destruct (IH (set_callbacks_enabled false c) Hes eq_refl)
        as (c1 & Hb & Hq & Hi & Hc).
      by exists c1.
    + destruct (quiet_perform o c Hen) as (Hen' & Hinv & Hcbs).
      destruct (IH (perform o c) Hes Hen') as (c1 & Hb & Hq & Hi & Hc).
      exists c1. split_and!; [done|done|congruence|congruence].
Qed.

(** The readers of [OSUtils] are silent until switched on.  A reader
    made by [open_file_chunk_reader] or by
    [open_file_chunk_reader_from_fileobj] calls none of the callbacks it
    was given, whatever is read and wherever it is rewound to, as long
    as [enable_upload_callbacks] has not been called with [PutObject]
    or [UploadPart]; calls of it with other operations, and calls of
    [disable_upload_callbacks], change nothing to that.  The first call
    of [enable_upload_callbacks] with one of the two operations
    switches the callbacks on. *)
Theorem chunk_readers_are_silent_until_enabled es
    (callbacks : option (list callback)) :
  Forall (fun e => switches_on e = false) es →
  (∀ fs filename start_byte size c,
     open_file_chunk_reader fs filename start_byte size callbacks
     = Returns c →
     ∃ c1, body (send es {| body := Chunk c |}) = Chunk c1
           ∧ invoked c1 = []
           ∧ _callbacks_enabled c1 = false
           ∧ _callbacks c1 = default [] callbacks)
  ∧ (∀ fileobj chunk_size full_file_size,
       ∃ c1, body (send es
                     {| body := Chunk (open_file_chunk_reader_from_fileobj
                                         fileobj chunk_size full_file_size
                                         callbacks) |}) = Chunk c1
             ∧ invoked c1 = []
             ∧ _callbacks_enabled c1 = false
             ∧ _callbacks c1 = default [] callbacks)
  ∧ (∀ operation_name c1,
       operation_name ∈ ["PutObject"; "UploadPart"] →
       body (enable_upload_callbacks operation_name {| body := Chunk c1 |}).2
       = Chunk (set_callbacks_enabled true c1)).
Proof.
  intros Hes.
  assert (∀ c, _callbacks_enabled c = false → invoked c = [] →
               ∃ c1, body (send es {| body := Chunk c |}) = Chunk c1
                     ∧ invoked c1 = []
                     ∧ _callbacks_enabled c1 = false
                     ∧ _callbacks c1 = _callbacks c) as Hquiet.
  { intros c Hen Hinv.
    destruct (quiet_send es c Hes Hen) as (c1 & Hb & Hq & Hi & Hc).
    exists c1. split_and!; [done|congruence|done|done]. }
  split_and!.
  - intros fs filename start_byte size c Hopen.
    unfold open_file_chunk_reader, from_filename in Hopen.
    destruct (FileObj.open fs filename) as [f| |]; [|done..].
    destruct (FileObj.seek start_byte f) as [[[]| |] f']; [|done..].
    injection Hopen as <-. by apply Hquiet.
  - intros fileobj chunk_size full_file_size. by apply Hquiet.
  - intros operation_name c1 Hop.
    rewrite (upload_switch_eq true). by rewrite bool_decide_eq_true_2.
Qed.

End Switch.

Lemma chunk_readers_are_silent_until_enabled_witness :
  ∃ c c1,
    open_file_chunk_reader ReadFileChunk.files "foo" 0 3 (Some ["callback"])
    = Returns c
    ∧ body (send [Disable "PutObject"; Body (Read None);
                  Enable "GetObject"; Body (Seek 0); Body (Read (Some 2))]
              {| body := Chunk c |}) = Chunk c1
    ∧ invoked c1 = []
    ∧ tell c1 = 2.
Proof.
  destruct (chunk_readers_are_silent_until_enabled
              [Disable "PutObject"; Body (Read None); Enable "GetObject";
               Body (Seek 0); Body (Read (Some 2))] (Some ["callback"]))
    as (Hopen & _ & _).
  - repeat constructor.
  - destruct (Hopen ReadFileChunk.files "foo" 0 3
                (__init__ {| content := String.list_byte_of_string "abc";
                             position := 0 |} 3 3 (Some ["callback"]) false)
                eq_refl) as (c1 & Hb & Hi & _).
    eexists _, c1. split; [reflexivity|]. split; [exact Hb|].
    split; [exact Hi|].
    assert (Chunk c1 = Chunk
              (run [Read None; Seek 0; Read (Some 2)]
                 (__init__ {| content := String.list_byte_of_string "abc";
                              position := 0 |} 3 3 (Some ["callback"])
                    false))) as Heq
      by (rewrite <- Hb; by vm_compute).
    injection Heq as ->. by vm_compute.
Defined.

End UploadCallbacksProofs.

(** ** [StreamReaderProgress] *)
Module StreamReaderProgressProofs.
Import FileObj Callbacks Progress StreamReaderProgress ProgressProofs.

Section ReaderProofs.
Context {callback : Type} `{EqDecision callback}.
Implicit Types (r : reader callback) (amount : option Z) (f : file).
Implicit Types (cb : callback).

Lemma stream_read_eq amount r :
  read amount r =
    (Returns (bytes_at amount (_stream r)),
     {| _stream := {| content := content (_stream r);
                      position := position (_stream r)
                                  + len (bytes_at amount (_stream r)) |};
        _callbacks := _callbacks r;
        invoked := invoked r ++
                   invoke_progress_callbacks (_callbacks r)
                     (len (bytes_at amount (_stream r))) |}).
Proof. by destruct r as [[src pos] cbs inv]. Qed.

Lemma file_read_eq amount f :
  FileObj.read amount f =
    (Returns (bytes_at amount f),
     {| content := content f;
        position := position f + len (bytes_at amount f) |}).
Proof. by destruct f. Qed.

Lemma read_each_eq amounts : ∀ r,
  (read_each amounts r).1 = (read_each_stream amounts (_stream r)).1
  ∧ _stream (read_each amounts r).2
    = (read_each_stream amounts (_stream r)).2
  ∧ _callbacks (read_each amounts r).2 = _callbacks r.
Proof.
  induction amounts as [|amount amounts IH]; intros r; [done|].
  cbn [read_each read_each_stream].
  rewrite stream_read_eq, file_read_eq.
  match goal with
  | |- context [read_each amounts ?r1] =>
      destruct (IH r1) as (Hans & Hstr & Hcbs);
      destruct (read_each amounts r1) as [answers r2]
  end.
  cbn [_stream _callbacks fst snd] in *.
  destruct (read_each_stream amounts _) as [answers' f2].
  cbn [fst snd] in *. by subst.
Qed.

Lemma read_each_reports cb amounts : ∀ r,
  reported cb (invoked (read_each amounts r).2) - reported cb (invoked r)
  = occurrences cb (_callbacks r)
    * (position (_stream (read_each amounts r).2) - position (_stream r))
  ∧ (Forall (fun i => 0 < bytes_transferred i) (invoked r) →
     Forall (fun i => 0 < bytes_transferred i)
       (invoked (read_each amounts r).2))
  ∧ position (_stream r) <= position (_stream (read_each amounts r).2).
Proof.
  induction amounts as [|amount amounts IH]; intros r.
  - cbn [read_each snd]. split_and!; [lia|done|lia].
  - cbn [read_each]. rewrite stream_read_eq.
    match goal with
    | |- context [read_each amounts ?r1] =>
        destruct (IH r1) as (Hsum & Hpos & Hle);
        destruct (read_each amounts r1) as [answers r2]
    end.
    cbn [_stream _callbacks invoked position fst snd] in *.
    rewrite reported_app, reported_invoke in Hsum.
    assert (0 <= len (bytes_at amount (_stream r))) by (unfold len; lia).
    split_and!; [lia| |lia].
    intros Hall. apply Hpos, Forall_app. split; [done|].
    by apply invoke_positive.
Qed.

(** The wrapper reports what it reads.  Any sequence of reads through a
    [StreamReaderProgress] answers what the same reads on the wrapped
    stream answer and leaves the stream where they leave it; each
    callback has then been told, in all, as many bytes as the stream
    has advanced, once for each time it stands in the list of
    callbacks; and no call reports zero or a negative amount. *)
Theorem stream_reader_reports_what_it_reads cb amounts stream
    (callbacks : option (list callback)) :
  (read_each amounts (__init__ stream callbacks)).1
  = (read_each_stream amounts stream).1
  ∧ _stream (read_each amounts (__init__ stream callbacks)).2
    = (read_each_stream amounts stream).2
  ∧ reported cb (invoked (read_each amounts (__init__ stream callbacks)).2)
    = occurrences cb (default [] callbacks)
      * (position (read_each_stream amounts stream).2 - position stream)
  ∧ Forall (fun i => 0 < bytes_transferred i)
      (invoked (read_each amounts (__init__ stream callbacks)).2).
Proof.
  destruct (read_each_eq amounts (__init__ stream callbacks))
    as (Hans & Hstr & _).
  destruct (read_each_reports cb amounts (__init__ stream callbacks))
    as (Hsum & Hpos & _).
  change (_stream (__init__ stream callbacks)) with stream in *.
  change (_callbacks (__init__ stream callbacks))
    with (default [] callbacks) in *.
  change (invoked (__init__ stream callbacks))
    with (@nil (invocation callback)) in *.
  split_and!; [done|done| |by apply Hpos].
  rewrite <- Hstr. simpl in Hsum. lia.
Qed.

End ReaderProofs.

(** [test_callback_invoked] *)
Example test_callback_invoked :
  read None (__init__ foobarbaz (Some ["callback"; "callback"]))
  = (Returns (String.list_byte_of_string "foobarbaz"),
     {| _stream := {| content := String.list_byte_of_string "foobarbaz";
                      position := 9 |};
        _callbacks := ["callback"; "callback"];
        invoked := [Called "callback" 9; Called "callback" 9] |}).
Proof. by vm_compute. Qed.

End StreamReaderProgressProofs.

(** ** [get_callbacks] *)
Module SubscribersProofs.
Import Subscribers.

Section Selection.
Context {method future : Type}.
Variable subscribers : future -> list (subscriber (method := method)).

Lemma omap_step {A B} (f : A → option B) x (l : list A) :
  omap f (x :: l) = match f x with
                    | Some y => y :: omap f l
                    | None => omap f l
                    end.
Proof. done. Qed.

Lemma get_callbacks_loop (transfer_future : future) callback_name
    (subs : list (subscriber (method := method))) : ∀ callbacks,
  foldl (fun callbacks (subscriber : subscriber) =>
           match subscriber callback_name with
           | Some method => callbacks ++ [Partial method transfer_future]
           | None => callbacks
           end) callbacks subs
  = callbacks ++
    omap (fun sub : subscriber =>
            (fun m => Partial m transfer_future) <$> sub callback_name) subs.
Proof.
  induction subs as [|sub subs IH]; intros callbacks; simpl.
  - by rewrite app_nil_r.
  - rewrite IH. destruct (sub callback_name); simpl; [|done].
    by rewrite <- app_assoc.
Qed.

(** What [get_callbacks] selects.  The callbacks are the
    [on_<callback_type>] attributes of the subscribers that have one,
    in the order of the subscribers, a subscriber without the attribute
    being passed over; each of them is bound to the transfer future
    given; and there are no more of them than subscribers. *)
Theorem get_callbacks_selects_in_order transfer_future callback_type :
  map func (get_callbacks subscribers transfer_future callback_type)
  = omap (fun sub : subscriber => sub ("on_" +:+ callback_type))
      (subscribers transfer_future)
  ∧ Forall (fun p => future_kw p = transfer_future)
      (get_callbacks subscribers transfer_future callback_type)
  ∧ (length (get_callbacks subscribers transfer_future callback_type)
     ≤ length (subscribers transfer_future))%nat
  ∧ (length (get_callbacks subscribers transfer_future callback_type)
     = length (subscribers transfer_future)
     ↔ Forall (fun sub : subscriber =>
                 is_Some (sub ("on_" +:+ callback_type)))
         (subscribers transfer_future)).
Proof.
  unfold get_callbacks. rewrite get_callbacks_loop, app_nil_l.
  generalize (subscribers transfer_future). intros subs.
  induction subs as [|sub subs (IHm & IHf & IHl & IHa)].
  - split_and!; [done|done|done|]. split; [by constructor|done].
  - rewrite !omap_step.
    destruct (sub ("on_" +:+ callback_type)) as [m|] eqn:Hm;
      cbn [fmap option_fmap option_map map length].
    + split_and!; [by f_equal|by constructor|lia|].
      rewrite Forall_cons. split.
      * intros Hlen. split; [by rewrite Hm|]. apply IHa. lia.
      * intros [_ Hall]. f_equal. by apply IHa.
    + split_and!; [done|done|lia|].
      rewrite Forall_cons. split.
      * intros Hlen. lia.
      * intros [Hsome _]. rewrite Hm in Hsome. by destruct Hsome.
Qed.

End Selection.

(** [test_get_callbacks], [test_get_callbacks_for_missing_type] *)
Example test_get_callbacks :
  get_callbacks
    (fun _ : string =>
       [RecordingSubscriber "first"; RecordingSubscriber "second"])
    "future" "queued"
  = [Partial ("first", "on_queued") "future";
     Partial ("second", "on_queued") "future"]
  ∧ get_callbacks
      (fun _ : string =>
         [RecordingSubscriber "first"; RecordingSubscriber "second"])
      "future" "fake_state"
    = [].
Proof. by vm_compute. Qed.

End SubscribersProofs.

(** ** [calculate_range_parameter] *)
Module RangeParameterProofs.
Import RangeParameter.

(** The parts tile the object.  When an object of [total_size] bytes is
    cut into [num_parts] parts of [part_size] bytes, the last one
    shorter or not, the range of part [part_index] goes from
    [part_index * part_size] to the byte before the start of the next
    part, or to the last byte of the object for the last part: it is
    not empty, lies inside the object, and the next range begins where
    it ends.  Without [total_size] the ranges are the same, except that
    the last one is left open. *)
Theorem parts_tile_the_object part_size num_parts total_size part_index :
  0 < part_size →
  (num_parts - 1) * part_size < total_size <= num_parts * part_size →
  0 <= part_index < num_parts →
  calculate_range_parameter part_size part_index num_parts (Some total_size)
  = "bytes=" +:+ str (part_index * part_size) +:+ "-"
    +:+ str (Z.min ((part_index + 1) * part_size) total_size - 1)
  ∧ (0 <= part_index * part_size
       <= Z.min ((part_index + 1) * part_size) total_size - 1)
  ∧ Z.min ((part_index + 1) * part_size) total_size - 1 < total_size
  ∧ calculate_range_parameter part_size part_index num_parts None
    = (if part_index =? num_parts - 1
       then "bytes=" +:+ str (part_index * part_size) +:+ "-"
       else calculate_range_parameter part_size part_index num_parts
              (Some total_size)).
Proof.
  intros Hp Htot Hi. unfold calculate_range_parameter.
  destruct (part_index =? num_parts - 1) eqn:Hlast.
  - apply Z.eqb_eq in Hlast. subst part_index.
    replace (num_parts - 1 + 1) with num_parts by lia.
    split_and!; [|nia|nia|lia|done].
    do 4 f_equal. lia.
  - apply Z.eqb_neq in Hlast.
    assert ((part_index + 1) * part_size <= (num_parts - 1) * part_size)
      by nia.
    split_and!; [|nia|nia|lia|done].
    do 4 f_equal. lia.
Qed.

(** [test_calculate_range_paramter], [test_last_part_with_no_total_size],
    [test_last_part_with_total_size] *)
Example test_calculate_range_parameter :
  calculate_range_parameter 5 1 3 None = "bytes=5-9"
  ∧ calculate_range_parameter 5 1 2 None = "bytes=5-"
  ∧ calculate_range_parameter 5 1 2 (Some 8) = "bytes=5-7".
Proof. by vm_compute. Qed.

Lemma parts_tile_the_object_witness :
  calculate_range_parameter 5 0 3 (Some 12) = "bytes=0-4"
  ∧ calculate_range_parameter 5 1 3 (Some 12) = "bytes=5-9"
  ∧ calculate_range_parameter 5 2 3 (Some 12) = "bytes=10-11".
Proof.
  split_and!.
  - rewrite (proj1 (parts_tile_the_object 5 3 12 0 ltac:(lia) ltac:(lia)
                      ltac:(lia))). by vm_compute.
  - rewrite (proj1 (parts_tile_the_object 5 3 12 1 ltac:(lia) ltac:(lia)
                      ltac:(lia))). by vm_compute.
  - rewrite (proj1 (parts_tile_the_object 5 3 12 2 ltac:(lia) ltac:(lia)
                      ltac:(lia))). by vm_compute.
Defined.

End RangeParameterProofs.

(** ** [OSUtils] *)
Module OSUtilsProofs.
Import FileObj OSUtils.

(** [remove_file] leaves no file and never raises.  Whether the file is
    there or not, [remove_file] returns; afterwards no file has that
    name, so that [get_file_size] and [open] of it raise [OSError], and
    every other file is as it was.  With no file of that name the file
    system is left as it is, so removing twice is removing once.  (The
    file system is one on which [os.remove] fails for a missing file
    only.) *)
Theorem remove_file_leaves_no_file (fs : filesystem) filename :
  ∃ fs',
    remove_file filename fs = (Returns tt, fs')
    ∧ fs' filename = None
    ∧ (∀ other, other ≠ filename → fs' other = fs other)
    ∧ (fs filename = None → fs' = fs)
    ∧ remove_file filename fs' = (Returns tt, fs')
    ∧ get_file_size filename fs' = (Raises (OSError ENOENT), fs')
    ∧ FileObj.open fs' filename = Raises (OSError ENOENT).
Proof.
  unfold remove_file, try_except_OSError, os_remove, get_file_size,
    os_path_getsize, FileObj.open, pass, ret.
  destruct (fs filename) as [bytes|] eqn:Hfs.
  - eexists. split; [done|]. simpl. rewrite String.eqb_refl.
    split_and!; [done| |done|done|done|done].
    intros other Hne. apply String.eqb_neq in Hne. by rewrite Hne.
  - exists fs. rewrite Hfs. by split_and!.
Qed.

(** [test_get_file_size], [test_remove_file_proxies_remove_file] *)
Example test_remove_file :
  (get_file_size "foo" ReadFileChunk.files).1 = Returns 3
  ∧ (remove_file "foo" ReadFileChunk.files).1 = Returns tt
  ∧ (remove_file "foo" ReadFileChunk.files).2 "foo" = None
  ∧ (remove_file "no-exist" ReadFileChunk.files).1 = Returns tt.
Proof. by vm_compute. Qed.

End OSUtilsProofs.

(** ** More of [DeferredOpenFile] *)
Module DeferredOpenFileMore.
Import FileObj DeferredOpenFile DeferredAnswers DeferredOpenFileProofs.

Section Deferred.
Variable fs : filesystem.
Implicit Types (d : deferred) (f : file) (c : call) (cs : list call).
Implicit Types (source : list byte) (amount : option Z).

Lemma run_snoc cs c d : run fs (cs ++ [c]) d = perform fs c (run fs cs d).
Proof. unfold run. by rewrite foldl_app. Qed.

Lemma tell_keeps d : (tell d).2 = d.
Proof. by destruct d as [name [[src pos]|] st n]. Qed.

Lemma filename_perform c d : _filename (perform fs c d) = _filename d.
Proof.
  assert (∀ {A} (m : M file A) d', _filename (on_fileobj m d').2
                                   = _filename d') as Hon.
  { intros A m d'. unfold on_fileobj.
    destruct (_fileobj d'); [|done]. by destruct (m f). }
  assert (_filename (_open_if_needed fs d).2 = _filename d) as Hopen.
  { rewrite open_if_needed_eq. destruct (_fileobj d); [done|].
    by destruct (fs (_filename d)). }
  destruct c as [amount|where_| |]; simpl.
  - unfold read, bind. destruct (_open_if_needed fs d) as [[[]| |] d'];
      simpl in *; by rewrite ?Hon.
  - unfold seek, bind. destruct (_open_if_needed fs d) as [[[]| |] d'];
      simpl in *; by rewrite ?Hon.
  - by rewrite tell_keeps.
  - done.
Qed.

Lemma filename_run cs : ∀ d, _filename (run fs cs d) = _filename d.
Proof.
  induction cs as [|c cs IH]; intros d; [done|].
  simpl. fold (run fs cs (perform fs c d)). by rewrite IH, filename_perform.
Qed.

(** *** How often the file is opened *)

Lemma opened_once_on_fileobj {A} (m : M file A) source d :
  (∀ f, content (m f).2 = content f) →
  opened_once source d → is_Some (_fileobj d) →
  opened_once source (on_fileobj m d).2
  ∧ is_Some (_fileobj (on_fileobj m d).2).
Proof.
  intros Hm Hd [f Hf]. rewrite (on_fileobj_present _ _ _ Hf).
  unfold opened_once in *. rewrite Hf in Hd. simpl.
  split; [|done]. by rewrite Hm.
Qed.

Lemma read_keeps_content amount f :
  content (FileObj.read amount f).2 = content f.
Proof. by destruct f. Qed.

Lemma seek_keeps_content where_ f :
  content (FileObj.seek where_ f).2 = content f.
Proof. destruct f. unfold FileObj.seek. by destruct (_ <? 0). Qed.

Lemma opened_once_open source d :
  fs (_filename d) = Some source → opened_once source d →
  opened_once source (_open_if_needed fs d).2
  ∧ is_Some (_fileobj (_open_if_needed fs d).2).
Proof.
  intros Hfs Hd. rewrite open_if_needed_eq. unfold opened_once in *.
  destruct (_fileobj d) as [f|] eqn:Hf; simpl.
  - by rewrite Hf.
  - rewrite Hfs. simpl. by rewrite Hd.
Qed.

Lemma opened_once_perform source c d :
  fs (_filename d) = Some source → opened_once source d →
  opened_once source (perform fs c d)
  ∧ (is_Some (_fileobj (perform fs c d))
     ↔ is_Some (_fileobj d) ∨ opens c = true).
Proof.
  intros Hfs Hd.
  destruct (opened_once_open source d Hfs Hd) as [Hopen Hsome].
  destruct c as [amount|where_| |]; simpl.
  - unfold read, bind.
    destruct (_open_if_needed fs d) as [[[]| |] d'] eqn:Ho; simpl in *;
      [|by split; [|split; [by right|]]..].
    destruct (opened_once_on_fileobj (FileObj.read amount) source d'
                (read_keeps_content amount) Hopen Hsome) as [H1 H2].
    split; [done|]. split; [by right|done].
  - unfold seek, bind.
    destruct (_open_if_needed fs d) as [[[]| |] d'] eqn:Ho; simpl in *;
      [|by split; [|split; [by right|]]..].
    destruct (opened_once_on_fileobj (FileObj.seek where_) source d'
                (seek_keeps_content where_) Hopen Hsome) as [H1 H2].
    split; [done|]. split; [by right|done].
  - rewrite tell_keeps. split; [done|]. split; [by left|].
    by intros [?|?].
  - unfold __enter__. split; [done|]. split; [by right|done].
Qed.

Lemma missing_perform c d :
  fs (_filename d) = None → _fileobj d = None →
  _fileobj (perform fs c d) = None
  ∧ open_called_count (perform fs c d)
    = (open_called_count d + if opens c then 1 else 0)%nat
  ∧ (opens c = true →
     (answer fs c d).1 = Raises (OSError ENOENT)).
Proof.
  intros Hfs Hf.
  assert (_open_if_needed fs d
          = (Raises (OSError ENOENT),
             {| _filename := _filename d; _fileobj := None;
                _start_byte := _start_byte d;
                open_called_count := S (open_called_count d) |})) as Ho
    by (by rewrite open_if_needed_eq, Hf, Hfs).
  destruct c as [amount|where_| |]; simpl.
  - unfold read, bind. rewrite Ho. simpl. split_and!; [done|lia|done].
  - unfold seek, bind. rewrite Ho. simpl. split_and!; [done|lia|done].
  - rewrite tell_keeps. split_and!; [done|lia|done].
  - unfold __enter__, bind. rewrite Ho. simpl. split_and!; [done|lia|done].
Qed.

(** The file is opened once, at the first call that needs it.  On a
    file that exists, after any sequence of calls [OPEN_METHOD] has
    been called once if one of the calls was a [read], a [seek] or an
    [__enter__], and not at all otherwise; the handle is present in the
    first case, on the bytes of the file, and absent in the second.  On
    a file that does not exist every such call calls [OPEN_METHOD]
    again and the handle stays absent. *)
Theorem open_method_is_called_once filename start_byte cs :
  (∀ source, fs filename = Some source →
     open_called_count (run fs cs (__init__ filename start_byte))
     = (if existsb opens cs then 1 else 0)%nat
     ∧ (is_Some (_fileobj (run fs cs (__init__ filename start_byte)))
        ↔ existsb opens cs = true)
     ∧ (∀ f, _fileobj (run fs cs (__init__ filename start_byte)) = Some f →
             content f = source))
  ∧ (fs filename = None →
       _fileobj (run fs cs (__init__ filename start_byte)) = None
       ∧ open_called_count (run fs cs (__init__ filename start_byte))
         = length (filter (fun c => opens c = true) cs)).
Proof.
  split.
  - intros source Hfs.
    assert (opened_once source (run fs cs (__init__ filename start_byte))
            ∧ (is_Some (_fileobj (run fs cs (__init__ filename start_byte)))
               ↔ existsb opens cs = true)) as [Honce Hsome].
    { induction cs as [|c cs' [IH1 IH2]] using rev_ind.
      - split; [done|]. simpl. split; [by intros [? ?]|done].
      - rewrite run_snoc, existsb_app. simpl. rewrite orb_false_r.
        destruct (opened_once_perform source c
                    (run fs cs' (__init__ filename start_byte)))
          as [H1 H2]; [by rewrite filename_run|done|].
        split; [done|]. rewrite H2, IH2, orb_true_iff. done. }
    unfold opened_once in Honce.
    destruct (_fileobj (run fs cs (__init__ filename start_byte)))
      as [f|] eqn:Hf.
    + destruct Honce as [Hcount Hcontent].
      assert (existsb opens cs = true) as -> by (by apply Hsome).
      split_and!; [done|done|]. by intros f' [= <-].
    + assert (existsb opens cs = false) as ->.
      { destruct (existsb opens cs); [|done].
        destruct (proj2 Hsome eq_refl) as [? ?]. done. }
      split_and!; [done| |done].
      split; [by intros [? ?]|done].
  - intros Hfs.
    induction cs as [|c cs' [IH1 IH2]] using rev_ind; [done|].
    rewrite run_snoc, filter_app, length_app.
    destruct (missing_perform c (run fs cs' (__init__ filename start_byte)))
      as (H1 & H2 & _); [by rewrite filename_run|done|].
    split; [done|]. rewrite H2, IH2. rewrite filter_cons, filter_nil.
    destruct c; simpl; try done.
    all: destruct (decide _); simpl; done.
Qed.

(** *** The deferred file against the file itself *)

Lemma stands_for_open d f :
  stands_for fs d f →
  ∃ d', _open_if_needed fs d = (Returns tt, d') ∧ _fileobj d' = Some f.
Proof.
  unfold stands_for. intros Hd. rewrite open_if_needed_eq.
  destruct (_fileobj d) as [f'|] eqn:Hf.
  - subst. by exists d.
  - destruct Hd as (Hst & Hfs & Hpos). rewrite Hfs.
    assert ((_start_byte d <? 0) = false) as -> by (apply Z.ltb_ge; lia).
    eexists. split; [done|]. simpl.
    assert ((_start_byte d <? 0) = false) as -> by (apply Z.ltb_ge; lia).
    destruct f; simpl in *. by subst.
Qed.

Lemma file_read_closed amount f :
  FileObj.read amount f =
    (Returns (bytes_at amount f),
     {| content := content f;
        position := position f + Z.of_nat (length (bytes_at amount f)) |}).
Proof. by destruct f. Qed.

Lemma stands_for_answer c d f :
  stands_for fs d f →
  ∃ d' f', (answer fs c d).1 = handed_on c (answer_file c f).1
           ∧ (answer fs c d).2 = d'
           ∧ (answer_file c f).2 = f'
           ∧ stands_for fs d' f'.
Proof.
  intros Hd. destruct (stands_for_open d f Hd) as (d1 & Ho & Hf1).
  destruct c as [amount|where_| |]; cbn [answer answer_file].
  - unfold read, bind. rewrite Ho, (on_fileobj_present _ _ _ Hf1).
    rewrite !(file_read_closed amount f). cbn [fst snd].
    eexists _, _. split_and!; [done..|by unfold stands_for].
  - unfold seek, bind. rewrite Ho, (on_fileobj_present _ _ _ Hf1).
    unfold FileObj.seek, FileObj.tell.
    destruct (where_ <? 0); cbn [fst snd raise modify gets ret handed_on];
      eexists _, _; (split_and!; [done..|by unfold stands_for]).
  - unfold tell, FileObj.tell, bind, gets, ret. unfold stands_for in Hd.
    destruct (_fileobj d) as [f'|] eqn:Hf.
    + subst f'. rewrite (on_fileobj_present _ _ _ Hf). cbn [fst snd].
      eexists _, _. split_and!; [done..|]. by unfold stands_for.
    + destruct Hd as (Hst & Hfs & Hpos). cbn [fst snd]. rewrite Hpos.
      eexists _, _. split_and!; [done..|]. unfold stands_for.
      by rewrite Hf.
  - unfold __enter__, bind, ret. rewrite Ho. cbn [fst snd].
    eexists _, _. split_and!; [done..|]. unfold stands_for. by rewrite Hf1.
Qed.

Lemma stands_for_transcript cs : ∀ d f,
  stands_for fs d f →
  transcript fs cs d = zip_with handed_on cs (transcript_file cs f).
Proof.
  induction cs as [|c cs IH]; intros d f Hd; [done|].
  cbn [transcript transcript_file].
  destruct (stands_for_answer c d f Hd) as (d' & f' & Hans & Hd' & Hf' & Hst).
  destruct (answer fs c d) as [o1 d1], (answer_file c f) as [o2 f2].
  simpl in *. subst. f_equal. by apply IH.
Qed.

(** The deferred file answers as its file does.  For a file that exists
    and a [start_byte] inside it, its end included, any sequence of
    [read], [seek], [tell] and [__enter__] calls on the deferred file
    answers,
    call by call, what the same calls answer on the file opened at once
    and put at [start_byte]: the same bytes, the same offsets and the
    same exceptions, with one difference, that a [seek] which returns
    answers [None] where the file answers its new offset. *)
Theorem deferred_file_answers_as_the_file filename start_byte source cs :
  fs filename = Some source →
  0 <= start_byte <= Z.of_nat (length source) →
  transcript fs cs (__init__ filename start_byte)
  = zip_with handed_on cs
      (transcript_file cs {| content := source; position := start_byte |}).
Proof.
  intros Hfs [Hst _]. apply stands_for_transcript.
  unfold stands_for. simpl. done.
Qed.

(** A negative [start_byte] fails the first call only.  With a file
    that exists and a negative [start_byte] (a 64-bit offset, so that
    it reaches the file), the first [read], [seek] or [__enter__]
    raises the [OSError] of the file's [seek] after the file was
    opened: the handle stays, at offset 0, and [tell] then answers 0,
    not [start_byte]; from then on the deferred file answers every
    call as the file read from its beginning does, a [seek] that
    returns answering [None] where the file answers its new offset. *)
Theorem negative_start_byte_fails_only_once filename start_byte source c :
  fs filename = Some source → - 2 ^ 63 <= start_byte < 0 →
  opens c = true →
  ∃ d', answer fs c (__init__ filename start_byte)
        = (Raises (OSError EINVAL), d')
        ∧ _fileobj d' = Some {| content := source; position := 0 |}
        ∧ open_called_count d' = 1%nat
        ∧ tell d' = (Returns 0, d')
        ∧ ∀ cs, transcript fs cs d'
                = zip_with handed_on cs
                    (transcript_file cs
                       {| content := source; position := 0 |}).
Proof.
  intros Hfs [_ Hneg] Hc.
  assert (opened source (__init__ filename start_byte)
          = {| _filename := filename;
               _fileobj := Some {| content := source; position := 0 |};
               _start_byte := start_byte;
               open_called_count := 1 |}) as Hopened.
  { unfold opened; simpl.
    by assert ((start_byte <? 0) = true) as -> by (apply Z.ltb_lt; lia). }
  assert (_open_if_needed fs (__init__ filename start_byte)
          = (Raises (OSError EINVAL),
             opened source (__init__ filename start_byte))) as Ho.
  { rewrite open_if_needed_eq. simpl. rewrite Hfs.
    by assert ((start_byte <? 0) = true) as -> by (apply Z.ltb_lt; lia). }
  rewrite Hopened in Ho.
  exists {| _filename := filename;
            _fileobj := Some {| content := source; position := 0 |};
            _start_byte := start_byte;
            open_called_count := 1 |}.
  split; [|split; [reflexivity|]].
  { destruct c as [amount|where_| |]; simpl; [| |done|].
    + unfold read, bind. by rewrite Ho.
    + unfold seek, bind. by rewrite Ho.
    + unfold __enter__, bind. by rewrite Ho. }
  split; [done|]. split; [done|].
  intros cs. by apply stands_for_transcript.
Qed.

End Deferred.

Lemma deferred_file_answers_as_the_file_witness :
  transcript my_contents [Tell; Read (Some 2); Seek 0; Read None; Tell]
    (__init__ "foo" 3)
  = [Returns (Offset 3);
     Returns (Data (String.list_byte_of_string "co"));
     Returns Nothing;
     Returns (Data (String.list_byte_of_string "my contents"));
     Returns (Offset 11)]
  ∧ transcript_file [Tell; Read (Some 2); Seek 0; Read None; Tell]
      {| content := String.list_byte_of_string "my contents";
         position := 3 |}
    = [Returns (Offset 3);
       Returns (Data (String.list_byte_of_string "co"));
       Returns (Offset 0);
       Returns (Data (String.list_byte_of_string "my contents"));
       Returns (Offset 11)].
Proof.
  rewrite (deferred_file_answers_as_the_file my_contents "foo" 3
             (String.list_byte_of_string "my contents")
             [Tell; Read (Some 2); Seek 0; Read None; Tell]
             eq_refl ltac:(by vm_compute)).
  by vm_compute.
Defined.

Lemma negative_start_byte_fails_only_once_witness :
  ∃ d', answer my_contents (Read None) (__init__ "foo" (-1))
        = (Raises (OSError EINVAL), d')
        ∧ tell d' = (Returns 0, d')
        ∧ (answer my_contents (Read None) d').1
          = Returns (Data (String.list_byte_of_string "my contents")).
Proof.
  destruct (negative_start_byte_fails_only_once my_contents "foo" (-1)
              (String.list_byte_of_string "my contents") (Read None)
              eq_refl ltac:(lia) eq_refl)
    as (d' & Hans & _ & _ & Htell & Hrest).
  exists d'. split; [exact Hans|]. split; [exact Htell|].
  pose proof (Hrest [Read None]) as Hone.
  cbn [transcript transcript_file zip_with] in Hone.
  destruct (answer my_contents (Read None) d') as [o d''].
  injection Hone as ->. by vm_compute.
Defined.

End DeferredOpenFileMore.
